(** * Bulk-import reconciliation core of django-double-entry (lukweb)

    A shallow embedding of the double-book model
    ([lukweb/models/accounting/base.py]), of the bulk-import helpers
    ([lukweb/forms/accounting/bulk_utils.py]), of the pricing-rule matcher
    ([lukweb/models/accounting/complex_pricing.py]) and of the bank-transfer
    preparator ([lukweb/forms/accounting/transfers.py]).

    Conventions.  [Money] amounts are integers counting cents (the model
    fixes two decimal places and one currency), so that [Money.__bool__] is
    "different from zero" and [==], [<], [min], [+], [-] are those of [Z].
    Timestamps and dates are integers as well.  A Python list is a [list],
    a [dict] keyed by primary key or by signature is a [gmap], and a
    [defaultdict(list)] whose iteration order matters is an association list
    in insertion order. *)

From Stdlib Require Import ZArith Lia Ascii String.
From stdpp Require Import base option numbers list sorting gmap strings pretty.

Local Open Scope Z_scope.
#[local] Set Warnings "-clear-no-such-hyp".

(** Python exceptions that the modelled code can let escape. *)
Inductive Exception := KeyError | ValueError.

Inductive Outcome (A : Type) :=
| Returned (a : A)
| Raised (e : Exception).
Arguments Returned {A} a.
Arguments Raised {A} e.

(** ** models/accounting/base.py *)
Module base.

(** The columns of a [DoubleBookModel] (with the [total_amount] of
    [BaseFinancialRecord]) and the two queryset annotations that
    [with_remote_accounts] may have attached; an annotation that is absent
    makes [getattr] raise [AttributeError], here [None]. *)
Record DoubleBookModel := {
  pk : option Z;
  timestamp : Z;
  total_amount : Z;
  matched_balance_fromdb : option Z;
  unmatched_balance_fromdb : option Z
}.

(** What the fallback path of [matched_balance] leaves behind: the debug
    record and the aggregate query on the split manager. *)
Inductive Effect :=
| PERFORMANCE_WARNING
| AggregateSplits (record_pk : Z).

Definition sum_amounts (l : list Z) : Z := foldr Z.add 0 l.

Section split_store.
(** [split_manager k]: the amounts of the stored splits that point at the
    record whose primary key is [k]. *)
Variable split_manager : Z -> list Z.

Definition matched_balance (self : DoubleBookModel) : Z * list Effect :=
  match matched_balance_fromdb self with
  | Some annotated => (annotated, [])
  | None =>
      match pk self with
      | None => (0, [])
      | Some k =>
          (sum_amounts (split_manager k),
           [PERFORMANCE_WARNING; AggregateSplits k])
      end
  end.

Definition unmatched_balance (self : DoubleBookModel) : Z * list Effect :=
  match unmatched_balance_fromdb self with
  | Some annotated => (annotated, [])
  | None =>
      let '(matched, effects) := matched_balance self in
      (total_amount self - matched, effects)
  end.

(** [not self.unmatched_balance]: a [Money] is falsy exactly when its
    amount is zero. *)
Definition fully_matched (self : DoubleBookModel) : bool * list Effect :=
  let '(unmatched, effects) := unmatched_balance self in
  (unmatched =? 0, effects).

(** The filter that [with_remote_accounts] annotates as
    [fully_matched_fromdb]: [When(total_amount__lte=F(matched_balance))]. *)
Definition fully_matched_fromdb (total matched : Z) : bool :=
  total <=? matched.

End split_store.

(** [BaseDebtRecord] and [BasePaymentRecord] add no column; they rename the
    derived fields. *)
Record BaseDebtRecord := Debt { debt_entry :> DoubleBookModel }.
Record BasePaymentRecord := Payment { payment_entry :> DoubleBookModel }.

Section split_store_views.
Variable split_manager : Z -> list Z.

Definition amount_paid (self : BaseDebtRecord) : Z :=
  fst (matched_balance split_manager self).
Definition balance (self : BaseDebtRecord) : Z :=
  fst (unmatched_balance split_manager self).
Definition paid (self : BaseDebtRecord) : bool :=
  fst (fully_matched split_manager self).

Definition credit_used (self : BasePaymentRecord) : Z :=
  fst (matched_balance split_manager self).
Definition credit_remaining (self : BasePaymentRecord) : Z :=
  fst (unmatched_balance split_manager self).
Definition fully_used (self : BasePaymentRecord) : bool :=
  fst (fully_matched split_manager self).

End split_store_views.

End base.

(** ** forms/accounting/bulk_utils.py: the apportionment engine *)
Module bulk_utils.
Import base.

(** [split_model(payment=..., debt=..., amount=...)]. *)
Record Split := {
  split_payment : BasePaymentRecord;
  split_debt : BaseDebtRecord;
  amount : Z
}.

Record ApportionmentResult := {
  fully_used_payments : list BasePaymentRecord;
  fully_paid_debts : list BaseDebtRecord;
  remaining_payments : list BasePaymentRecord;
  remaining_debts : list BaseDebtRecord
}.

(** The four [results.<field>.append(x)] / [.extend(xs)]. *)
Definition extend_fully_used_payments xs (results : ApportionmentResult) :=
  {| fully_used_payments := fully_used_payments results ++ xs;
     fully_paid_debts := fully_paid_debts results;
     remaining_payments := remaining_payments results;
     remaining_debts := remaining_debts results |}.
Definition extend_fully_paid_debts xs (results : ApportionmentResult) :=
  {| fully_used_payments := fully_used_payments results;
     fully_paid_debts := fully_paid_debts results ++ xs;
     remaining_payments := remaining_payments results;
     remaining_debts := remaining_debts results |}.
Definition extend_remaining_payments xs (results : ApportionmentResult) :=
  {| fully_used_payments := fully_used_payments results;
     fully_paid_debts := fully_paid_debts results;
     remaining_payments := remaining_payments results ++ xs;
     remaining_debts := remaining_debts results |}.
Definition extend_remaining_debts xs (results : ApportionmentResult) :=
  {| fully_used_payments := fully_used_payments results;
     fully_paid_debts := fully_paid_debts results;
     remaining_payments := remaining_payments results;
     remaining_debts := remaining_debts results ++ xs |}.

Definition no_results : ApportionmentResult :=
  {| fully_used_payments := []; fully_paid_debts := [];
     remaining_payments := []; remaining_debts := [] |}.

(** The loop variables of the generic phase come in pairs that are always
    assigned together: [payment] with [credit_remaining], [debt] with
    [debt_remaining].  [NoneYet] is the initial [payment = debt = None],
    [credit_remaining = debt_remaining = 0]. *)
Inductive InHand (X : Type) :=
| NoneYet
| Current (x : X) (remaining : Z).
Arguments NoneYet {X}.
Arguments Current {X} x remaining.

(** How one of the two inner [while] loops ends: [next] raised
    [StopIteration], or the loop condition became false. *)
Inductive Advance (X : Type) :=
| StopIteration (results : ApportionmentResult)
| Found (x : X) (remaining : Z) (iterator : list X)
        (results : ApportionmentResult).
Arguments StopIteration {X} results.
Arguments Found {X} x remaining iterator results.

Section engine.
Variable split_manager : Z -> list Z.

Local Abbreviation balance := (base.balance split_manager).
Local Abbreviation credit_remaining := (base.credit_remaining split_manager).

(** [next((ix, d) for ix, d in enumerate(debt_list)
          if d.balance == amt and d.timestamp <= payment.timestamp)],
    [None] standing for [StopIteration]. *)
Fixpoint next_exact_match (amt payment_timestamp : Z) (ix : nat)
    (debt_list : list BaseDebtRecord) : option (nat * BaseDebtRecord) :=
  match debt_list with
  | [] => None
  | d :: later =>
      if (balance d =? amt) && (timestamp d <=? payment_timestamp)
      then Some (ix, d)
      else next_exact_match amt payment_timestamp (S ix) later
  end.

(** The [for payment in payment_list] loop of the exact-match phase.  It
    returns the splits it yields, then [payments_todo], [debt_list] and
    [results] as they are after the loop. *)
Fixpoint exact_match_loop (payment_list : list BasePaymentRecord)
    (debt_list : list BaseDebtRecord) (payments_todo : list BasePaymentRecord)
    (results : ApportionmentResult)
  : list Split
    * (list BasePaymentRecord * list BaseDebtRecord * ApportionmentResult) :=
  match payment_list with
  | [] => ([], (payments_todo, debt_list, results))
  | payment :: later =>
      let amt := credit_remaining payment in
      match next_exact_match amt (timestamp payment) 0 debt_list with
      | Some (index, exact_match) =>
          let debt_list := delete index debt_list in
          let results := extend_fully_used_payments [payment] results in
          let results := extend_fully_paid_debts [exact_match] results in
          let '(splits, final) :=
            exact_match_loop later debt_list payments_todo results in
          ({| split_payment := payment; split_debt := exact_match;
              amount := amt |} :: splits, final)
      | None =>
          exact_match_loop later debt_list (payments_todo ++ [payment]) results
      end
  end.

(** [while not debt_remaining: ...; debt = next(debts_iter); ...]. *)
Fixpoint look_for_unpaid_debt (debts_iter : list BaseDebtRecord)
    (debt : InHand BaseDebtRecord) (results : ApportionmentResult)
    {struct debts_iter} : Advance BaseDebtRecord :=
  let next_debt results :=
    match debts_iter with
    | [] => StopIteration results
    | d :: later => look_for_unpaid_debt later (Current d (balance d)) results
    end in
  match debt with
  | NoneYet => next_debt results
  | Current d debt_remaining =>
      if debt_remaining =? 0
      then next_debt (extend_fully_paid_debts [d] results)
      else Found d debt_remaining debts_iter results
  end.

(** [while not credit_remaining or payment.timestamp < debt.timestamp: ...;
     payment = next(payments_iter); ...]. *)
Fixpoint look_for_recent_payment (payments_iter : list BasePaymentRecord)
    (payment : InHand BasePaymentRecord) (debt : BaseDebtRecord)
    (results : ApportionmentResult)
    {struct payments_iter} : Advance BasePaymentRecord :=
  let next_payment results :=
    match payments_iter with
    | [] => StopIteration results
    | p :: later =>
        look_for_recent_payment later (Current p (credit_remaining p))
          debt results
    end in
  match payment with
  | NoneYet => next_payment results
  | Current p credit_left =>
      if (credit_left =? 0) || (timestamp p <? timestamp debt)
      then next_payment
             (if credit_left =? 0
              then extend_fully_used_payments [p] results
              else extend_remaining_payments [p] results)
      else Found p credit_left payments_iter results
  end.

(** The [while True] loop of the generic phase, one iteration per unit of
    [fuel]; [None] when the fuel runs out before a [break]. *)
Fixpoint greedy_loop (fuel : nat) (payments_iter : list BasePaymentRecord)
    (debts_iter : list BaseDebtRecord) (payment : InHand BasePaymentRecord)
    (debt : InHand BaseDebtRecord) (results : ApportionmentResult)
  : option (list Split * ApportionmentResult) :=
  match fuel with
  | O => None
  | S fuel =>
      match look_for_unpaid_debt debts_iter debt results with
      | StopIteration results =>
          (* all debts fully paid back, bail *)
          Some ([], match payment with
                    | Current p credit_left =>
                        if credit_left =? 0 then results
                        else extend_remaining_payments [p] results
                    | NoneYet => results
                    end)
      | Found d debt_remaining debts_iter results =>
          match look_for_recent_payment payments_iter payment d results with
          | StopIteration results =>
              (* no money left to pay stuff, bail *)
              Some ([], if debt_remaining =? 0 then results
                        else extend_remaining_debts [d] results)
          | Found p credit_left payments_iter results =>
              let amt := Z.min debt_remaining credit_left in
              let credit_left := credit_left - amt in
              let debt_remaining := debt_remaining - amt in
              match greedy_loop fuel payments_iter debts_iter
                      (Current p credit_left) (Current d debt_remaining)
                      results with
              | Some (splits, results) =>
                  Some ({| split_payment := p; split_debt := d;
                           amount := amt |} :: splits, results)
              | None => None
              end
          end
      end
  end.

(** Every iteration that yields a split either takes an item from one of
    the two iterators or starts with both remainders non-zero and ends with
    one of them zero: twice the number of items, plus one, bounds the number
    of iterations (see [greedy_loop_returns]). *)
Definition iterations (payments_iter : list BasePaymentRecord)
    (debts_iter : list BaseDebtRecord) : nat :=
  S (2 * (length payments_iter + length debts_iter)).

(** The generator [make_payment_splits]: the splits it yields, in order, and
    the [ApportionmentResult] it returns. *)
Definition make_payment_splits (payments : list BasePaymentRecord)
    (debts : list BaseDebtRecord)
    (prioritise_exact_amount_match exact_amount_match_only : bool)
  : option (list Split * ApportionmentResult) :=
  let '(exact_splits, (payments_iter, debts_iter, results)) :=
    if prioritise_exact_amount_match || exact_amount_match_only
    then exact_match_loop payments debts [] no_results
    else ([], (payments, debts, no_results)) in
  if exact_amount_match_only
  then
    let results := extend_remaining_debts debts_iter results in
    let results := extend_remaining_payments payments_iter results in
    Some (exact_splits, results)
  else
    match greedy_loop (iterations payments_iter debts_iter)
            payments_iter debts_iter NoneYet NoneYet results with
    | Some (splits, results) => Some (exact_splits ++ splits, results)
    | None => None
    end.

End engine.

(** [InternalPaymentSplit.clean] (models/accounting/internal.py), its
    chronology check: [payment.timestamp < debt.timestamp] is refused. *)
Definition applied_to_future_debt (s : Split) : bool :=
  timestamp (split_payment s) <? timestamp (split_debt s).

End bulk_utils.

(** ** Quantities and relations in which the engine's properties are stated *)
Module apportionment.
Import base bulk_utils.

(** [credit_remaining] or [debt_remaining] as the loop variables hold it,
    and the item that is in hand, if any. *)
Definition remaining_of {X} (h : InHand X) : Z :=
  match h with NoneYet => 0 | Current _ r => r end.
Definition in_hand {X} (h : InHand X) : list X :=
  match h with NoneYet => [] | Current x _ => [x] end.

(** Termination measure of the generic loop: 1 when a split can be made
    without taking a new item, on top of twice the number of items left. *)
Definition both_nonzero (payment : InHand BasePaymentRecord)
    (debt : InHand BaseDebtRecord) : nat :=
  if (remaining_of payment =? 0) || (remaining_of debt =? 0) then 0%nat
  else 1%nat.

(** Section 3, a split is not applied retroactively:
    [split.payment.timestamp >= split.debt.timestamp]. *)
Definition chronological (s : Split) : Prop :=
  timestamp (split_debt s) <= timestamp (split_payment s).

(** The sums of section 8, property 1. *)
Definition total_split (ss : list Split) : Z :=
  sum_amounts (amount <$> ss).
Definition total_payments (ps : list BasePaymentRecord) : Z :=
  sum_amounts ((fun p : BasePaymentRecord => total_amount p) <$> ps).
Definition total_debts (ds : list BaseDebtRecord) : Z :=
  sum_amounts ((fun d : BaseDebtRecord => total_amount d) <$> ds).

(** The payments and the debts that a result reports, in either list. *)
Definition reported_payments (results : ApportionmentResult)
  : list BasePaymentRecord :=
  fully_used_payments results ++ remaining_payments results.
Definition reported_debts (results : ApportionmentResult)
  : list BaseDebtRecord :=
  fully_paid_debts results ++ remaining_debts results.

(** The result lists only ever grow at their end. *)
Definition grows (before after : ApportionmentResult) : Prop :=
  fully_used_payments before `prefix_of` fully_used_payments after /\
  fully_paid_debts before `prefix_of` fully_paid_debts after /\
  remaining_payments before `prefix_of` remaining_payments after /\
  remaining_debts before `prefix_of` remaining_debts after.

Section measures.
Variable split_manager : Z -> list Z.

Local Abbreviation balance := (base.balance split_manager).
Local Abbreviation credit_remaining := (base.credit_remaining split_manager).

(** What is still owed on debts, and what is still available on payments. *)
Definition total_balance (ds : list BaseDebtRecord) : Z :=
  sum_amounts (balance <$> ds).
Definition total_credit (ps : list BasePaymentRecord) : Z :=
  sum_amounts (credit_remaining <$> ps).

(** Section 4.6, phase 1, in the specification's words: the debt [d] is an
    exact match for the payment when its balance is the payment's credit
    and it is not dated later than the payment. *)
Definition exact_match_for (payment : BasePaymentRecord)
    (d : BaseDebtRecord) : Prop :=
  balance d = credit_remaining payment /\ timestamp d <= timestamp payment.

(** [exact_match_phase payments candidates splits used settled deferred rest]:
    going through [payments] in order with the candidate debts
    [candidates], the phase emits [splits], marks the payments [used] as
    fully used and the debts [settled] as fully paid, defers the payments
    [deferred] to the second phase and leaves the candidates [rest].  A
    payment is paired with the first exact match among the candidates, by
    one split for its whole credit, and that debt leaves the candidates; a
    payment without exact match is deferred. *)
Inductive exact_match_phase :
  list BasePaymentRecord -> list BaseDebtRecord ->
  list Split -> list BasePaymentRecord -> list BaseDebtRecord ->
  list BasePaymentRecord -> list BaseDebtRecord -> Prop :=
| phase_done candidates :
    exact_match_phase [] candidates [] [] [] [] candidates
| phase_pair p ps before d after splits used settled deferred rest :
    Forall (fun d' => ~ exact_match_for p d') before ->
    exact_match_for p d ->
    exact_match_phase ps (before ++ after) splits used settled deferred rest ->
    exact_match_phase (p :: ps) (before ++ d :: after)
      ({| split_payment := p; split_debt := d;
          amount := credit_remaining p |} :: splits)
      (p :: used) (d :: settled) deferred rest
| phase_defer p ps candidates splits used settled deferred rest :
    Forall (fun d' => ~ exact_match_for p d') candidates ->
    exact_match_phase ps candidates splits used settled deferred rest ->
    exact_match_phase (p :: ps) candidates splits used settled
      (p :: deferred) rest.

End measures.

End apportionment.

(** ** models/accounting/internal.py and the duplicate checker of base.py *)
Module internal.
Import base.

(** [InternalPayment]: a payment record with the two columns that
    [dupcheck_signature_fields = ('nature', 'member')] names. *)
Record InternalPayment := {
  payment_record :> BasePaymentRecord;
  nature : Z;
  member_id : Z
}.

(** [(date, amt) + tuple(getattr(self, field) for field in sig_fields)]. *)
Abbreviation Signature := (Z * Z * list Z)%type.

Section settings.
(** [django.utils.timezone.localdate], and the helper [_dt_fallback] of
    [lukweb.payments] that turns a date bound into a timestamp: both are
    parameters. *)
Variable localdate : Z -> Z.
Variable _dt_fallback : Z -> Z.

(** [DuplicationProtectionMixin.dupcheck_signature]. *)
Definition dupcheck_signature (self : InternalPayment) : Signature :=
  let date := localdate (timestamp self) in
  let amt := total_amount self in
  (date, amt, [nature self; member_id self]).

(** [historical_buckets[sig]] on a [defaultdict(int)]. *)
Definition occurrences (buckets : gmap Signature nat) (sig : Signature) : nat :=
  default 0%nat (buckets !! sig).

(** [DuplicationProtectedQuerySet.dupcheck_buckets], on the stored payments
    [self]. *)
Definition dupcheck_buckets (self : list InternalPayment)
    (date_bounds : option (Z * Z)) : gmap Signature nat :=
  let qs :=
    match date_bounds with
    | Some (lower, upper) =>
        let min_date := _dt_fallback lower in
        let max_date := _dt_fallback upper in
        filter (fun entry : InternalPayment =>
                  min_date <= timestamp entry /\ timestamp entry <= max_date)
          self
    | None => self
    end in
  foldl (fun historical_buckets entry =>
           let sig := dupcheck_signature entry in
           <[sig := S (occurrences historical_buckets sig)]> historical_buckets)
    ∅ qs.

End settings.

End internal.

(** ** forms/accounting/bulk_utils.py: preparators *)
Module preparator.
Import base internal.

(** [BankCSVParser.TransactionInfo], with the fields of the classes it
    extends. *)
Record TransactionInfo := {
  line_no : Z;
  amount : Z;
  timestamp : Z;
  nature : Z;
  ogm : string
}.

(** A row that went through [valid_transactions]: [validate_global] "can
    assume that all transactions have the ledger_entry property set". *)
Record ValidTransaction := {
  transaction :> TransactionInfo;
  ledger_entry : InternalPayment
}.

(** Message templates of the preparators; [msg % params] keeps the template
    and the parameter dictionary. *)
Inductive Template :=
| negative_amount_message
| single_dup_message
| multiple_dup_message.

Record Message := Format {
  template : Template;
  params : gmap string Z
}.

Abbreviation Error := (list Z * Message)%type.

Definition sorted (line_nos : list Z) : list Z := merge_sort Z.le line_nos.

(** [LedgerEntryPreparator.error_at_lines]: [self._errors.insert(0, ...)]. *)
Definition error_at_lines (line_nos : list Z) (msg : Template)
    (params : gmap string Z) (_errors : list Error) : list Error :=
  (sorted line_nos, Format msg params) :: _errors.

Definition error_at_line (line_no : Z) (msg : Template)
    (params : gmap string Z) (_errors : list Error) : list Error :=
  error_at_lines [line_no] msg params _errors.

(** [DuplicationProtectedPreparator.dup_error_params]. *)
Definition dup_error_params (signature_used : Signature) : gmap string Z :=
  {[ "date" := signature_used.1.1; "amount" := signature_used.1.2 ]}.

(** [import_buckets[sig].append(transaction)] on a [defaultdict(list)],
    which iterates in the order in which its keys were first used. *)
Fixpoint bucket_append (sig : Signature) (t : ValidTransaction)
    (import_buckets : list (Signature * list ValidTransaction))
  : list (Signature * list ValidTransaction) :=
  match import_buckets with
  | [] => [(sig, [t])]
  | (key, transactions) :: later =>
      if decide (key = sig) then (key, transactions ++ [t]) :: later
      else (key, transactions) :: bucket_append sig t later
  end.

Section settings.
Variable localdate : Z -> Z.
Variable _dt_fallback : Z -> Z.

Local Abbreviation dupcheck_signature := (internal.dupcheck_signature localdate).
Local Abbreviation dupcheck_buckets :=
  (internal.dupcheck_buckets localdate _dt_fallback).

(** The body of [if occ_in_hist:] in [strip_duplicates]: "signal duplicate
    with an error message". *)
Definition signal_duplicate (dup_sig : Signature) (occ_in_hist : nat)
    (transactions : list ValidTransaction) (_errors : list Error)
  : list Error :=
  let occ_in_import := length transactions in
  let dupcount := Nat.min occ_in_hist occ_in_import in
  let params := dup_error_params dup_sig in
  let params := <["hist" := Z.of_nat occ_in_hist]> params in
  let params := <["import" := Z.of_nat occ_in_import]> params in
  let params := <["dupcount" := Z.of_nat dupcount]> params in
  let msg_fmt_str :=
    if decide (occ_in_hist = 1%nat /\ occ_in_import = 1%nat)
    then single_dup_message else multiple_dup_message in
  error_at_lines ((fun t : ValidTransaction => line_no t) <$> transactions)
    msg_fmt_str params _errors.

(** The generator [strip_duplicates], with the error list threaded
    through. *)
Fixpoint strip_duplicates (historical_buckets : gmap Signature nat)
    (import_buckets : list (Signature * list ValidTransaction))
    (_errors : list Error) : list ValidTransaction * list Error :=
  match import_buckets with
  | [] => ([], _errors)
  | (dup_sig, transactions) :: later =>
      let occ_in_import := length transactions in
      let occ_in_hist := occurrences historical_buckets dup_sig in
      let dupcount := Nat.min occ_in_hist occ_in_import in
      let _errors :=
        if decide (occ_in_hist = 0%nat) then _errors
        else signal_duplicate dup_sig occ_in_hist transactions _errors in
      let '(yielded, _errors) :=
        strip_duplicates historical_buckets later _errors in
      (drop dupcount transactions ++ yielded, _errors)
  end.

Definition import_buckets_of (valid_transactions : list ValidTransaction)
  : list (Signature * list ValidTransaction) :=
  foldl (fun import_buckets t =>
           bucket_append (dupcheck_signature (ledger_entry t)) t import_buckets)
    [] valid_transactions.

(** [(min(dates), max(dates))] of a batch that is not empty. *)
Definition date_bounds (first : ValidTransaction)
    (others : list ValidTransaction) : Z * Z :=
  let dates := (fun t : ValidTransaction => localdate (timestamp t))
                 <$> others in
  (foldl Z.min (localdate (timestamp first)) dates,
   foldl Z.max (localdate (timestamp first)) dates).

(** [DuplicationProtectedPreparator.validate_global]; [history] is what the
    model's default manager holds. *)
Definition validate_global (history : list InternalPayment)
    (valid_transactions : list ValidTransaction) (_errors : list Error)
  : list ValidTransaction * list Error :=
  match valid_transactions with
  | [] => ([], _errors)
  | first :: others =>
      let historical_buckets :=
        dupcheck_buckets history (Some (date_bounds first others)) in
      strip_duplicates historical_buckets
        (import_buckets_of valid_transactions) _errors
  end.

End settings.

End preparator.

(** ** The duplicate detector in the specification's words (section 4.5) *)
Module dedup.
Import base internal preparator.

Section settings.
Variable localdate : Z -> Z.
Variable _dt_fallback : Z -> Z.

Definition signature_of (t : ValidTransaction) : Signature :=
  dupcheck_signature localdate (ledger_entry t).

(** [B[sig]]: the rows of the batch with that signature, in batch order. *)
Definition batch_bucket (sig : Signature) (batch : list ValidTransaction)
  : list ValidTransaction :=
  filter (fun t => signature_of t = sig) batch.

(** The stored payments within the date bounds of the batch. *)
Definition consulted (history : list InternalPayment)
    (batch : list ValidTransaction) : list InternalPayment :=
  match batch with
  | [] => []
  | first :: others =>
      let bounds := date_bounds localdate first others in
      filter (fun entry : InternalPayment =>
                _dt_fallback bounds.1 <= base.timestamp entry /\
                base.timestamp entry <= _dt_fallback bounds.2) history
  end.

(** [H[sig]]: how often the signature occurs among them. *)
Definition occ_hist (history : list InternalPayment)
    (batch : list ValidTransaction) (sig : Signature) : nat :=
  length (filter (fun entry => dupcheck_signature localdate entry = sig)
            (consulted history batch)).

Definition occ_import (batch : list ValidTransaction) (sig : Signature) : nat :=
  length (batch_bucket sig batch).

Definition dupcount (history : list InternalPayment)
    (batch : list ValidTransaction) (sig : Signature) : nat :=
  Nat.min (occ_hist history batch sig) (occ_import batch sig).

(** The rows of a signature that pass through. *)
Definition passed (history : list InternalPayment)
    (batch : list ValidTransaction) (sig : Signature)
  : list ValidTransaction :=
  drop (dupcount history batch sig) (batch_bucket sig batch).

(** The error reported for a signature that history knows. *)
Definition reported (history : list InternalPayment)
    (batch : list ValidTransaction) (sig : Signature) : Error :=
  (sorted ((fun t : ValidTransaction => line_no t) <$> batch_bucket sig batch),
   Format
     (if decide (occ_hist history batch sig = 1%nat /\
                 occ_import batch sig = 1%nat)
      then single_dup_message else multiple_dup_message)
     (<["dupcount" := Z.of_nat (dupcount history batch sig)]>
        (<["import" := Z.of_nat (occ_import batch sig)]>
           (<["hist" := Z.of_nat (occ_hist history batch sig)]>
              {[ "date" := sig.1.1; "amount" := sig.1.2 ]})))).

(** The batch grouped under the signatures [keys]. *)
Definition grouped (keys : list Signature) (batch : list ValidTransaction)
  : list (Signature * list ValidTransaction) :=
  (fun sig => (sig, batch_bucket sig batch)) <$> keys.

End settings.

End dedup.

(** ** models/accounting/complex_pricing.py *)
Module complex_pricing.

(** An [ActivityOption] with the attributes that [__eq__] and
    [__contains__] read; [parent] is [None] for a root. *)
#[local] Unset Elimination Schemes.
Inductive ActivityOption : Type :=
| MkActivityOption (slug : string) (parent : option ActivityOption)
                   (bound : bool) (act_pk : option Z).
#[local] Set Elimination Schemes.

Definition slug (self : ActivityOption) : string :=
  match self with MkActivityOption s _ _ _ => s end.
Definition parent (self : ActivityOption) : option ActivityOption :=
  match self with MkActivityOption _ p _ _ => p end.
Definition bound (self : ActivityOption) : bool :=
  match self with MkActivityOption _ _ b _ => b end.
Definition act_pk (self : ActivityOption) : option Z :=
  match self with MkActivityOption _ _ _ k => k end.

(** [ActivityOption.__eq__]: attribute by attribute, parents compared with
    [==] in turn ([None == None] holds, [None] equals no option). *)
Fixpoint option_eq (self other : ActivityOption) : bool :=
  match self, other with
  | MkActivityOption slug1 parent1 bound1 act_pk1,
    MkActivityOption slug2 parent2 bound2 act_pk2 =>
      bool_decide (bound1 = bound2) && bool_decide (act_pk1 = act_pk2)
      && bool_decide (slug1 = slug2)
      && match parent1, parent2 with
         | Some p1, Some p2 => option_eq p1 p2
         | None, None => true
         | _, _ => false
         end
  end.

(** [ActivityOption.__contains__]:
    [self == item.parent or item.parent in self], where [None in self] is
    [False]. *)
Fixpoint contains (self item : ActivityOption) {struct item} : bool :=
  match item with
  | MkActivityOption _ None _ _ => false
  | MkActivityOption _ (Some item_parent) _ _ =>
      option_eq self item_parent || contains self item_parent
  end.

Record PricingData := {
  price : Z;
  comment : string;
  filter_slug : option string
}.

(** The fields of a [PricingRule] that [opts_match] reads, and
    [_matching_rules], [None] until the specification has been parsed. *)
Record PricingRule := {
  description : string;
  default_filter_slug : option string;
  no_match_default : Z;
  specification : string;
  count_multiple : bool;
  _matching_rules : option (list (list ActivityOption * PricingData))
}.

(** [any(opt in criterium for opt in opts)]. *)
Definition is_matched (opts : list ActivityOption)
    (criterium : ActivityOption) : bool :=
  existsb (fun opt => contains criterium opt) opts.

(** The [for criteria, pricing_data in self._matching_rules] loop; [None]
    when it falls through. *)
Fixpoint first_matching_rule (opts : list ActivityOption)
    (rules : list (list ActivityOption * PricingData)) : option PricingData :=
  match rules with
  | [] => None
  | (criteria, pricing_data) :: later =>
      if forallb (is_matched opts) criteria then Some pricing_data
      else first_matching_rule opts later
  end.

Definition opts_match (self : PricingRule) (opts : list ActivityOption)
  : Outcome PricingData :=
  match _matching_rules self with
  | None => Raised ValueError
  | Some rules =>
      match first_matching_rule opts rules with
      | Some pricing_data => Returned pricing_data
      | None =>
          Returned {| price := no_match_default self;
                      comment := description self;
                      filter_slug := default_filter_slug self |}
      end
  end.

(** *** The matcher in the specification's words (section 4.7) *)

(** [y] is an ancestor of [x]: [y] is the parent of [x], or an ancestor of
    that parent. *)
Inductive ancestor_of (y : ActivityOption) : ActivityOption -> Prop :=
| ancestor_parent x : parent x = Some y -> ancestor_of y x
| ancestor_further x p : parent x = Some p -> ancestor_of y p -> ancestor_of y x.

(** A case matches iff every criterion contains at least one held option. *)
Definition case_matches (held : list ActivityOption)
    (criteria : list ActivityOption) : Prop :=
  Forall (fun criterium => Exists (fun opt => ancestor_of criterium opt) held)
    criteria.

Definition default_pricing (self : PricingRule) : PricingData :=
  {| price := no_match_default self; comment := description self;
     filter_slug := default_filter_slug self |}.

End complex_pricing.

(** ** forms/accounting/transfers.py *)
Module transfers.
Import preparator.

(** A [ChoirMember] as far as the preparator reads it. *)
Record ChoirMember := {
  member_pk : Z;
  payment_tracking_no : string
}.

(** The keyword arguments handed to the model constructor; the two entries
    that only [DebtTransferPaymentPreparator] sets are optional. *)
Record ModelKwargs := {
  kw_total_amount : Z;
  kw_timestamp : Z;
  kw_member : option ChoirMember;
  kw_nature : option Z
}.

(** [LedgerEntryPreparator.model_kwargs_for_transaction] (bulk_utils.py). *)
Definition ledger_entry_kwargs (t : TransactionInfo) (_errors : list Error)
  : option ModelKwargs * list Error :=
  if amount t <? 0
  then (None,
        error_at_line (line_no t) negative_amount_message
          {[ "amount" := amount t ]} _errors)
  else (Some {| kw_total_amount := amount t; kw_timestamp := timestamp t;
                kw_member := None; kw_nature := None |},
        _errors).

Section payments.
(** What the preparator takes from [lukweb.payments]: [parse_ogm] ([None]
    when it raises [ValueError]), [parse_internal_debt_ogm] and two
    constants.  That module is not among the sources, so they are
    parameters here. *)
Variable parse_ogm : string -> option (Z * Z).
Variable parse_internal_debt_ogm : string -> Outcome Z.
Variable OGM_INTERNAL_DEBT_PREFIX : string.
Variable PAYMENT_NATURE_TRANSFER : Z.

(** [TransferRecordPreparator.ogm_applies]:
    [self.prefix_digit == str(prefix)[0]]; [str] of an integer is never
    empty. *)
Definition ogm_applies (prefix_digit : string) (ogm : string) : bool :=
  match parse_ogm ogm with
  | Some (prefix, modulus) =>
      match pretty prefix with
      | String first _ => bool_decide (prefix_digit = String first EmptyString)
      | EmptyString => false
      end
  | None => false
  end.

(** [TransferRecordPreparator.model_kwargs_for_transaction]. *)
Definition transfer_kwargs (prefix_digit : string) (t : TransactionInfo)
    (_errors : list Error) : option ModelKwargs * list Error :=
  if negb (ogm_applies prefix_digit (ogm t)) then (None, _errors)
  else ledger_entry_kwargs t _errors.

(** [DebtTransferPaymentPreparator.model_kwargs_for_transaction]. *)
Definition model_kwargs_for_transaction (_members_by_id : gmap Z ChoirMember)
    (t : TransactionInfo) (_errors : list Error)
  : Outcome (option ModelKwargs) * list Error :=
  let '(kwargs, _errors) :=
    transfer_kwargs OGM_INTERNAL_DEBT_PREFIX t _errors in
  match kwargs with
  | None => (Returned None, _errors)
  | Some kwargs =>
      match parse_internal_debt_ogm (ogm t) with
      | Raised e => (Raised e, _errors)
      | Returned pk =>
          match _members_by_id !! pk with
          | None => (Raised KeyError, _errors)
          | Some member =>
              if negb (bool_decide (ogm t = payment_tracking_no member))
              then (Returned None, _errors)
              else (Returned
                      (Some {| kw_total_amount := kw_total_amount kwargs;
                               kw_timestamp := kw_timestamp kwargs;
                               kw_member := Some member;
                               kw_nature := Some PAYMENT_NATURE_TRANSFER |}),
                    _errors)
          end
      end
  end.

End payments.

End transfers.

(** ** The structured reference codec *)
Module ogm_codec.

(** Modelled from the spec: the separators that [parse_ogm] of
    [lukweb.payments] strips; that module is not among the sources
    (section 4.1: "strip whitespace and [+/] separators"). *)
Definition is_separator (c : ascii) : bool :=
  bool_decide (c = "+"%char) || bool_decide (c = "/"%char)
  || bool_decide (c = " "%char) || Ascii.eqb c (Ascii.ascii_of_nat 9)
  || Ascii.eqb c (Ascii.ascii_of_nat 10) || Ascii.eqb c (Ascii.ascii_of_nat 13).

(** Modelled from the spec: the stripping step of the absent [parse_ogm]. *)
Fixpoint strip (text : string) : string :=
  match text with
  | EmptyString => EmptyString
  | String c rest => if is_separator c then strip rest else String c (strip rest)
  end.

(** Modelled from the spec: the absent [parse_ogm] accepts "only decimal
    digits"; the value of one digit, and of a string of digits. *)
Definition digit_of (c : ascii) : option Z :=
  let n := Z.of_nat (Ascii.nat_of_ascii c) in
  if (48 <=? n) && (n <=? 57) then Some (n - 48) else None.

(** Modelled from the spec: see [digit_of]. *)
Fixpoint decimal (digits : string) (value : Z) : option Z :=
  match digits with
  | EmptyString => Some value
  | String c rest =>
      match digit_of c with
      | Some d => decimal rest (10 * value + d)
      | None => None
      end
  end.

(** Modelled from the spec: the check digits of the absent codec, "modulus
    97 of the leading ten, with the special case that a remainder of 0 is
    rendered as 97" (section 3). *)
Definition checksum (prefix : Z) : Z :=
  if prefix mod 97 =? 0 then 97 else prefix mod 97.

(** Modelled from the spec: [parse_ogm] of [lukweb.payments], which is not
    among the sources (section 4.1: strip whitespace and the separators;
    accept only decimal digits totalling twelve; recompute the modulus and
    fail on mismatch; the result is the number made of the leading ten
    digits and the modulus).  [None] stands for the [ValueError]. *)
Definition parse_ogm (text : string) : option (Z * Z) :=
  let digits := strip text in
  match decimal digits 0 with
  | None => None
  | Some n =>
      if negb (Nat.eqb (String.length digits) 12) then None
      else
        let prefix := n / 100 in
        let modulus := n mod 100 in
        if modulus =? checksum prefix then Some (prefix, modulus) else None
  end.

(** Modelled from the spec: [parse_internal_debt_ogm] of [lukweb.payments],
    which is not among the sources either; it yields the nine-digit record
    identifier that follows the prefix digit (section 3). *)
Definition parse_internal_debt_ogm (text : string) : Outcome Z :=
  match parse_ogm text with
  | Some (prefix, _) => Returned (prefix mod 10 ^ 9)
  | None => Raised ValueError
  end.

End ogm_codec.

(** ** Concrete records for the scenarios of section 8 and for the examples *)
Module scenarios.
Import base bulk_utils internal preparator complex_pricing transfers.

(** A store without any split. *)
Definition no_splits : Z -> list Z := fun _ => [].

(** A payment that a preparator has just built: not saved, not annotated. *)
Definition new_payment (at_time total : Z) : BasePaymentRecord :=
  Payment {| pk := None; base.timestamp := at_time; total_amount := total;
             matched_balance_fromdb := None;
             unmatched_balance_fromdb := None |}.

(** A stored debt without splits, as [with_payments().unpaid()] returns it. *)
Definition unpaid_debt (key at_time total : Z) : BaseDebtRecord :=
  Debt {| pk := Some key; base.timestamp := at_time; total_amount := total;
          matched_balance_fromdb := Some 0;
          unmatched_balance_fromdb := Some total |}.

(** S1: payments of 50.00 and 30.00, debts of 30.00 and 50.00. *)
Definition S1_payments := [new_payment 1 5000; new_payment 2 3000].
Definition S1_debts := [unpaid_debt 1 0 3000; unpaid_debt 2 0 5000].

(** S2: a payment of 20.00 at time 1, debts of 20.00 at times 2 and 0. *)
Definition S2_payments := [new_payment 1 2000].
Definition S2_debts := [unpaid_debt 1 2 2000; unpaid_debt 2 0 2000].

(** S3: a payment of 100.00, debts of 30.00, 40.00 and 50.00. *)
Definition S3_payments := [new_payment 2 10000].
Definition S3_debts :=
  [unpaid_debt 1 0 3000; unpaid_debt 2 1 4000; unpaid_debt 3 2 5000].

(** A member who pays 10.00 and owes nothing. *)
Definition lone_payment := new_payment 1 1000.

(** A stored debt of 10.00, fetched without annotations, at which splits of
    10.00 and 5.00 point. *)
Definition overmatched_debt : BaseDebtRecord :=
  Debt {| pk := Some 7; base.timestamp := 0; total_amount := 1000;
          matched_balance_fromdb := None; unmatched_balance_fromdb := None |}.
Definition overmatching_splits : Z -> list Z :=
  fun key => if key =? 7 then [1000; 500] else [].

(** Days of 86400 seconds, date bounds taken at midnight. *)
Definition localdate (at_time : Z) : Z := at_time / 86400.
Definition _dt_fallback (date : Z) : Z := date * 86400.

Definition transfer_payment (at_time total member : Z) : InternalPayment :=
  {| payment_record := new_payment at_time total;
     internal.nature := 2; member_id := member |}.

Definition transfer_row (line at_time total member : Z) : ValidTransaction :=
  {| transaction := {| line_no := line; amount := total;
                       timestamp := at_time; nature := 2; ogm := "" |};
     ledger_entry := transfer_payment at_time total member |}.

(** S5 and its variant: history holds one transfer of 10.00 by member 7;
    the batch repeats it once, or twice. *)
Definition S5_history := [transfer_payment 0 1000 7].
Definition S5_batch := [transfer_row 2 0 1000 7].
Definition repeated_batch := [transfer_row 2 0 1000 7; transfer_row 3 0 1000 7].

(** S6: the rule [[/foo, /bar/baz] -> 10] with default 5, and the held
    option [/qux]. *)
Definition root := MkActivityOption "" None false None.
Definition foo := MkActivityOption "foo" (Some root) false None.
Definition bar := MkActivityOption "bar" (Some root) false None.
Definition baz := MkActivityOption "baz" (Some bar) false None.
Definition qux := MkActivityOption "qux" (Some root) false None.
Definition S6_cases : list (list ActivityOption * PricingData) :=
  [([foo; baz], {| price := 1000; comment := "fee"; filter_slug := None |})].
Definition S6_rule : PricingRule :=
  {| description := "fee"; default_filter_slug := None;
     no_match_default := 500; specification := "[/foo, /bar/baz] -> 10";
     count_multiple := true; _matching_rules := Some S6_cases |}.

(** Member 123456 with the canonical reference of prefix digit 2, and two
    rows that carry the same reference in its display form. *)
Definition member_123456 : ChoirMember :=
  {| member_pk := 123456; payment_tracking_no := "200012345643" |}.
Definition members : gmap Z ChoirMember := {[ 123456 := member_123456 ]}.
Definition display_form_row (total : Z) : TransactionInfo :=
  {| line_no := 5; amount := total; timestamp := 0; nature := 2;
     ogm := "+++200/0123/45643+++" |}.

End scenarios.

(** ** complex_pricing.py: paths of activity options *)
Module option_paths.
Import complex_pricing.

(** [ActivityOption.path]: [''] for a root, else
    ['%s/%s' % (self.parent.path, self.slug)]. *)
Fixpoint path (self : ActivityOption) : string :=
  match self with
  | MkActivityOption _ None _ _ => ""
  | MkActivityOption slug (Some p) _ _ => path p +:+ "/" +:+ slug
  end.

(** The number of ancestors of an option. *)
Fixpoint depth (self : ActivityOption) : nat :=
  match self with
  | MkActivityOption _ None _ _ => 0
  | MkActivityOption _ (Some p) _ _ => S (depth p)
  end.

End option_paths.

(** ** models/accounting/base.py and internal.py: the querysets *)
Module querysets.
Import base.

(** A stored row of a double-book table: its primary key and columns. *)
Record Row := {
  row_pk : Z;
  row_timestamp : Z;
  row_total_amount : Z
}.

(** A stored [InternalDebtItem]: the columns that the queries below read. *)
Record DebtRow := {
  debt_row :> Row;
  debt_member_id : Z;
  filter_slug : option string
}.

(** A queryset over rows of type [R]: the rows it selects, and whether
    [FULLY_MATCHED_FIELD] is among [self.query.annotations]. *)
Record QuerySet (R : Type) := {
  rows : list R;
  annotated : bool
}.
Arguments rows {R} _.
Arguments annotated {R} _.

Section store.
Variable split_manager : Z -> list Z.
Context {R : Type} (columns : R -> Row).

(** [_split_sum_subquery]:
    [Coalesce(Subquery(<Sum('amount') of the splits joined on pk>), 0.00)]. *)
Definition _split_sum_subquery (row : R) : Z :=
  sum_amounts (split_manager (row_pk (columns row))).

(** The three annotations of [with_remote_accounts] for a row. *)
Definition matched_balance_annotation (row : R) : Z :=
  _split_sum_subquery row.
Definition unmatched_balance_annotation (row : R) : Z :=
  row_total_amount (columns row) - matched_balance_annotation row.
Definition fully_matched_annotation (row : R) : bool :=
  fully_matched_fromdb (row_total_amount (columns row))
    (matched_balance_annotation row).

(** [DoubleBookQuerySet.with_remote_accounts]. *)
Definition with_remote_accounts (self : QuerySet R) : QuerySet R :=
  if annotated self then self
  else {| rows := rows self; annotated := true |}.

(** [DoubleBookQuerySet.unmatched] and [.fully_matched]:
    [with_remote_accounts().filter(fully_matched_fromdb=...)]. *)
Definition unmatched (self : QuerySet R) : QuerySet R :=
  let qs := with_remote_accounts self in
  {| rows := filter (fun row => fully_matched_annotation row = false) (rows qs);
     annotated := annotated qs |}.
Definition fully_matched (self : QuerySet R) : QuerySet R :=
  let qs := with_remote_accounts self in
  {| rows := filter (fun row => fully_matched_annotation row = true) (rows qs);
     annotated := annotated qs |}.

(** [BaseDebtQuerySet]: "for semantic consistency". *)
Definition with_payments (self : QuerySet R) : QuerySet R :=
  with_remote_accounts self.
Definition unpaid (self : QuerySet R) : QuerySet R := unmatched self.
Definition paid (self : QuerySet R) : QuerySet R := fully_matched self.

(** The model instance that iterating the queryset builds from a row: the
    annotations are attributes of the instance when the queryset has
    them. *)
Definition instance (with_annotations : bool) (row : R) : DoubleBookModel :=
  {| pk := Some (row_pk (columns row));
     timestamp := row_timestamp (columns row);
     total_amount := row_total_amount (columns row);
     matched_balance_fromdb :=
       if with_annotations then Some (matched_balance_annotation row)
       else None;
     unmatched_balance_fromdb :=
       if with_annotations then Some (unmatched_balance_annotation row)
       else None |}.

Definition fetch (self : QuerySet R) : list DoubleBookModel :=
  instance (annotated self) <$> rows self.

End store.

(** [filter_slug__in=filter_slugs]: a row without slug is in no list. *)
Definition slug_in (slugs : list string) (row : DebtRow) : bool :=
  match filter_slug row with
  | Some slug => bool_decide (slug ∈ slugs)
  | None => false
  end.

(** The rows that [balances_by_filter_slug] keeps for [filter_slugs]:
    [if filter_slugs] is false for [None] and for an empty list. *)
Definition selects (filter_slugs : option (list string)) (row : DebtRow)
  : bool :=
  match filter_slugs with
  | None | Some [] => true
  | Some slugs => slug_in slugs row
  end.

Section debts.
Variable split_manager : Z -> list Z.

(** [IDIQuerySet.balances_by_filter_slug]: the unpaid debts, restricted to
    [filter_slugs] when that is a non-empty list, grouped by filter slug
    with [Sum] of the unmatched balance; the dictionary keeps a group
    [if not skip_zeroes or v]. *)
Definition balances_by_filter_slug (self : QuerySet DebtRow)
    (filter_slugs : option (list string)) (skip_zeroes : bool)
  : gmap (option string) Z :=
  let qs := rows (unpaid split_manager debt_row (with_payments self)) in
  let qs :=
    match filter_slugs with
    | None | Some [] => qs
    | Some slugs =>
        filter (fun row => slug_in slugs row = true) qs
    end in
  let groups :=
    foldl (fun groups (row : DebtRow) =>
             <[filter_slug row :=
                 default 0 (groups !! filter_slug row)
                 + unmatched_balance_annotation split_manager debt_row row]>
               groups) ∅ qs in
  filter (fun entry : option string * Z =>
            skip_zeroes = false \/ entry.2 <> 0) groups.

(** Lookup in the [defaultdict(lambda: zero_money, ...)] it returns. *)
Definition balance_of (balances : gmap (option string) Z)
    (slug : option string) : Z :=
  default 0 (balances !! slug).

End debts.

End querysets.

(** ** What the emitted splits draw on each payment and pay on each debt *)
Module allocation.
Import base bulk_utils.

#[global] Instance DoubleBookModel_eq_dec : EqDecision DoubleBookModel.
Proof. solve_decision. Defined.
#[global] Instance BaseDebtRecord_eq_dec : EqDecision BaseDebtRecord.
Proof. solve_decision. Defined.
#[global] Instance BasePaymentRecord_eq_dec : EqDecision BasePaymentRecord.
Proof. solve_decision. Defined.

(** The sum of the splits whose [payment] is [p], and of those whose [debt]
    is [d]. *)
Definition paid_from (p : BasePaymentRecord) (splits : list Split) : Z :=
  sum_amounts (amount <$> filter (fun s => split_payment s = p) splits).
Definition paid_to (d : BaseDebtRecord) (splits : list Split) : Z :=
  sum_amounts (amount <$> filter (fun s => split_debt s = d) splits).

(** How often an item occurs in an input list. *)
Definition occurrences_of {X} `{EqDecision X} (x : X) (l : list X) : Z :=
  Z.of_nat (length (filter (fun y => y = x) l)).

(** What the loop variables still hold for the item [x]. *)
Definition held {X} `{EqDecision X} (x : X) (h : InHand X) : Z :=
  match h with
  | Current y remaining => if decide (y = x) then remaining else 0
  | NoneYet => 0
  end.

(** What is still available of the item [x]: what the loop variables hold
    for it, and its worth if the iterator has yet to reach it. *)
Definition available {X} `{EqDecision X} (worth : X -> Z) (x : X)
    (h : InHand X) (iterator : list X) : Z :=
  held x h + occurrences_of x iterator * worth x.

(** The item in hand as long as something of it remains: the inner loops
    replace an item whose remainder is zero before the next split. *)
Definition live {X} (h : InHand X) : list X :=
  match h with
  | Current x remaining => if remaining =? 0 then [] else [x]
  | NoneYet => []
  end.

(** The pair that [unique_together = ('payment', 'debt')] of
    [InternalPaymentSplit] constrains (models/accounting/internal.py). *)
Definition payment_and_debt (s : Split)
  : BasePaymentRecord * BaseDebtRecord :=
  (split_payment s, split_debt s).

End allocation.

(** ** forms/accounting/transfers.py: [DebtTransferPaymentPreparator] from
    the rows of a batch to its valid transactions *)
Module debt_transfers.
Import base bulk_utils internal preparator transfers querysets.

(** The conversion specifiers of the preparator's message templates:
    ['Payment amount %(amount)s is negative.'] of [LedgerEntryPreparator],
    and [single_dup_message] and [multiple_dup_message] of
    [DebtTransferPaymentPreparator]. *)
Definition placeholders (msg : Template) : list string :=
  match msg with
  | negative_amount_message => ["amount"]
  | single_dup_message => ["member"; "amount"; "date"]
  | multiple_dup_message =>
      ["member"; "amount"; "date"; "hist"; "import"; "dupcount"]
  end.

(** [msg % params]: a specifier whose key the dictionary lacks raises
    [KeyError]; keys without specifier are ignored. *)
Definition format (msg : Template) (params : gmap string Z)
  : Outcome Message :=
  if forallb (fun key => bool_decide (is_Some (params !! key)))
       (placeholders msg)
  then Returned (Format msg params)
  else Raised KeyError.

(** [LedgerEntryPreparator.error_at_lines], the formatting included:
    [fmtd_msg = msg % params] comes before the insertion. *)
Definition error_at_lines (line_nos : list Z) (msg : Template)
    (params : gmap string Z) (_errors : list Error) : Outcome (list Error) :=
  match format msg params with
  | Returned fmtd_msg => Returned ((sorted line_nos, fmtd_msg) :: _errors)
  | Raised e => Raised e
  end.

(** [self.model] called with the keyword arguments: an [InternalPayment]
    that is not saved and
    carries no annotation.  [model_kwargs_for_transaction] of this
    preparator always names the member and the nature (see
    [kwargs_name_member]); the defaults stand for keyword arguments that it
    never passes. *)
Definition model (kwargs : ModelKwargs) : InternalPayment :=
  {| payment_record :=
       Payment {| pk := None; base.timestamp := kw_timestamp kwargs;
                  total_amount := kw_total_amount kwargs;
                  matched_balance_fromdb := None;
                  unmatched_balance_fromdb := None |};
     internal.nature := default 0 (kw_nature kwargs);
     member_id := from_option member_pk 0 (kw_member kwargs) |}.

(** [trans_buckets[key].append(x)] on a [defaultdict(list)], which is
    iterated in the order in which its keys were first used. *)
Fixpoint bucket_add {A} (key : Z) (x : A) (buckets : list (Z * list A))
  : list (Z * list A) :=
  match buckets with
  | [] => [(key, [x])]
  | (k, xs) :: later =>
      if decide (k = key) then (k, xs ++ [x]) :: later
      else (k, xs) :: bucket_add key x later
  end.

(** [sorted(..., key=lambda p: p.timestamp)]: the sort is stable, payments
    of equal timestamp keep their order. *)
Fixpoint insert_by_timestamp (p : InternalPayment) (l : list InternalPayment)
  : list InternalPayment :=
  match l with
  | [] => [p]
  | q :: later =>
      if base.timestamp q <? base.timestamp p
      then q :: insert_by_timestamp p later
      else p :: q :: later
  end.
Definition sorted_by_timestamp (l : list InternalPayment)
  : list InternalPayment :=
  foldr insert_by_timestamp [] l.

(** An entry of [_errors]: what validation has recorded, or
    [overpayment_fmt_string % overpayment_error_params(...)] with its line
    numbers; the member stands for [str(member)]. *)
Inductive Report :=
| recorded (error : Error)
| overpayment (line_nos : list Z) (member : ChoirMember)
              (total_used total_credit : Z).

Section preparator.
(** [lukweb.payments], the settings of the duplicate checker, and the
    database: the members that [by_payment_tracking_nos] finds for a list
    of references, the stored splits, the table of [InternalDebtItem] with
    [order_by('timestamp')], and the stored payments. *)
Variable parse_ogm : string -> option (Z * Z).
Variable parse_internal_debt_ogm : string -> Outcome Z.
Variable OGM_INTERNAL_DEBT_PREFIX : string.
Variable PAYMENT_NATURE_TRANSFER : Z.
Variable localdate : Z -> Z.
Variable _dt_fallback : Z -> Z.
Variable by_payment_tracking_nos : list string -> list ChoirMember.
Variable split_manager : Z -> list Z.
Variable debt_table : QuerySet DebtRow.
Variable order_by_timestamp : list DebtRow -> list DebtRow.
Variable history : list InternalPayment.

Local Abbreviation ogm_applies := (transfers.ogm_applies parse_ogm).
Local Abbreviation model_kwargs_for_transaction :=
  (transfers.model_kwargs_for_transaction parse_ogm parse_internal_debt_ogm
     OGM_INTERNAL_DEBT_PREFIX PAYMENT_NATURE_TRANSFER).

(** [DebtTransferPaymentPreparator.prepare]: the references to query, and
    [{member.pk: member for member in member_qs}]. *)
Definition ogms_to_query (transactions : list TransactionInfo) : list string :=
  ogm <$> filter (fun t => ogm_applies OGM_INTERNAL_DEBT_PREFIX (ogm t) = true)
            transactions.
Definition prepare (transactions : list TransactionInfo)
  : gmap Z ChoirMember :=
  foldl (fun _members_by_id member => <[member_pk member := member]>
                                        _members_by_id)
    ∅ (by_payment_tracking_nos (ogms_to_query transactions)).

(** The rows for which [valid(t)] is true: the reference is of the
    preparator's class, the amount is not negative, and the reference is
    that of the member it points at, character for character. *)
Definition accepted (_members_by_id : gmap Z ChoirMember)
    (t : TransactionInfo) : bool :=
  ogm_applies OGM_INTERNAL_DEBT_PREFIX (ogm t) && (0 <=? amount t)
  && match parse_internal_debt_ogm (ogm t) with
     | Returned pk =>
         match _members_by_id !! pk with
         | Some member => bool_decide (ogm t = payment_tracking_no member)
         | None => false
         end
     | Raised _ => false
     end.

(** [[t for t in self.transactions if valid(t)]] of
    [LedgerEntryPreparator.valid_transactions]; an exception of
    [model_kwargs_for_transaction] ends the comprehension. *)
Fixpoint indiv_transactions (_members_by_id : gmap Z ChoirMember)
    (transactions : list TransactionInfo) (_errors : list Error)
  : Outcome (list ValidTransaction * list Error) :=
  match transactions with
  | [] => Returned ([], _errors)
  | t :: later =>
      match model_kwargs_for_transaction _members_by_id t _errors with
      | (Raised e, _) => Raised e
      | (Returned kwargs, _errors) =>
          match indiv_transactions _members_by_id later _errors with
          | Raised e => Raised e
          | Returned (valid, _errors) =>
              Returned
                (match kwargs with
                 | Some kwargs =>
                     {| transaction := t; ledger_entry := model kwargs |}
                     :: valid
                 | None => valid
                 end, _errors)
          end
      end
  end.

(** [DuplicationProtectedPreparator.validate_global] as this preparator
    runs it: [dup_error_params] is not overridden, and the message is
    formatted when the duplicate is signalled. *)
Definition signal_duplicate (dup_sig : Signature) (occ_in_hist : nat)
    (transactions : list ValidTransaction) (_errors : list Error)
  : Outcome (list Error) :=
  let occ_in_import := length transactions in
  let dupcount := Nat.min occ_in_hist occ_in_import in
  let params := dup_error_params dup_sig in
  let params := <["hist" := Z.of_nat occ_in_hist]> params in
  let params := <["import" := Z.of_nat occ_in_import]> params in
  let params := <["dupcount" := Z.of_nat dupcount]> params in
  let msg_fmt_str :=
    if decide (occ_in_hist = 1%nat /\ occ_in_import = 1%nat)
    then single_dup_message else multiple_dup_message in
  error_at_lines ((fun t : ValidTransaction => line_no t) <$> transactions)
    msg_fmt_str params _errors.

Fixpoint strip_duplicates (historical_buckets : gmap Signature nat)
    (import_buckets : list (Signature * list ValidTransaction))
    (_errors : list Error) : Outcome (list ValidTransaction * list Error) :=
  match import_buckets with
  | [] => Returned ([], _errors)
  | (dup_sig, transactions) :: later =>
      let occ_in_import := length transactions in
      let occ_in_hist := occurrences historical_buckets dup_sig in
      let dupcount := Nat.min occ_in_hist occ_in_import in
      match (if decide (occ_in_hist = 0%nat) then Returned _errors
             else signal_duplicate dup_sig occ_in_hist transactions _errors)
      with
      | Raised e => Raised e
      | Returned _errors =>
          match strip_duplicates historical_buckets later _errors with
          | Raised e => Raised e
          | Returned (yielded, _errors) =>
              Returned (drop dupcount transactions ++ yielded, _errors)
          end
      end
  end.

Definition validate_global (valid_transactions : list ValidTransaction)
    (_errors : list Error) : Outcome (list ValidTransaction * list Error) :=
  match valid_transactions with
  | [] => Returned ([], _errors)
  | first :: others =>
      let historical_buckets :=
        dupcheck_buckets localdate _dt_fallback history
          (Some (date_bounds localdate first others)) in
      strip_duplicates historical_buckets
        (import_buckets_of localdate valid_transactions) _errors
  end.

(** [DebtTransferPaymentPreparator.transaction_buckets]: the transactions
    by [t.ledger_entry.member.pk], and the unpaid debts of the fetched
    members by [debt.member_id]. *)
Definition transaction_buckets (valid_transactions : list ValidTransaction)
  : list (Z * list ValidTransaction) :=
  foldl (fun trans_buckets t =>
           bucket_add (member_id (ledger_entry t)) t trans_buckets)
    [] valid_transactions.

Definition debt_qs (_members_by_id : gmap Z ChoirMember) : list DebtRow :=
  order_by_timestamp
    (rows (unpaid split_manager debt_row
             (with_payments
                {| rows := filter (fun debt : DebtRow =>
                                     is_Some (_members_by_id
                                                !! debt_member_id debt))
                             (rows debt_table);
                   annotated := annotated debt_table |}))).

Definition _debt_buckets (_members_by_id : gmap Z ChoirMember)
  : gmap Z (list DebtRow) :=
  foldl (fun debt_buckets (debt : DebtRow) =>
           <[debt_member_id debt :=
               default [] (debt_buckets !! debt_member_id debt) ++ [debt]]>
             debt_buckets)
    ∅ (debt_qs _members_by_id).

(** [debts_for]: [self._debt_buckets[debt_key]], the instances that the
    queryset has built. *)
Definition debts_for (_members_by_id : gmap Z ChoirMember) (debt_key : Z)
  : list BaseDebtRecord :=
  (fun debt : DebtRow => Debt (instance split_manager debt_row true debt))
    <$> default [] (_debt_buckets _members_by_id !! debt_key).

(** [CreditApportionmentMixin.make_splits]: the splits that the generator
    yields, with its default flags.  The generator always returns
    ([make_payment_splits_phases]); the empty list stands for a run out of
    fuel, which does not occur. *)
Definition make_splits (payments : list BasePaymentRecord)
    (debts : list BaseDebtRecord) : list Split :=
  match make_payment_splits split_manager payments debts true false with
  | Some (splits, _) => splits
  | None => []
  end.

(** The two totals that [review] compares for a bucket. *)
Definition total_used_for (_members_by_id : gmap Z ChoirMember) (key : Z)
    (transactions : list ValidTransaction) : Z :=
  sum_amounts
    (bulk_utils.amount
       <$> make_splits
             ((fun p : InternalPayment => payment_record p)
                <$> sorted_by_timestamp (ledger_entry <$> transactions))
             (debts_for _members_by_id key)).
Definition total_credit_for (transactions : list ValidTransaction) : Z :=
  sum_amounts ((fun p : InternalPayment => total_amount p)
                 <$> sorted_by_timestamp (ledger_entry <$> transactions)).

(** [CreditApportionmentMixin.review], bucket after bucket;
    [overpayment_error_params] of this preparator reads
    [self._members_by_id[debt_key]]. *)
Fixpoint review_buckets (_members_by_id : gmap Z ChoirMember)
    (_trans_buckets : list (Z * list ValidTransaction))
    (_errors : list Report) : Outcome (list Report) :=
  match _trans_buckets with
  | [] => Returned _errors
  | (key, transactions) :: later =>
      let debts := debts_for _members_by_id key in
      let payments :=
        sorted_by_timestamp (ledger_entry <$> transactions) in
      let splits :=
        make_splits ((fun p : InternalPayment => payment_record p)
                       <$> payments) debts in
      let total_used := sum_amounts (bulk_utils.amount <$> splits) in
      let total_credit :=
        sum_amounts ((fun p : InternalPayment => total_amount p)
                       <$> payments) in
      if total_used <? total_credit
      then
        match _members_by_id !! key with
        | Some member =>
            review_buckets _members_by_id later
              (overpayment
                 (sorted ((fun t : ValidTransaction => line_no t)
                            <$> transactions))
                 member total_used total_credit :: _errors)
        | None => Raised KeyError
        end
      else review_buckets _members_by_id later _errors
  end.

Definition review (_members_by_id : gmap Z ChoirMember)
    (valid_transactions : list ValidTransaction) (_errors : list Report)
  : Outcome (list Report) :=
  review_buckets _members_by_id (transaction_buckets valid_transactions)
    _errors.

(** What the member [key] still owes: the unmatched balances of the
    member's unpaid debts. *)
Definition owed_by (key : Z) : Z :=
  sum_amounts
    (unmatched_balance_annotation split_manager debt_row
       <$> filter (fun debt : DebtRow =>
                     debt_member_id debt = key /\
                     0 < unmatched_balance_annotation split_manager debt_row
                           debt)
             (rows debt_table)).

(** What [valid(t)] has checked and built for a row that it keeps. *)
Definition kept_row (_members_by_id : gmap Z ChoirMember)
    (v : ValidTransaction) : Prop :=
  ogm_applies OGM_INTERNAL_DEBT_PREFIX (ogm v) = true /\ 0 <= amount v /\
  exists pk member,
    parse_internal_debt_ogm (ogm v) = Returned pk /\
    _members_by_id !! pk = Some member /\
    ogm v = payment_tracking_no member /\
    ledger_entry v
    = {| payment_record :=
           Payment {| pk := None; base.timestamp := timestamp v;
                      total_amount := amount v;
                      matched_balance_fromdb := None;
                      unmatched_balance_fromdb := None |};
         internal.nature := PAYMENT_NATURE_TRANSFER;
         member_id := member_pk member |}.

(** [LedgerEntryPreparator.valid_transactions], the first time it is read:
    the valid transactions and [_errors], or the exception that ends it. *)
Definition valid_transactions (transactions : list TransactionInfo)
    (_errors : list Error) : Outcome (list ValidTransaction * list Report) :=
  let _members_by_id := prepare transactions in
  match indiv_transactions _members_by_id transactions _errors with
  | Raised e => Raised e
  | Returned (indiv_transactions, _errors) =>
      match validate_global indiv_transactions _errors with
      | Raised e => Raised e
      | Returned (_valid_transactions, _errors) =>
          match review _members_by_id _valid_transactions
                  (recorded <$> _errors) with
          | Raised e => Raised e
          | Returned _errors => Returned (_valid_transactions, _errors)
          end
      end
  end.

End preparator.

End debt_transfers.

(** ** forms/accounting/bulk_utils.py and transfers.py: the CSV parsers *)
Module csv_parsers.

(** A row as [csv.DictReader] yields it: the columns of the header, with
    [None] ([restval]) for the fields that a short row lacks. *)
Definition Row := gmap string (option string).

(** The exceptions of this part of the code: [KeyError] with its argument,
    the [AttributeError] of a method call on [None] and the [TypeError] of
    an item assignment on [None]. *)
Inductive ParserException :=
| KeyError (key : string)
| AttributeError
| TypeError.

Inductive Result (A : Type) :=
| Ok (a : A)
| Raise (e : ParserException).
Arguments Ok {A} a.
Arguments Raise {A} e.

(** The messages of the parsers, with their parameter. *)
Inductive ParserMessage :=
| missing_column (col : string)
| invalid_amount (amt : string)
| invalid_date (date : string)
| illegal_ogm (ogm : string).

Abbreviation ParserError := (Z * ParserMessage)%type.

(** What [parse_row_to_dict] of [FinancialCSVParser] hands to
    [TransactionInfo]: a [timestamp] is a date from [_parse_date] or the
    datetime of [timezone.now()]. *)
Inductive When :=
| a_date (date : Z)
| a_datetime (timestamp : Z).

Record Kwargs := {
  kw_amount : Z;
  kw_when : When;
  kw_line_no : Z
}.

(** The [TransactionInfo] of [FinancialCSVParser], of
    [MemberTransactionParser] and of [BankCSVParser]. *)
Record TransactionInfo := {
  line_no : Z;
  amount : Z;
  timestamp : Z
}.
Record MemberTransactionInfo := {
  member_info :> TransactionInfo;
  member_str : option string
}.
Record BankTransactionInfo := {
  bank_info :> TransactionInfo;
  nature : Z;
  ogm : string
}.

(** [amount_str.replace(',', '.')]. *)
Fixpoint replace_commas (amount_str : string) : string :=
  match amount_str with
  | EmptyString => EmptyString
  | String c rest =>
      String (if Ascii.eqb c ","%char then "."%char else c)
        (replace_commas rest)
  end.

(** [FinancialCSVParser.error]: [self._errors.insert(0, (line_no, msg))]. *)
Definition error (line_no : Z) (msg : ParserMessage)
    (_errors : list ParserError) : list ParserError :=
  (line_no, msg) :: _errors.

Section parser.
(** The class attributes, and what the parsers take from elsewhere:
    [Decimal(amt_str).quantize(Decimal('.01'))] in cents ([None] when it
    raises one of the exceptions that [_parse_amount] catches),
    [strptime(date_str, '%d/%m/%Y').date()] ([None] for its [ValueError]),
    [timezone.now()] and [_dt_fallback]. *)
Variable amount_column_name : string.
Variable date_column_name : string.
Variable quantize : string -> option Z.
Variable strptime : string -> option Z.
Variable now : Z.
Variable _dt_fallback : When -> Z.

(** [FinancialCSVParser._parse_amount]; [amount_str] is [None] for a field
    that the row lacks. *)
Definition _parse_amount (line_no : Z) (amount_str : option string)
    (_errors : list ParserError) : Result (option Z) * list ParserError :=
  match amount_str with
  | None => (Raise AttributeError, _errors)
  | Some amount_str =>
      let amt_str := replace_commas amount_str in
      match quantize amt_str with
      | Some rd => (Ok (Some rd), _errors)
      | None => (Ok None, error line_no (invalid_amount amt_str) _errors)
      end
  end.

(** [FinancialCSVParser._parse_date]. *)
Definition _parse_date (line_no : Z) (date_str : string)
    (_errors : list ParserError) : option Z * list ParserError :=
  match strptime date_str with
  | Some date => (Some date, _errors)
  | None => (None, error line_no (invalid_date date_str) _errors)
  end.

(** [FinancialCSVParser.parse_row_to_dict]. *)
Definition parse_row_to_dict (line_no : Z) (row : Row)
    (_errors : list ParserError)
  : Result (option Kwargs) * list ParserError :=
  match row !! amount_column_name with
  | None => (Raise (KeyError amount_column_name), _errors)
  | Some amount_str =>
      match _parse_amount line_no amount_str _errors with
      | (Raise e, _errors) => (Raise e, _errors)
      | (Ok amount, _errors) =>
          (* row.get(self.date_column_name, None) *)
          let date_str := default None (row !! date_column_name) in
          let '(timestamp, _errors) :=
            match date_str with
            | None | Some EmptyString => (Some (a_datetime now), _errors)
            | Some date_str =>
                let '(date, _errors) := _parse_date line_no date_str _errors in
                (a_date <$> date, _errors)
            end in
          match timestamp, amount with
          | Some timestamp, Some amount =>
              (Ok (Some {| kw_amount := amount; kw_when := timestamp;
                           kw_line_no := line_no |}), _errors)
          | _, _ => (Ok None, _errors)
          end
      end
  end.

(** [TransactionInfo.__init__] of [FinancialCSVParser]. *)
Definition transaction_info (kwargs : Kwargs) : TransactionInfo :=
  {| line_no := kw_line_no kwargs; amount := kw_amount kwargs;
     timestamp := _dt_fallback (kw_when kwargs) |}.

(** [FinancialCSVParser.parse_row]. *)
Definition parse_row (line_no : Z) (row : Row) (_errors : list ParserError)
  : Result (option TransactionInfo) * list ParserError :=
  match parse_row_to_dict line_no row _errors with
  | (Raise e, _errors) => (Raise e, _errors)
  | (Ok kwargs, _errors) => (Ok (transaction_info <$> kwargs), _errors)
  end.

(** [MemberTransactionParser.parse_row_to_dict] and [parse_row]:
    [parsed['member_str'] = row[self.member_column_name]] evaluates the
    right-hand side first, then assigns to [parsed], which may be
    [None]. *)
Definition member_parse_row (member_column_name : string) (line_no : Z)
    (row : Row) (_errors : list ParserError)
  : Result (option MemberTransactionInfo) * list ParserError :=
  match parse_row_to_dict line_no row _errors with
  | (Raise e, _errors) => (Raise e, _errors)
  | (Ok parsed, _errors) =>
      match row !! member_column_name with
      | None => (Raise (KeyError member_column_name), _errors)
      | Some member =>
          match parsed with
          | None => (Raise TypeError, _errors)
          | Some parsed =>
              (Ok (Some {| member_info := transaction_info parsed;
                           member_str := member |}), _errors)
          end
      end
  end.

(** [PaymentCSVParser.parse_row_to_dict], to which
    [BankCSVParser.parse_row_to_dict] adds the reference, and [parse_row];
    [get_nature] and [get_ogm] are the subclass's. *)
Definition bank_parse_row
    (get_nature : Z -> Row -> option Z)
    (get_ogm : Z -> Row -> list ParserError
               -> Result (option string) * list ParserError)
    (line_no : Z) (row : Row) (_errors : list ParserError)
  : Result (option BankTransactionInfo) * list ParserError :=
  match parse_row_to_dict line_no row _errors with
  | (Raise e, _errors) => (Raise e, _errors)
  | (Ok parsed, _errors) =>
      (* PaymentCSVParser *)
      match get_nature line_no row with
      | None =>
          (* BankCSVParser, on [parsed = None] *)
          match get_ogm line_no row _errors with
          | (Raise e, _errors) => (Raise e, _errors)
          | (Ok None, _errors) => (Ok None, _errors)
          | (Ok (Some _), _errors) => (Raise TypeError, _errors)
          end
      | Some nature =>
          match parsed with
          | None => (Raise TypeError, _errors)
          | Some parsed =>
              match get_ogm line_no row _errors with
              | (Raise e, _errors) => (Raise e, _errors)
              | (Ok None, _errors) => (Ok None, _errors)
              | (Ok (Some ogm), _errors) =>
                  (Ok (Some {| bank_info := transaction_info parsed;
                               nature := nature; ogm := ogm |}), _errors)
              end
          end
      end
  end.

(** [BankCSVParser.get_nature]: [payments.PAYMENT_NATURE_TRANSFER]. *)
Definition bank_get_nature (PAYMENT_NATURE_TRANSFER : Z)
  : Z -> Row -> option Z :=
  fun line_no row => Some PAYMENT_NATURE_TRANSFER.

End parser.

(** The generator [gen] of [_read], from the row numbered [line_no]. *)
Fixpoint gen {T} (parse_row : Z -> Row -> list ParserError
                              -> Result (option T) * list ParserError)
    (line_no : Z) (csv : list Row) (_errors : list ParserError)
  : Result (list T) * list ParserError :=
  match csv with
  | [] => (Ok [], _errors)
  | row :: later =>
      (* +1 to offset zero-indexing, and +1 to skip the header *)
      match parse_row (line_no + 2) row _errors with
      | (Raise e, _errors) => (Raise e, _errors)
      | (Ok t, _errors) =>
          match gen parse_row (line_no + 1) later _errors with
          | (Raise e, _errors) => (Raise e, _errors)
          | (Ok objects, _errors) =>
              (Ok (match t with Some t => t :: objects | None => objects end),
               _errors)
          end
      end
  end.

(** [FinancialCSVParser._read] on a parser that has not read its file:
    [_objects] and [_errors] afterwards, or the exception that escapes.
    [csv_file] is [None] or the rows that [DictReader] yields. *)
Definition _read {T} (parse_row : Z -> Row -> list ParserError
                                  -> Result (option T) * list ParserError)
    (csv_file : option (list Row))
  : Result (list T * list ParserError) :=
  match csv_file with
  | None => Ok ([], [])
  | Some csv =>
      match gen parse_row 0 csv [] with
      | (Ok objects, _errors) => Ok (objects, _errors)
      | (Raise (KeyError col), _errors) =>
          Ok ([], error 0 (missing_column col) _errors)
      | (Raise e, _) => Raise e
      end
  end.

End csv_parsers.

(** ** double_entry/forms/transfers.py: [TransferTransactionIndexBuilder] *)
Module index_builder.

(** A transaction party as far as the index builder reads it. *)
Record TransactionParty := {
  party_pk : Z;
  payment_tracking_no : string
}.

(** A [BankTransactionInfo] as far as the index builder reads it. *)
Record TransactionInfo := {
  account_lookup_str : string;
  line_no : Z
}.

(** The attributes that [__init__] sets; [line_index] is a
    [defaultdict(list)], whose keys keep the order of their first use. *)
Record TransferTransactionIndexBuilder := {
  account_index : gmap string TransactionParty;
  line_index : list (string * list Z);
  prefix_digit : Z
}.

Definition __init__ (prefix_digit : Z) : TransferTransactionIndexBuilder :=
  {| account_index := ∅; line_index := []; prefix_digit := prefix_digit |}.

(** [self.line_index[string].append(line_no)]. *)
Fixpoint line_index_append (string_ : string) (line_no : Z)
    (line_index : list (string * list Z)) : list (string * list Z) :=
  match line_index with
  | [] => [(string_, [line_no])]
  | (key, line_nos) :: later =>
      if decide (key = string_) then (key, line_nos ++ [line_no]) :: later
      else (key, line_nos) :: line_index_append string_ line_no later
  end.

(** [line_index[string]] as a read: the list of a key, empty for a key
    that was never used. *)
Fixpoint line_index_get (string_ : string)
    (line_index : list (string * list Z)) : list Z :=
  match line_index with
  | [] => []
  | (key, line_nos) :: later =>
      if decide (key = string_) then line_nos
      else line_index_get string_ later
  end.

Section utils.
(** [double_entry.utils.parse_ogm] and [normalise_ogm] ([None] for their
    [ValueError]), and [base_query_set().by_payment_tracking_nos(...,
    validate_unseen=True)]: the accounts found and the references not
    seen. *)
Variable parse_ogm : string -> option (Z * Z).
Variable normalise_ogm : string -> option string.
Variable by_payment_tracking_nos :
  list string -> list TransactionParty * list string.

(** [lookup]: the normalised reference is not used, the index is read at
    the string as given. *)
Definition lookup (self : TransferTransactionIndexBuilder)
    (account_lookup_str : string) : option TransactionParty :=
  match normalise_ogm account_lookup_str with
  | None => None
  | Some _ => account_index self !! account_lookup_str
  end.

Definition lookup_key_for_account (account : TransactionParty) : string :=
  payment_tracking_no account.

(** [ogm_applies]: [self.prefix_digit == prefix // 10**9]. *)
Definition ogm_applies (self : TransferTransactionIndexBuilder)
    (ogm : string) : bool :=
  match parse_ogm ogm with
  | Some (prefix, modulus) => bool_decide (prefix_digit self = prefix / 10 ^ 9)
  | None => false
  end.

(** [append]: what it returns, and the builder afterwards. *)
Definition append (self : TransferTransactionIndexBuilder)
    (tinfo : TransactionInfo) : bool * TransferTransactionIndexBuilder :=
  let string_ := account_lookup_str tinfo in
  if negb (ogm_applies self string_) then (false, self)
  else (true,
        {| account_index := account_index self;
           line_index :=
             line_index_append string_ (line_no tinfo) (line_index self);
           prefix_digit := prefix_digit self |}).

(** [execute_query]; [report_invalid_ogms] only writes to the log. *)
Definition execute_query (self : TransferTransactionIndexBuilder)
  : TransferTransactionIndexBuilder :=
  let '(account_qs, unseen) :=
    by_payment_tracking_nos (fst <$> line_index self) in
  {| account_index :=
       foldl (fun account_index m =>
                <[payment_tracking_no m := m]> account_index)
         (account_index self) account_qs;
     line_index := line_index self;
     prefix_digit := prefix_digit self |}.

(** A builder to which the transactions of a batch have been appended, one
    after the other. *)
Definition appended (self : TransferTransactionIndexBuilder)
    (tinfos : list TransactionInfo) : TransferTransactionIndexBuilder :=
  foldl (fun self tinfo => (append self tinfo).2) self tinfos.

End utils.

End index_builder.

(** ** models/accounting/complex_pricing.py: [ActivityOptionRegistry] *)
Module registry.
Import complex_pricing option_paths.

(** The exceptions of this part of the code: the [ValueError] of
    [register] and the [AssertionError] of [ActivityOption.__init__]. *)
Inductive RegistryError :=
| ValueError
| AssertionError.

Inductive Result (A : Type) :=
| Done (a : A)
| Failed (e : RegistryError).
Arguments Done {A} a.
Arguments Failed {A} e.

(** [self.seen], keyed by [(path, act_ref)], and [self.focus_pk].  The
    list [_children] of an option, to which [register] appends, is left
    out: only the property [children] reads it, and neither [__eq__] nor
    [__hash__] nor any other code of the sources uses it. *)
Record ActivityOptionRegistry := {
  seen : gmap (string * option Z) ActivityOption;
  focus_pk : option Z
}.

(** [ActivityOptionRegistry.__init__], with the primary key of [focus]. *)
Definition __init__ (focus : option Z) : ActivityOptionRegistry :=
  {| seen := ∅; focus_pk := focus |}.

(** [ActivityOption.__init__], with its assertion
    [(parent is None and not slug) or (parent is not None and slug)]
    (assertions are on, as they are unless Python runs with [-O]). *)
Definition ActivityOption__init__ (slug : string)
    (parent : option ActivityOption) (bound : bool) (act_pk : option Z)
  : Result ActivityOption :=
  match parent, slug with
  | None, EmptyString | Some _, String _ _ =>
      Done (MkActivityOption slug parent bound act_pk)
  | _, _ => Failed AssertionError
  end.

(** [path.rfind('/')], as the two slices [path[:cutoff]] and
    [path[cutoff + 1:]]; [None] when it is [-1]. *)
Fixpoint rsplit (path : string) : option (string * string) :=
  match path with
  | EmptyString => None
  | String c rest =>
      match rsplit rest with
      | Some (parent_path, path_base) => Some (String c parent_path, path_base)
      | None => if Ascii.eqb c "/"%char then Some (EmptyString, rest) else None
      end
  end.

(** [act_ref or self.focus_pk]: [None] and [0] are false. *)
Definition or_focus (act_ref focus_pk : option Z) : option Z :=
  match act_ref with
  | None | Some 0 => focus_pk
  | Some _ => act_ref
  end.

(** [register], with [ensure_registered] for the parent inlined in the
    recursive call; the registry is returned as it is when an exception is
    raised.  One unit of fuel per call: a parent path is shorter than the
    path, so that the length of the path and one suffice (see
    [ensure_registered_returns]). *)
Fixpoint register_in (fuel : nat) (self : ActivityOptionRegistry)
    (path : string) (act_ref : option Z)
  : option (Result ActivityOption * ActivityOptionRegistry) :=
  match fuel with
  | O => None
  | S fuel =>
      let parent :=
        if bool_decide (path <> EmptyString /\ path <> "/")
        then
          match rsplit path with
          | None => Some (Failed ValueError, self, EmptyString)
          | Some (parent_path, path_base) =>
              match seen self !! (parent_path, act_ref) with
              | Some parent => Some (Done (Some parent), self, path_base)
              | None =>
                  match register_in fuel self parent_path act_ref with
                  | Some (Done parent, self) =>
                      Some (Done (Some parent), self, path_base)
                  | Some (Failed e, self) => Some (Failed e, self, path_base)
                  | None => None
                  end
              end
          end
        else Some (Done None, self, EmptyString) in
      match parent with
      | None => None
      | Some (Failed e, self, _) => Some (Failed e, self)
      | Some (Done parent, self, path_base) =>
          let act_ref := or_focus act_ref (focus_pk self) in
          match ActivityOption__init__ path_base parent
                  (bool_decide (act_ref <> None)) (focus_pk self) with
          | Failed e => Some (Failed e, self)
          | Done opt =>
              Some (Done opt,
                    {| seen := <[(path, act_ref) := opt]> (seen self);
                       focus_pk := focus_pk self |})
          end
      end
  end.

Definition register (self : ActivityOptionRegistry) (path : string)
    (act_ref : option Z)
  : option (Result ActivityOption * ActivityOptionRegistry) :=
  register_in (S (String.length path)) self path act_ref.

(** [ensure_registered]. *)
Definition ensure_registered (self : ActivityOptionRegistry) (path : string)
    (act_ref : option Z)
  : option (Result ActivityOption * ActivityOptionRegistry) :=
  match seen self !! (path, act_ref) with
  | Some opt => Some (Done opt, self)
  | None => register self path act_ref
  end.

(** The path ['/slug1/slug2/...'] of a list of slugs. *)
Definition path_of (slugs : list string) : string :=
  foldl (fun path slug => path +:+ "/" +:+ slug) EmptyString slugs.

(** A slug that can be a component of a path: not empty, without ['/']. *)
Fixpoint no_slash (slug : string) : bool :=
  match slug with
  | EmptyString => true
  | String c rest => negb (Ascii.eqb c "/"%char) && no_slash rest
  end.
Definition component (slug : string) : bool :=
  negb (String.eqb slug EmptyString) && no_slash slug.

(** A path that is not empty and does not start with a slash. *)
Definition unrooted (path : string) : bool :=
  match path with
  | EmptyString => false
  | String c _ => negb (Ascii.eqb c "/"%char)
  end.

(** The invariant of a registry: every option is stored under its own
    [path]. *)
Definition keyed (self : ActivityOptionRegistry) : Prop :=
  forall p act_ref opt, seen self !! (p, act_ref) = Some opt -> path opt = p.

(** The option that a chain of [register] calls builds for a list of
    slugs: a root, then one child per slug, all with the same [bound] and
    [act_pk]. *)
Definition option_at (bound : bool) (act_pk : option Z)
    (slugs : list string) : ActivityOption :=
  foldl (fun parent slug => MkActivityOption slug (Some parent) bound act_pk)
    (MkActivityOption EmptyString None bound act_pk) slugs.

(** A registry as calls of [ensure_registered] on paths of components
    leave it: a key [(path, act_ref)] has the [act_ref] that [register]
    stores (its own, or the focus when it is [None] or [0]), its path is
    that of a list of components, and its option is the chain for them. *)
Definition canonical (self : ActivityOptionRegistry) : Prop :=
  forall p act_ref opt,
    seen self !! (p, act_ref) = Some opt ->
    or_focus act_ref (focus_pk self) = act_ref
    /\ exists slugs,
         Forall (fun slug => component slug = true) slugs
         /\ p = path_of slugs
         /\ opt = option_at (bool_decide (act_ref <> None))
                    (focus_pk self) slugs.

End registry.

(** ** Further concrete records for the examples *)
Module more_scenarios.
Import base bulk_utils internal preparator complex_pricing transfers
  scenarios querysets.

(** The options [/foo/a] and [/bar/baz/x]. *)
Definition foo_a := MkActivityOption "a" (Some foo) false None.
Definition baz_x := MkActivityOption "x" (Some baz) false None.

(** The rule [[/foo] -> 10], [[] -> 7] with default 5. *)
Definition flat_fee_cases : list (list ActivityOption * PricingData) :=
  [([foo], {| price := 1000; comment := "fee";
              complex_pricing.filter_slug := None |})]
  ++ ([], {| price := 700; comment := "flat";
             complex_pricing.filter_slug := None |}) :: [].
Definition flat_fee_rule : PricingRule :=
  {| description := "fee"; default_filter_slug := None;
     no_match_default := 500; specification := "[/foo] -> 10, [] -> 7";
     count_multiple := true; _matching_rules := Some flat_fee_cases |}.

(** The debt table: member 7 owes 30.00 for the trip and 50.00 without
    filter code; the debt of 10.00 is the overmatched one. *)
Definition trip_debt : DebtRow :=
  {| debt_row := {| row_pk := 1; row_timestamp := 0;
                    row_total_amount := 3000 |};
     debt_member_id := 7; querysets.filter_slug := Some "trip" |}.
Definition plain_debt : DebtRow :=
  {| debt_row := {| row_pk := 2; row_timestamp := 1;
                    row_total_amount := 5000 |};
     debt_member_id := 7; querysets.filter_slug := None |}.
Definition settled_debt : DebtRow :=
  {| debt_row := {| row_pk := 7; row_timestamp := 0;
                    row_total_amount := 1000 |};
     debt_member_id := 7; querysets.filter_slug := Some "trip" |}.
Definition debt_table : QuerySet DebtRow :=
  {| rows := [trip_debt; settled_debt; plain_debt]; annotated := false |}.

(** A row that carries the canonical reference of member 123456; a query
    that finds nobody and one that finds the member; the member's debts of
    30.00 and 50.00. *)
Definition canonical_row (line total : Z) : TransactionInfo :=
  {| line_no := line; amount := total; timestamp := 0; nature := 2;
     ogm := "200012345643" |}.
Definition nobody : list string -> list ChoirMember := fun _ => [].
Definition everybody : list string -> list ChoirMember :=
  fun _ => [member_123456].
Definition debts_of_123456 : QuerySet DebtRow :=
  {| rows := [ {| debt_row := {| row_pk := 1; row_timestamp := 0;
                                 row_total_amount := 3000 |};
                  debt_member_id := 123456;
                  querysets.filter_slug := Some "trip" |};
               {| debt_row := {| row_pk := 2; row_timestamp := 0;
                                 row_total_amount := 5000 |};
                  debt_member_id := 123456;
                  querysets.filter_slug := None |} ];
     annotated := false |}.

(** The valid transaction that the preparator makes of such a row. *)
Definition kept (t : TransactionInfo) : ValidTransaction :=
  {| transaction := t;
     ledger_entry :=
       {| payment_record := new_payment (timestamp t) (amount t);
          internal.nature := 2; member_id := 123456 |} |}.

(** A file with the columns [bedrag], [datum] and [lid]: what the parsers
    take from [decimal] and [datetime] on the strings that occur in it,
    the rows [10,00 / 01/02/2019 / An] and [ten / (no date) / Bo], a row
    under another header, and a row shorter than the header. *)
Definition cents (amt_str : string) : option Z :=
  if String.eqb amt_str "10.00" then Some 1000 else None.
Definition day_of (date_str : string) : option Z :=
  if String.eqb date_str "01/02/2019" then Some 17928 else None.
Definition midnight (timestamp : csv_parsers.When) : Z :=
  match timestamp with
  | csv_parsers.a_date date => date * 86400
  | csv_parsers.a_datetime timestamp => timestamp
  end.
Definition good_row : csv_parsers.Row :=
  {[ "bedrag" := Some "10,00"; "datum" := Some "01/02/2019";
     "lid" := Some "An" ]}.
Definition bad_amount_row : csv_parsers.Row :=
  {[ "bedrag" := Some "ten"; "datum" := Some EmptyString;
     "lid" := Some "Bo" ]}.
Definition other_header_row : csv_parsers.Row :=
  {[ "amount" := Some "10,00"; "datum" := Some "01/02/2019" ]}.
Definition short_row : csv_parsers.Row :=
  {[ "bedrag" := None; "datum" := None; "lid" := None ]}.
Definition found_ogm (line_no : Z) (row : csv_parsers.Row)
    (_errors : list csv_parsers.ParserError)
  : csv_parsers.Result (option string) * list csv_parsers.ParserError :=
  (csv_parsers.Ok (Some "200012345643"), _errors).

(** Modelled from the spec: [normalise_ogm] of [double_entry.utils], which
    is not among the sources (section 3: the canonical form has no
    separators; the display form is accepted as input): the digits of a
    reference that parses. *)
Definition canonical_form (text : string) : option string :=
  match ogm_codec.parse_ogm text with
  | Some _ => Some (ogm_codec.strip text)
  | None => None
  end.

(** The party 123456 and a query that finds it. *)
Definition party_123456 : index_builder.TransactionParty :=
  {| index_builder.party_pk := 123456;
     index_builder.payment_tracking_no := "200012345643" |}.
Definition found_party (ogms : list string)
  : list index_builder.TransactionParty * list string :=
  ([party_123456], []).

End more_scenarios.

(** * Properties of the double-book model *)
Section base_facts.
Import base.
Variable split_manager : Z -> list Z.

(** Claim C10.  A double-book record that carries no queryset annotation
    and has no primary key has a matched balance of exactly 0.00 and an
    unmatched balance equal to its total amount; computing either leaves no
    effect behind, so neither the performance warning nor the aggregate
    query of the database fallback takes place. *)
Theorem unsaved_record_is_unmatched (self : DoubleBookModel) :
  matched_balance_fromdb self = None ->
  unmatched_balance_fromdb self = None ->
  pk self = None ->
  matched_balance split_manager self = (0, []) /\
  unmatched_balance split_manager self = (total_amount self, []).
Proof.
  intros Hmatched Hunmatched Hpk. unfold unmatched_balance, matched_balance.
  rewrite Hmatched, Hunmatched, Hpk. split; [done|]. f_equal. lia.
Qed.

(** What [paid] decides: that nothing is left unmatched. *)
Lemma paid_iff_balance_zero (self : BaseDebtRecord) :
  paid split_manager self = true <-> balance split_manager self = 0.
Proof.
  unfold paid, balance, fully_matched.
  destruct (unmatched_balance split_manager self) as [unmatched effects].
  simpl. apply Z.eqb_eq.
Qed.

(** Without annotations the balance is the total amount minus the matched
    balance. *)
Lemma balance_unannotated (self : BaseDebtRecord) :
  unmatched_balance_fromdb self = None ->
  balance split_manager self
  = total_amount self - amount_paid split_manager self.
Proof.
  intros Hunmatched. unfold balance, amount_paid, unmatched_balance.
  rewrite Hunmatched.
  by destruct (matched_balance split_manager self).
Qed.

(** As long as a debt is not overmatched, [paid] and "balance at most
    zero" agree. *)
Lemma paid_iff_balance_nonpositive (self : BaseDebtRecord) :
  0 <= balance split_manager self ->
  paid split_manager self = true <-> balance split_manager self <= 0.
Proof. rewrite paid_iff_balance_zero. lia. Qed.

End base_facts.

Section base_examples.
Import base scenarios.

Lemma unsaved_record_is_unmatched_witness :
  matched_balance_fromdb lone_payment = None /\
  unmatched_balance_fromdb lone_payment = None /\
  pk lone_payment = None /\
  matched_balance no_splits lone_payment = (0, []) /\
  unmatched_balance no_splits lone_payment = (total_amount lone_payment, []).
Proof.
  split_and!; [reflexivity..| |];
    apply (unsaved_record_is_unmatched no_splits lone_payment); reflexivity.
Defined.

(** Claim C7, at a debt of 10.00 at which splits of 10.00 and 5.00 point.
    Its matched balance, 15.00, is at least its total amount and its
    balance, -5.00, is at most zero, so that the claim calls it paid, as
    does the queryset filter [fully_matched_fromdb]; the property [paid]
    answers [False], because it tests the balance for being zero. *)
Theorem overmatched_debt_is_not_paid :
  amount_paid overmatching_splits overmatched_debt = 1500 /\
  balance overmatching_splits overmatched_debt = -500 /\
  fully_matched_fromdb (total_amount overmatched_debt)
    (amount_paid overmatching_splits overmatched_debt) = true /\
  paid overmatching_splits overmatched_debt = false.
Proof. by vm_compute. Qed.

End base_examples.

(** * Properties of the apportionment engine *)
Section engine_facts.
Import base bulk_utils apportionment.
Variable split_manager : Z -> list Z.

Local Abbreviation balance := (base.balance split_manager).
Local Abbreviation credit_remaining := (base.credit_remaining split_manager).
Local Abbreviation total_balance := (apportionment.total_balance split_manager).
Local Abbreviation total_credit := (apportionment.total_credit split_manager).
Local Abbreviation exact_match_for :=
  (apportionment.exact_match_for split_manager).
Local Abbreviation exact_match_phase :=
  (apportionment.exact_match_phase split_manager).

Lemma total_balance_cons d ds :
  total_balance (d :: ds) = balance d + total_balance ds.
Proof. reflexivity. Qed.

Lemma total_credit_cons p ps :
  total_credit (p :: ps) = credit_remaining p + total_credit ps.
Proof. reflexivity. Qed.

Lemma total_split_cons s ss : total_split (s :: ss) = amount s + total_split ss.
Proof. reflexivity. Qed.

Lemma look_for_unpaid_debt_found ds : forall debt res d r ds' res',
  look_for_unpaid_debt split_manager ds debt res = Found d r ds' res' ->
  r <> 0 /\
  r + total_balance ds' = remaining_of debt + total_balance ds /\
  ((debt = Current d r /\ ds' = ds) \/ (length ds' < length ds)%nat).
Proof.
  induction ds as [|d0 ds IH]; intros debt res d r ds' res' H.
  - destruct debt as [|x rem]; simpl in H; [discriminate|].
    destruct (rem =? 0) eqn:E; [discriminate|].
    injection H as -> -> <- <-. apply Z.eqb_neq in E. simpl. auto with lia.
  - destruct debt as [|x rem]; simpl in H.
    + apply IH in H as (Hr & Hsum & Hlen). split; [done|]. split.
      * rewrite total_balance_cons. simpl in *. lia.
      * right. simpl. destruct Hlen as [[_ ->]|]; lia.
    + destruct (rem =? 0) eqn:E.
      * apply Z.eqb_eq in E. subst rem.
        apply IH in H as (Hr & Hsum & Hlen). split; [done|]. split.
        -- rewrite total_balance_cons. simpl in *. lia.
        -- right. simpl. destruct Hlen as [[_ ->]|]; lia.
      * injection H as -> -> <- <-. apply Z.eqb_neq in E. simpl. auto with lia.
Qed.

Lemma look_for_recent_payment_found ps : forall payment debt res p c ps' res',
  look_for_recent_payment split_manager ps payment debt res
    = Found p c ps' res' ->
  c <> 0 /\ timestamp debt <= timestamp p /\
  ((payment = Current p c /\ ps' = ps) \/
   ((length ps' < length ps)%nat /\ c = credit_remaining p)).
Proof.
  induction ps as [|p0 ps IH]; intros payment debt res p c ps' res' H.
  - destruct payment as [|x rem]; simpl in H; [discriminate|].
    destruct (rem =? 0) eqn:E; simpl in H; [discriminate|].
    destruct (timestamp x <? timestamp debt) eqn:T; [discriminate|].
    injection H as -> -> <- <-. apply Z.eqb_neq in E. apply Z.ltb_ge in T.
    auto.
  - destruct payment as [|x rem]; simpl in H.
    + apply IH in H as (Hc & Hts & Hlen). repeat split; try done.
      right. simpl.
      destruct Hlen as [[Heq ->]|[? ?]]; [injection Heq as -> ->|]; auto with lia.
    + destruct ((rem =? 0) || (timestamp x <? timestamp debt)) eqn:E.
      * apply IH in H as (Hc & Hts & Hlen). repeat split; try done.
        right. simpl.
        destruct Hlen as [[Heq ->]|[? ?]]; [injection Heq as -> ->|];
          auto with lia.
      * injection H as -> -> <- <-. apply orb_false_iff in E as [E T].
        apply Z.eqb_neq in E. apply Z.ltb_ge in T. auto.
Qed.

(** Skipped payments only lose credit when credits are not negative. *)
Lemma look_for_recent_payment_credit ps : forall payment debt res p c ps' res',
  look_for_recent_payment split_manager ps payment debt res
    = Found p c ps' res' ->
  0 <= remaining_of payment ->
  Forall (fun p => 0 <= credit_remaining p) ps ->
  0 <= c /\ c + total_credit ps' <= remaining_of payment + total_credit ps /\
  Forall (fun p => 0 <= credit_remaining p) ps'.
Proof.
  induction ps as [|p0 ps IH]; intros payment debt res p c ps' res' H Hrem Hps.
  - destruct payment as [|x rem]; simpl in H; [discriminate|].
    destruct ((rem =? 0) || (timestamp x <? timestamp debt)); [discriminate|].
    injection H as -> -> <- <-. simpl in *. auto with lia.
  - apply Forall_cons in Hps as [Hp0 Hps]. rewrite total_credit_cons.
    destruct payment as [|x rem]; simpl in H.
    + apply IH in H as (Hc & Hsum & Hall); simpl in *; auto with lia.
    + destruct ((rem =? 0) || (timestamp x <? timestamp debt)).
      * apply IH in H as (Hc & Hsum & Hall); simpl in *; auto with lia.
      * injection H as -> -> <- <-. simpl in *.
        rewrite total_credit_cons. auto with lia.
Qed.

Lemma look_for_unpaid_debt_suffix ds : forall debt res d r ds' res',
  look_for_unpaid_debt split_manager ds debt res = Found d r ds' res' ->
  Forall (fun d => 0 <= balance d) ds ->
  0 <= remaining_of debt ->
  0 <= r /\ Forall (fun d => 0 <= balance d) ds'.
Proof.
  induction ds as [|d0 ds IH]; intros debt res d r ds' res' H Hds Hrem.
  - destruct debt as [|x rem]; simpl in H; [discriminate|].
    destruct (rem =? 0); [discriminate|].
    injection H as -> -> <- <-. auto.
  - apply Forall_cons in Hds as [Hd0 Hds].
    destruct debt as [|x rem]; simpl in H.
    + apply IH in H; auto.
    + destruct (rem =? 0).
      * apply IH in H; auto.
      * injection H as -> -> <- <-. auto.
Qed.

Lemma greedy_loop_returns fuel : forall ps ds payment debt res,
  (2 * (length ps + length ds) + both_nonzero payment debt < fuel)%nat ->
  is_Some (greedy_loop split_manager fuel ps ds payment debt res).
Proof.
  induction fuel as [|fuel IH]; intros ps ds payment debt res Hfuel; [lia|].
  simpl.
  destruct (look_for_unpaid_debt _ ds debt res) as [res1|d r ds' res1] eqn:Hd;
    [by eexists|].
  destruct (look_for_recent_payment _ ps payment d res1)
    as [res2|p c ps' res2] eqn:Hp; [by eexists|].
  apply look_for_unpaid_debt_found in Hd as (Hr & _ & Hd).
  apply look_for_recent_payment_found in Hp as (Hc & _ & Hp).
  match goal with |- context [greedy_loop _ fuel ?a ?b ?c ?d ?e] =>
    destruct (IH a b c d e) as [[splits res3] ->]; [|by eexists] end.
  assert (both_nonzero (Current p (c - Z.min r c)) (Current d (r - Z.min r c))
          = 0%nat) as ->.
  { unfold both_nonzero. simpl.
    destruct (Z.min_spec r c) as [[? ->]|[? ->]].
    - replace (r - r) with 0 by lia. by rewrite orb_true_r.
    - by replace (c - c) with 0 by lia. }
  destruct Hd as [[-> ->]|Hd], Hp as [[-> ->]|[Hp _]]; try lia.
  unfold both_nonzero in Hfuel. simpl in Hfuel.
  apply Z.eqb_neq in Hr, Hc. rewrite Hr, Hc in Hfuel. simpl in Hfuel. lia.
Qed.


Lemma look_for_unpaid_debt_source ds debt res d r ds' res' :
  look_for_unpaid_debt split_manager ds debt res = Found d r ds' res' ->
  d ∈ in_hand debt ++ ds /\ ds' ⊆ ds.
Proof.
  revert debt res. induction ds as [|d0 ds IH]; intros debt res H.
  - destruct debt as [|x rem]; simpl in H; [discriminate|].
    destruct (rem =? 0); [discriminate|]. injection H as -> -> <- <-.
    simpl. set_solver.
  - destruct debt as [|x rem]; simpl in H.
    + apply IH in H. simpl in *. set_solver.
    + destruct (rem =? 0).
      * apply IH in H. simpl in *. set_solver.
      * injection H as -> -> <- <-. simpl. set_solver.
Qed.

Lemma look_for_recent_payment_source ps payment debt res p c ps' res' :
  look_for_recent_payment split_manager ps payment debt res
    = Found p c ps' res' ->
  p ∈ in_hand payment ++ ps /\ ps' ⊆ ps.
Proof.
  revert payment res. induction ps as [|p0 ps IH]; intros payment res H.
  - destruct payment as [|x rem]; simpl in H; [discriminate|].
    destruct ((rem =? 0) || (timestamp x <? timestamp debt)); [discriminate|].
    injection H as -> -> <- <-. simpl. set_solver.
  - destruct payment as [|x rem]; simpl in H.
    + apply IH in H. simpl in *. set_solver.
    + destruct ((rem =? 0) || (timestamp x <? timestamp debt)).
      * apply IH in H. simpl in *. set_solver.
      * injection H as -> -> <- <-. simpl. set_solver.
Qed.

Lemma greedy_loop_splits fuel : forall ps ds payment debt res splits res',
  greedy_loop split_manager fuel ps ds payment debt res = Some (splits, res') ->
  Forall (fun s => chronological s /\
                   split_payment s ∈ in_hand payment ++ ps /\
                   split_debt s ∈ in_hand debt ++ ds) splits.
Proof.
  induction fuel as [|fuel IH]; intros ps ds payment debt res splits res' H;
    [discriminate|].
  simpl in H.
  destruct (look_for_unpaid_debt _ ds debt res) as [res1|d r ds' res1] eqn:Hd;
    [by simplify_eq|].
  destruct (look_for_recent_payment _ ps payment d res1)
    as [res2|p c ps' res2] eqn:Hp; [by simplify_eq|].
  destruct (greedy_loop _ fuel _ _ _ _ _) as [[later res3]|] eqn:Hloop;
    simplify_eq.
  apply IH in Hloop.
  apply look_for_unpaid_debt_source in Hd as [Hd Hds].
  pose proof (look_for_recent_payment_found _ _ _ _ _ _ _ _ Hp) as (_ & Hts & _).
  apply look_for_recent_payment_source in Hp as [Hp Hps].
  constructor; [done|].
  eapply Forall_impl; [exact Hloop|]. simpl.
  intros s (? & ? & ?). repeat split; [done|set_solver..].
Qed.

Lemma greedy_loop_conserves fuel : forall ps ds payment debt res splits res',
  greedy_loop split_manager fuel ps ds payment debt res = Some (splits, res') ->
  0 <= remaining_of payment -> 0 <= remaining_of debt ->
  Forall (fun p => 0 <= credit_remaining p) ps ->
  Forall (fun d => 0 <= balance d) ds ->
  total_split splits <= remaining_of payment + total_credit ps /\
  total_split splits <= remaining_of debt + total_balance ds.
Proof.
  induction fuel as [|fuel IH];
    intros ps ds payment debt res splits res' H Hc Hr Hps Hds; [discriminate|].
  assert (0 <= total_credit ps) as Hcredit.
  { clear -Hps. induction Hps; [done|]. rewrite total_credit_cons. lia. }
  assert (0 <= total_balance ds) as Hbalance.
  { clear -Hds. induction Hds; [done|]. rewrite total_balance_cons. lia. }
  simpl in H.
  destruct (look_for_unpaid_debt _ ds debt res) as [res1|d r ds' res1] eqn:Hd;
    [simplify_eq; unfold total_split; simpl; lia|].
  destruct (look_for_recent_payment _ ps payment d res1)
    as [res2|p c ps' res2] eqn:Hp;
    [simplify_eq; unfold total_split; simpl; lia|].
  destruct (greedy_loop _ fuel _ _ _ _ _) as [[later res3]|] eqn:Hloop;
    simplify_eq.
  pose proof (look_for_unpaid_debt_found _ _ _ _ _ _ _ Hd) as (_ & Hsum & _).
  apply look_for_unpaid_debt_suffix in Hd as [Hr' Hds']; [|done..].
  apply look_for_recent_payment_credit in Hp as (Hc' & Hsum' & Hps'); [|done..].
  apply IH in Hloop; simpl; [|lia..|done|done].
  rewrite total_split_cons. simpl in *. lia.
Qed.


Lemma next_exact_match_Some amt ts : forall debt_list ix index d,
  next_exact_match split_manager amt ts ix debt_list = Some (index, d) ->
  exists before after,
    debt_list = before ++ d :: after /\
    index = (ix + length before)%nat /\
    Forall (fun d' => ~ (balance d' = amt /\ timestamp d' <= ts)) before /\
    balance d = amt /\ timestamp d <= ts.
Proof.
  induction debt_list as [|d0 l IH]; intros ix index d H; [discriminate|].
  simpl in H.
  destruct ((balance d0 =? amt) && (timestamp d0 <=? ts)) eqn:E.
  - injection H as <- <-. apply andb_true_iff in E as [E1 E2].
    apply Z.eqb_eq in E1. apply Z.leb_le in E2.
    exists [], l. simpl. repeat split; auto with lia.
  - apply IH in H as (before & after & -> & -> & Hbefore & Hd).
    exists (d0 :: before), after. simpl. repeat split; try tauto; [lia|].
    constructor; [|done]. intros [E1 E2].
    apply Z.eqb_eq in E1. apply Z.leb_le in E2. by rewrite E1, E2 in E.
Qed.

Lemma next_exact_match_None amt ts : forall debt_list ix,
  next_exact_match split_manager amt ts ix debt_list = None ->
  Forall (fun d' => ~ (balance d' = amt /\ timestamp d' <= ts)) debt_list.
Proof.
  induction debt_list as [|d0 l IH]; intros ix H; [constructor|].
  simpl in H.
  destruct ((balance d0 =? amt) && (timestamp d0 <=? ts)) eqn:E;
    [discriminate|].
  constructor; [|by eapply IH]. intros [E1 E2].
  apply Z.eqb_eq in E1. apply Z.leb_le in E2. by rewrite E1, E2 in E.
Qed.

(** The loop of the source, with its accumulators, refines the phase as the
    specification words it. *)
Lemma exact_match_loop_phase payment_list :
  forall debt_list payments_todo results,
  exists splits used settled deferred rest,
    exact_match_loop split_manager payment_list debt_list payments_todo results
    = (splits,
       (payments_todo ++ deferred, rest,
        extend_fully_paid_debts settled
          (extend_fully_used_payments used results))) /\
    exact_match_phase payment_list debt_list splits used settled deferred rest.
Proof.
  induction payment_list as [|p ps IH]; intros debt_list payments_todo results.
  - exists [], [], [], [], debt_list. split; [|constructor].
    destruct results. unfold extend_fully_paid_debts,
      extend_fully_used_payments. simpl. by rewrite !app_nil_r.
  - simpl.
    destruct (next_exact_match _ _ _ 0 debt_list) as [[index d]|] eqn:Hnext.
    + apply next_exact_match_Some
        in Hnext as (before & after & -> & -> & Hbefore & Hd).
      simpl. rewrite delete_middle.
      destruct (IH (before ++ after) payments_todo
                  (extend_fully_paid_debts [d]
                     (extend_fully_used_payments [p] results)))
        as (splits & used & settled & deferred & rest & -> & Hphase).
      exists ({| split_payment := p; split_debt := d;
                 amount := credit_remaining p |} :: splits),
        (p :: used), (d :: settled), deferred, rest.
      split; [|by constructor].
      destruct results. unfold extend_fully_paid_debts,
        extend_fully_used_payments. simpl. by rewrite <- !app_assoc.
    + apply next_exact_match_None in Hnext.
      destruct (IH debt_list (payments_todo ++ [p]) results)
        as (splits & used & settled & deferred & rest & -> & Hphase).
      exists splits, used, settled, (p :: deferred), rest.
      split; [by rewrite <- app_assoc|by constructor].
Qed.

(** What the exact-match phase preserves. *)
Lemma exact_match_phase_facts ps ds splits used settled deferred rest :
  exact_match_phase ps ds splits used settled deferred rest ->
  Forall chronological splits /\
  total_split splits + total_credit deferred = total_credit ps /\
  total_split splits + total_balance rest = total_balance ds /\
  deferred ⊆ ps /\ rest ⊆ ds.
Proof.
  induction 1 as [ds|p ps before d after splits used settled deferred rest
                    Hbefore [Hamt Hts] _ (IH1 & IH2 & IH3 & IH4 & IH5)
                 |p ps ds splits used settled deferred rest
                    Hnone _ (IH1 & IH2 & IH3 & IH4 & IH5)].
  - repeat split; [constructor|by unfold total_split, total_credit
                  |by unfold total_split|done..].
  - repeat split.
    + by constructor.
    + rewrite total_split_cons, total_credit_cons. simpl. lia.
    + rewrite total_split_cons. simpl. unfold total_balance in *.
      rewrite fmap_app in *. rewrite fmap_cons.
      unfold sum_amounts in *. rewrite foldr_app in *. simpl.
      revert IH3. generalize (balance <$> before).
      intros l. rewrite <- Hamt.
      assert (forall a, foldr Z.add a l = a + foldr Z.add 0 l) as Hl.
      { clear. induction l as [|x l IH]; intros a; simpl; [lia|].
        rewrite IH. lia. }
      rewrite (Hl (foldr _ _ _)), (Hl (_ + _)). lia.
    + set_solver.
    + set_solver.
  - repeat split; [done|rewrite !total_credit_cons; lia|done|set_solver|done].
Qed.


(** The two phases of a run, put together. *)
Lemma make_payment_splits_phases payments debts
    (prioritise_exact_amount_match exact_amount_match_only : bool) :
  exists splits used settled deferred rest later results,
    make_payment_splits split_manager payments debts
      prioritise_exact_amount_match exact_amount_match_only
    = Some (splits ++ later, results) /\
    (if prioritise_exact_amount_match || exact_amount_match_only
     then exact_match_phase payments debts splits used settled deferred rest
     else splits = [] /\ used = [] /\ settled = [] /\
          deferred = payments /\ rest = debts) /\
    (if exact_amount_match_only
     then later = [] /\
          results = {| fully_used_payments := used;
                       fully_paid_debts := settled;
                       remaining_payments := deferred;
                       remaining_debts := rest |}
     else greedy_loop split_manager (iterations deferred rest) deferred rest
            NoneYet NoneYet
            {| fully_used_payments := used; fully_paid_debts := settled;
               remaining_payments := []; remaining_debts := [] |}
          = Some (later, results)).
Proof.
  unfold make_payment_splits.
  destruct (prioritise_exact_amount_match || exact_amount_match_only) eqn:Hflag.
  - destruct (exact_match_loop_phase payments debts [] no_results)
      as (splits & used & settled & deferred & rest & -> & Hphase).
    destruct exact_amount_match_only.
    + simpl. eexists splits, used, settled, deferred, rest, [], _.
      rewrite app_nil_r. by repeat split.
    + cbv beta iota zeta. change ([] ++ deferred) with deferred.
      match goal with |- context [greedy_loop _ ?f ?a ?b ?c ?d ?e] =>
        destruct (greedy_loop_returns f a b c d e) as [[later results] Hloop]
      end; [unfold iterations, both_nonzero; simpl; lia|].
      rewrite Hloop.
      by exists splits, used, settled, deferred, rest, later, results.
  - apply orb_false_iff in Hflag as [_ ->].
    destruct (greedy_loop_returns (iterations payments debts) payments debts
                NoneYet NoneYet no_results)
      as [[later results] Hloop]; [unfold iterations, both_nonzero; simpl; lia|].
    rewrite Hloop.
    by exists [], [], [], payments, debts, later, results.
Qed.

(** Claim C2.  Whatever the flags, a run of [make_payment_splits] returns,
    and every split it yields, in the exact-match phase or in the generic
    one, pairs a payment with a debt that is not dated later than the
    payment; each such split passes the chronology check of
    [InternalPaymentSplit.clean]. *)
Theorem emitted_splits_chronological payments debts
    (prioritise_exact_amount_match exact_amount_match_only : bool) :
  exists splits results,
    make_payment_splits split_manager payments debts
      prioritise_exact_amount_match exact_amount_match_only
    = Some (splits, results) /\
    Forall (fun s => timestamp (split_debt s) <= timestamp (split_payment s)
                     /\ applied_to_future_debt s = false) splits.
Proof.
  destruct (make_payment_splits_phases payments debts
              prioritise_exact_amount_match exact_amount_match_only)
    as (splits & used & settled & deferred & rest & later & results
        & Hrun & Hexact & Hgreedy).
  exists (splits ++ later), results. split; [done|].
  assert (Forall chronological (splits ++ later)) as Hall.
  { apply Forall_app. split.
    - destruct (_ || _).
      + by apply exact_match_phase_facts in Hexact as [? _].
      + destruct Hexact as [-> _]. constructor.
    - destruct exact_amount_match_only.
      + destruct Hgreedy as [-> _]. constructor.
      + apply greedy_loop_splits in Hgreedy.
        eapply Forall_impl; [exact Hgreedy|]. by intros s [? _]. }
  eapply Forall_impl; [exact Hall|]. intros s Hs. split; [exact Hs|].
  unfold applied_to_future_debt. apply Z.ltb_ge. exact Hs.
Qed.

Lemma total_credit_unsplit ps :
  Forall (fun p : BasePaymentRecord =>
            0 <= total_amount p /\ credit_remaining p = total_amount p) ps ->
  total_credit ps = total_payments ps /\
  Forall (fun p => 0 <= credit_remaining p) ps.
Proof.
  induction 1 as [|p ps [Hp Heq] _ [IH1 IH2]]; [done|]. split.
  - rewrite total_credit_cons, IH1, Heq. reflexivity.
  - constructor; [lia|done].
Qed.

Lemma total_balance_unsplit ds :
  Forall (fun d : BaseDebtRecord =>
            0 <= total_amount d /\ balance d = total_amount d) ds ->
  total_balance ds = total_debts ds /\
  Forall (fun d => 0 <= balance d) ds.
Proof.
  induction 1 as [|d ds [Hd Heq] _ [IH1 IH2]]; [done|]. split.
  - rewrite total_balance_cons, IH1, Heq. reflexivity.
  - constructor; [lia|done].
Qed.

(** Claim C3.  When no split exists yet, so that every payment's
    [credit_remaining] and every debt's [balance] is its [total_amount]
    (amounts are not negative, as the data model has it), a run of
    [make_payment_splits] returns and the amounts of the splits it yields
    sum to at most the sum of the payments' total amounts and to at most
    the sum of the debts' total amounts. *)
Theorem emitted_splits_conserve payments debts
    (prioritise_exact_amount_match exact_amount_match_only : bool) :
  Forall (fun p : BasePaymentRecord =>
            0 <= total_amount p /\ credit_remaining p = total_amount p)
    payments ->
  Forall (fun d : BaseDebtRecord =>
            0 <= total_amount d /\ balance d = total_amount d) debts ->
  exists splits results,
    make_payment_splits split_manager payments debts
      prioritise_exact_amount_match exact_amount_match_only
    = Some (splits, results) /\
    total_split splits <= total_payments payments /\
    total_split splits <= total_debts debts.
Proof.
  intros Hpayments Hdebts.
  apply total_credit_unsplit in Hpayments as [<- Hpayments].
  apply total_balance_unsplit in Hdebts as [<- Hdebts].
  destruct (make_payment_splits_phases payments debts
              prioritise_exact_amount_match exact_amount_match_only)
    as (splits & used & settled & deferred & rest & later & results
        & Hrun & Hexact & Hgreedy).
  exists (splits ++ later), results. split; [done|].
  assert (total_split (splits ++ later) = total_split splits + total_split later)
    as ->.
  { unfold total_split. rewrite fmap_app. unfold sum_amounts.
    rewrite foldr_app. generalize (foldr Z.add 0 (amount <$> later)).
    induction (amount <$> splits) as [|x l IH]; intros a; simpl; [lia|].
    rewrite IH. lia. }
  assert (total_split splits + total_credit deferred = total_credit payments /\
          total_split splits + total_balance rest = total_balance debts /\
          deferred ⊆ payments /\ rest ⊆ debts) as (Hc & Hb & Hps & Hds).
  { destruct (_ || _).
    - apply exact_match_phase_facts in Hexact. tauto.
    - destruct Hexact as (-> & _ & _ & -> & ->). by unfold total_split. }
  assert (Forall (fun p => 0 <= credit_remaining p) deferred) as Hdeferred.
  { apply Forall_forall. intros p Hp. rewrite Forall_forall in Hpayments.
    apply Hpayments, Hps, Hp. }
  assert (Forall (fun d => 0 <= balance d) rest) as Hrest.
  { apply Forall_forall. intros d Hd. rewrite Forall_forall in Hdebts.
    apply Hdebts, Hds, Hd. }
  assert (0 <= total_credit deferred) as Hcredit.
  { clear -Hdeferred. induction Hdeferred; [done|].
    rewrite total_credit_cons. lia. }
  assert (0 <= total_balance rest) as Hbalance.
  { clear -Hrest. induction Hrest; [done|]. rewrite total_balance_cons. lia. }
  destruct exact_amount_match_only.
  - destruct Hgreedy as [-> _]. unfold total_split at 2 4. simpl. lia.
  - apply greedy_loop_conserves in Hgreedy; simpl in *; [lia|done..].
Qed.


Lemma grows_refl res : grows res res.
Proof. by repeat split. Qed.

Lemma grows_trans a b c : grows a b -> grows b c -> grows a c.
Proof.
  intros (?&?&?&?) (?&?&?&?). repeat split; by etrans.
Qed.

Lemma grows_extend res :
  (forall xs, grows res (extend_fully_used_payments xs res)) /\
  (forall xs, grows res (extend_fully_paid_debts xs res)) /\
  (forall xs, grows res (extend_remaining_payments xs res)) /\
  (forall xs, grows res (extend_remaining_debts xs res)).
Proof.
  repeat split; simpl; try done; by apply prefix_app_r.
Qed.

Lemma look_for_unpaid_debt_grows ds : forall debt res,
  match look_for_unpaid_debt split_manager ds debt res with
  | StopIteration res' | Found _ _ _ res' => grows res res'
  end.
Proof.
  induction ds as [|d0 ds IH]; intros debt res.
  - destruct debt as [|x rem]; simpl; [apply grows_refl|].
    destruct (rem =? 0); [apply grows_extend|apply grows_refl].
  - destruct debt as [|x rem]; simpl; [apply IH|].
    destruct (rem =? 0); [|apply grows_refl].
    match goal with |- context [look_for_unpaid_debt _ ds ?h ?r] =>
      specialize (IH h r); destruct (look_for_unpaid_debt _ ds h r) end;
      (eapply grows_trans; [|exact IH]); apply grows_extend.
Qed.

Lemma look_for_recent_payment_grows ps : forall payment debt res,
  match look_for_recent_payment split_manager ps payment debt res with
  | StopIteration res' | Found _ _ _ res' => grows res res'
  end.
Proof.
  induction ps as [|p0 ps IH]; intros payment debt res.
  - destruct payment as [|x rem]; simpl; [apply grows_refl|].
    destruct (rem =? 0); simpl; [apply grows_extend|].
    destruct (timestamp x <? timestamp debt);
      [apply grows_extend|apply grows_refl].
  - destruct payment as [|x rem]; simpl; [apply IH|].
    destruct ((rem =? 0) || (timestamp x <? timestamp debt));
      [|apply grows_refl].
    match goal with |- context [look_for_recent_payment _ ps ?h ?d ?r] =>
      specialize (IH h d r); destruct (look_for_recent_payment _ ps h d r) end;
      (eapply grows_trans; [|exact IH]); destruct (rem =? 0);
      apply grows_extend.
Qed.

Lemma greedy_loop_grows fuel : forall ps ds payment debt res splits res',
  greedy_loop split_manager fuel ps ds payment debt res = Some (splits, res') ->
  grows res res'.
Proof.
  induction fuel as [|fuel IH]; intros ps ds payment debt res splits res' H;
    [discriminate|].
  simpl in H.
  pose proof (look_for_unpaid_debt_grows ds debt res) as Hd.
  destruct (look_for_unpaid_debt _ ds debt res) as [res1|d r ds' res1].
  { simplify_eq. eapply grows_trans; [exact Hd|].
    destruct payment as [|p c]; [apply grows_refl|].
    destruct (c =? 0); [apply grows_refl|apply grows_extend]. }
  pose proof (look_for_recent_payment_grows ps payment d res1) as Hp.
  destruct (look_for_recent_payment _ ps payment d res1)
    as [res2|p c ps' res2].
  { simplify_eq. eapply grows_trans; [exact Hd|].
    eapply grows_trans; [exact Hp|].
    destruct (r =? 0); [apply grows_refl|apply grows_extend]. }
  destruct (greedy_loop _ fuel _ _ _ _ _) as [[later res3]|] eqn:Hloop;
    simplify_eq.
  apply IH in Hloop.
  eapply grows_trans; [exact Hd|]. by eapply grows_trans.
Qed.

(** Claim C4.  With [prioritise_exact_amount_match] or
    [exact_amount_match_only] set, the run starts with the exact-match
    phase as the specification words it ([exact_match_phase]): payments are
    taken in order; a payment is paired with the first candidate debt whose
    balance is the payment's credit and whose timestamp is not later, by
    one split for that amount, the debt leaves the candidates, the payment
    is recorded as fully used and the debt as fully paid; any other payment
    is deferred.  The splits of the generic phase only involve deferred
    payments and remaining candidates, so a payment that had an exact match
    is never split over several debts there. *)
Theorem exact_match_has_priority payments debts
    (prioritise_exact_amount_match exact_amount_match_only : bool) :
  prioritise_exact_amount_match || exact_amount_match_only = true ->
  exists splits used settled deferred rest later results,
    exact_match_phase payments debts splits used settled deferred rest /\
    make_payment_splits split_manager payments debts
      prioritise_exact_amount_match exact_amount_match_only
    = Some (splits ++ later, results) /\
    used `prefix_of` fully_used_payments results /\
    settled `prefix_of` fully_paid_debts results /\
    Forall (fun s => split_payment s ∈ deferred /\ split_debt s ∈ rest) later.
Proof.
  intros Hflag.
  destruct (make_payment_splits_phases payments debts
              prioritise_exact_amount_match exact_amount_match_only)
    as (splits & used & settled & deferred & rest & later & results
        & Hrun & Hexact & Hgreedy).
  rewrite Hflag in Hexact.
  exists splits, used, settled, deferred, rest, later, results.
  split; [done|]. split; [done|].
  destruct exact_amount_match_only.
  - destruct Hgreedy as [-> ->]. simpl. repeat split; [done..|constructor].
  - pose proof (greedy_loop_grows _ _ _ _ _ _ _ _ Hgreedy) as (Hu & Hs & _).
    apply greedy_loop_splits in Hgreedy. repeat split; [done..|].
    eapply Forall_impl; [exact Hgreedy|]. simpl. by intros s (_ & ? & ?).
Qed.

(** *** What the result reports *)
Lemma reported_extend results :
  (forall xs, reported_payments (extend_fully_used_payments xs results)
              ≡ₚ reported_payments results ++ xs) /\
  (forall xs, reported_payments (extend_remaining_payments xs results)
              ≡ₚ reported_payments results ++ xs) /\
  (forall xs, reported_debts (extend_fully_paid_debts xs results)
              ≡ₚ reported_debts results ++ xs) /\
  (forall xs, reported_debts (extend_remaining_debts xs results)
              ≡ₚ reported_debts results ++ xs).
Proof.
  unfold reported_payments, reported_debts. split_and!; intros xs; simpl.
  - rewrite <- !app_assoc. f_equiv. apply Permutation_app_comm.
  - by rewrite app_assoc.
  - rewrite <- !app_assoc. f_equiv. apply Permutation_app_comm.
  - by rewrite app_assoc.
Qed.

(** The debt loop reports, as fully paid, every debt that it leaves
    behind, and touches no payment. *)
Lemma look_for_unpaid_debt_reports ds : forall debt res,
  match look_for_unpaid_debt split_manager ds debt res with
  | StopIteration res' =>
      reported_debts res' ≡ₚ reported_debts res ++ in_hand debt ++ ds /\
      reported_payments res' = reported_payments res
  | Found d _ ds' res' =>
      reported_debts res' ++ d :: ds'
        ≡ₚ reported_debts res ++ in_hand debt ++ ds /\
      reported_payments res' = reported_payments res
  end.
Proof.
  induction ds as [|d0 ds IH]; intros debt res.
  - destruct debt as [|x rem]; simpl; [by rewrite app_nil_r|].
    destruct (rem =? 0); [|done]. split; [|done].
    apply reported_extend.
  - destruct debt as [|x rem]; simpl.
    + specialize (IH (Current d0 (balance d0)) res).
      by destruct (look_for_unpaid_debt _ ds _ res).
    + destruct (rem =? 0); [|done].
      specialize (IH (Current d0 (balance d0))
                    (extend_fully_paid_debts [x] res)).
      destruct (look_for_unpaid_debt _ ds _ _) as [res'|d r ds' res'];
        destruct IH as [IH ->]; (split; [|done]); rewrite IH;
        rewrite (proj1 (proj2 (proj2 (reported_extend res))));
        by rewrite <- app_assoc.
Qed.

Lemma look_for_recent_payment_reports ps : forall payment debt res,
  match look_for_recent_payment split_manager ps payment debt res with
  | StopIteration res' =>
      reported_payments res'
        ≡ₚ reported_payments res ++ in_hand payment ++ ps /\
      reported_debts res' = reported_debts res
  | Found p _ ps' res' =>
      reported_payments res' ++ p :: ps'
        ≡ₚ reported_payments res ++ in_hand payment ++ ps /\
      reported_debts res' = reported_debts res
  end.
Proof.
  induction ps as [|p0 ps IH]; intros payment debt res.
  - destruct payment as [|x rem]; simpl; [by rewrite app_nil_r|].
    destruct ((rem =? 0) || (timestamp x <? timestamp debt)); [|done].
    destruct (rem =? 0); (split; [|done]); apply reported_extend.
  - destruct payment as [|x rem]; simpl.
    + specialize (IH (Current p0 (credit_remaining p0)) debt res).
      by destruct (look_for_recent_payment _ ps _ debt res).
    + destruct ((rem =? 0) || (timestamp x <? timestamp debt)); [|done].
      match goal with |- context [look_for_recent_payment _ ps ?h debt ?r] =>
        specialize (IH h debt r);
        destruct (look_for_recent_payment _ ps h debt r)
          as [res'|p c ps' res'] end;
        destruct IH as [IH ->]; rewrite IH;
        destruct (rem =? 0); (split; [|done]);
        rewrite ?(proj1 (reported_extend res)),
          ?(proj1 (proj2 (reported_extend res)));
        by rewrite <- app_assoc.
Qed.

(** No payment and no debt is reported more often than it is given. *)
Lemma greedy_loop_reports fuel : forall ps ds payment debt res splits res',
  greedy_loop split_manager fuel ps ds payment debt res = Some (splits, res') ->
  reported_payments res' ⊆+ reported_payments res ++ in_hand payment ++ ps /\
  reported_debts res' ⊆+ reported_debts res ++ in_hand debt ++ ds.
Proof.
  induction fuel as [|fuel IH]; intros ps ds payment debt res splits res' H;
    [discriminate|].
  simpl in H.
  pose proof (look_for_unpaid_debt_reports ds debt res) as Hd.
  destruct (look_for_unpaid_debt _ ds debt res) as [res1|d r ds' res1].
  { destruct Hd as [Hd Hp]. simplify_eq. split.
    - destruct payment as [|p c]; simpl; [rewrite Hp; by apply submseteq_inserts_r|].
      destruct (c =? 0).
      + rewrite Hp. by apply submseteq_inserts_r.
      + rewrite (proj1 (proj2 (reported_extend res1))), Hp.
        apply submseteq_app; [done|]. apply submseteq_skip, submseteq_nil_l.
    - assert (reported_debts
                match payment with
                | NoneYet => res1
                | Current p credit_left =>
                    if credit_left =? 0 then res1
                    else extend_remaining_payments [p] res1
                end = reported_debts res1) as ->.
      { destruct payment as [|p c]; [done|]. by destruct (c =? 0). }
      by rewrite Hd. }
  destruct Hd as [Hd Hpd].
  pose proof (look_for_recent_payment_reports ps payment d res1) as Hp.
  destruct (look_for_recent_payment _ ps payment d res1)
    as [res2|p c ps' res2].
  { destruct Hp as [Hp Hdp]. simplify_eq. split.
    - assert (reported_payments
                (if r =? 0 then res2 else extend_remaining_debts [d] res2)
              = reported_payments res2) as -> by by destruct (r =? 0).
      by rewrite Hp, Hpd.
    - rewrite <- Hd. destruct (r =? 0).
      + rewrite Hdp. by apply submseteq_inserts_r.
      + rewrite (proj2 (proj2 (proj2 (reported_extend res2)))), Hdp.
        apply submseteq_app; [done|]. apply submseteq_skip, submseteq_nil_l. }
  destruct Hp as [Hp Hdp].
  destruct (greedy_loop _ fuel _ _ _ _ _) as [[later res3]|] eqn:Hloop;
    simplify_eq.
  apply IH in Hloop as [IHp IHd]. simpl in *. split.
  - by rewrite IHp, Hp, Hpd.
  - by rewrite IHd, Hdp, Hd.
Qed.

Lemma exact_match_phase_reports ps ds splits used settled deferred rest :
  exact_match_phase ps ds splits used settled deferred rest ->
  used ++ deferred ≡ₚ ps /\ settled ++ rest ≡ₚ ds.
Proof.
  induction 1 as [ds|p ps before d after splits used settled deferred rest
                    _ _ _ [IH1 IH2]
                 |p ps ds splits used settled deferred rest _ _ [IH1 IH2]].
  - done.
  - split; simpl; [by rewrite IH1|].
    rewrite IH2. by rewrite Permutation_middle.
  - split; [|done]. by rewrite <- Permutation_middle, IH1.
Qed.

(** In any run, each list of the result reports an input item at most as
    often as it was given. *)
Lemma reported_at_most_once payments debts
    (prioritise_exact_amount_match exact_amount_match_only : bool)
    splits results :
  make_payment_splits split_manager payments debts
    prioritise_exact_amount_match exact_amount_match_only
  = Some (splits, results) ->
  reported_payments results ⊆+ payments /\ reported_debts results ⊆+ debts.
Proof.
  intros Hrun.
  destruct (make_payment_splits_phases payments debts
              prioritise_exact_amount_match exact_amount_match_only)
    as (exact & used & settled & deferred & rest & later & results'
        & Hrun' & Hexact & Hgreedy).
  rewrite Hrun in Hrun'. simplify_eq.
  assert (used ++ deferred ≡ₚ payments /\ settled ++ rest ≡ₚ debts)
    as [Hpayments Hdebts].
  { destruct (_ || _); [by eapply exact_match_phase_reports|].
    by destruct Hexact as (_ & -> & -> & -> & ->). }
  destruct exact_amount_match_only.
  - destruct Hgreedy as [_ ->]. unfold reported_payments, reported_debts.
    simpl. by rewrite Hpayments, Hdebts.
  - apply greedy_loop_reports in Hgreedy as [Hp Hd].
    unfold reported_payments, reported_debts in *. simpl in *.
    rewrite !app_nil_r in *. by rewrite <- Hpayments, <- Hdebts.
Qed.

(** With [exact_amount_match_only] every input item is reported exactly
    once. *)
Lemma exact_only_reports_all payments debts
    (prioritise_exact_amount_match : bool) splits results :
  make_payment_splits split_manager payments debts
    prioritise_exact_amount_match true = Some (splits, results) ->
  reported_payments results ≡ₚ payments /\ reported_debts results ≡ₚ debts.
Proof.
  intros Hrun.
  destruct (make_payment_splits_phases payments debts
              prioritise_exact_amount_match true)
    as (exact & used & settled & deferred & rest & later & results'
        & Hrun' & Hexact & _ & ->).
  rewrite Hrun in Hrun'. simplify_eq. rewrite orb_true_r in Hexact.
  by apply exact_match_phase_reports in Hexact.
Qed.

End engine_facts.

Section engine_examples.
Import base bulk_utils apportionment scenarios.

Lemma emitted_splits_conserve_witness :
  Forall (fun p : BasePaymentRecord =>
            0 <= total_amount p /\
            credit_remaining no_splits p = total_amount p) S3_payments /\
  Forall (fun d : BaseDebtRecord =>
            0 <= total_amount d /\ balance no_splits d = total_amount d)
    S3_debts /\
  exists splits results,
    make_payment_splits no_splits S3_payments S3_debts true false
    = Some (splits, results) /\
    total_split splits <= total_payments S3_payments /\
    total_split splits <= total_debts S3_debts.
Proof.
  assert (Forall (fun p : BasePaymentRecord =>
                    0 <= total_amount p /\
                    credit_remaining no_splits p = total_amount p)
            S3_payments) as Hpayments.
  { repeat constructor; vm_compute; congruence. }
  assert (Forall (fun d : BaseDebtRecord =>
                    0 <= total_amount d /\
                    balance no_splits d = total_amount d) S3_debts)
    as Hdebts.
  { repeat constructor; vm_compute; congruence. }
  split; [exact Hpayments|]. split; [exact Hdebts|].
  exact (emitted_splits_conserve no_splits S3_payments S3_debts true false
           Hpayments Hdebts).
Defined.

Lemma exact_match_has_priority_witness :
  true || false = true /\
  exists splits used settled deferred rest later results,
    exact_match_phase no_splits S1_payments S1_debts
      splits used settled deferred rest /\
    make_payment_splits no_splits S1_payments S1_debts true false
    = Some (splits ++ later, results) /\
    used `prefix_of` fully_used_payments results /\
    settled `prefix_of` fully_paid_debts results /\
    Forall (fun s => split_payment s ∈ deferred /\ split_debt s ∈ rest) later.
Proof.
  split; [reflexivity|].
  apply (exact_match_has_priority no_splits S1_payments S1_debts true false).
  reflexivity.
Defined.

(** Claim C1, at a member who pays 10.00 and owes nothing (default flags).
    The payment is deferred by the exact-match phase; the generic phase
    finds no debt and bails out before it ever takes the payment in hand,
    so the payment is reported in neither [fully_used_payments] nor
    [remaining_payments]. *)
Theorem payment_without_debt_is_not_reported :
  exists results,
    make_payment_splits no_splits [lone_payment] [] true false
    = Some ([], results) /\
    (lone_payment ∉ fully_used_payments results) /\
    (lone_payment ∉ remaining_payments results).
Proof.
  exists no_results. split; [reflexivity|]. split; apply not_elem_of_nil.
Qed.

(** The same loss for a payment that two debts use up, and for a debt that
    is never reached once the payments are exhausted. *)
Example used_up_payment_is_not_reported :
  make_payment_splits no_splits [new_payment 2 1000]
    [unpaid_debt 1 0 400; unpaid_debt 2 0 600] true false
  = Some ([ {| split_payment := new_payment 2 1000;
               split_debt := unpaid_debt 1 0 400; amount := 400 |};
            {| split_payment := new_payment 2 1000;
               split_debt := unpaid_debt 2 0 600; amount := 600 |} ],
          {| fully_used_payments := [];
             fully_paid_debts := [unpaid_debt 1 0 400; unpaid_debt 2 0 600];
             remaining_payments := []; remaining_debts := [] |}).
Proof. reflexivity. Qed.

Example unreached_debt_is_not_reported :
  make_payment_splits no_splits [new_payment 2 1000]
    [unpaid_debt 1 5 600; unpaid_debt 2 6 100] false false
  = Some ([],
          {| fully_used_payments := []; fully_paid_debts := [];
             remaining_payments := [new_payment 2 1000];
             remaining_debts := [unpaid_debt 1 5 600] |}).
Proof. reflexivity. Qed.

(** With [exact_amount_match_only] the sibling path reports everything
    that is left. *)
Example exact_only_reports_the_rest :
  make_payment_splits no_splits [lone_payment] [unpaid_debt 1 0 400] false true
  = Some ([],
          {| fully_used_payments := []; fully_paid_debts := [];
             remaining_payments := [lone_payment];
             remaining_debts := [unpaid_debt 1 0 400] |}).
Proof. reflexivity. Qed.

(** Scenarios S1, S2 and S3 of section 8. *)
Example scenario_S1 :
  fst <$> make_payment_splits no_splits S1_payments S1_debts true false
  = Some [ {| split_payment := new_payment 1 5000;
              split_debt := unpaid_debt 2 0 5000; amount := 5000 |};
           {| split_payment := new_payment 2 3000;
              split_debt := unpaid_debt 1 0 3000; amount := 3000 |} ].
Proof. reflexivity. Qed.

Example scenario_S2 :
  fst <$> make_payment_splits no_splits S2_payments S2_debts true false
  = Some [ {| split_payment := new_payment 1 2000;
              split_debt := unpaid_debt 2 0 2000; amount := 2000 |} ].
Proof. reflexivity. Qed.

Example scenario_S3 :
  make_payment_splits no_splits S3_payments S3_debts true false
  = Some ([ {| split_payment := new_payment 2 10000;
               split_debt := unpaid_debt 1 0 3000; amount := 3000 |};
            {| split_payment := new_payment 2 10000;
               split_debt := unpaid_debt 2 1 4000; amount := 4000 |};
            {| split_payment := new_payment 2 10000;
               split_debt := unpaid_debt 3 2 5000; amount := 3000 |} ],
          {| fully_used_payments := [new_payment 2 10000];
             fully_paid_debts := [unpaid_debt 1 0 3000; unpaid_debt 2 1 4000];
             remaining_payments := [];
             remaining_debts := [unpaid_debt 3 2 5000] |}).
Proof. reflexivity. Qed.

End engine_examples.

(** * Properties of the duplicate detector *)
Section dedup_facts.
Import base internal preparator dedup.
Variable localdate : Z -> Z.
Variable _dt_fallback : Z -> Z.

Local Abbreviation dupcheck_signature := (internal.dupcheck_signature localdate).
Local Abbreviation signature_of := (dedup.signature_of localdate).
Local Abbreviation batch_bucket := (dedup.batch_bucket localdate).
Local Abbreviation grouped := (dedup.grouped localdate).
Local Abbreviation import_buckets_of := (preparator.import_buckets_of localdate).
Local Abbreviation occ_hist := (dedup.occ_hist localdate _dt_fallback).
Local Abbreviation occ_import := (dedup.occ_import localdate).
Local Abbreviation passed := (dedup.passed localdate _dt_fallback).
Local Abbreviation reported := (dedup.reported localdate _dt_fallback).
Local Abbreviation validate_global :=
  (preparator.validate_global localdate _dt_fallback).

(** *** The historical buckets count occurrences *)
Lemma occurrences_count (qs : list InternalPayment) :
  forall (buckets : gmap Signature nat) (sig : Signature),
  occurrences
    (foldl (fun historical_buckets entry =>
              <[dupcheck_signature entry :=
                  S (occurrences historical_buckets (dupcheck_signature entry))]>
                historical_buckets) buckets qs) sig
  = (occurrences buckets sig
     + length (filter (fun entry => dupcheck_signature entry = sig) qs))%nat.
Proof.
  induction qs as [|entry qs IH]; intros buckets sig; simpl; [lia|].
  rewrite IH, filter_cons. unfold occurrences at 1.
  destruct (decide (dupcheck_signature entry = sig)) as [->|Hne].
  - rewrite lookup_insert_eq. simpl. lia.
  - rewrite lookup_insert_ne by done. reflexivity.
Qed.

Lemma dupcheck_buckets_occ_hist history first others sig :
  occurrences
    (dupcheck_buckets localdate _dt_fallback history
       (Some (date_bounds localdate first others))) sig
  = occ_hist history (first :: others) sig.
Proof.
  unfold dupcheck_buckets, dedup.occ_hist, consulted.
  destruct (date_bounds localdate first others) as [lower upper] eqn:Hb.
  rewrite occurrences_count. unfold occurrences.
  rewrite lookup_empty. reflexivity.
Qed.

(** *** Grouping *)
Lemma batch_bucket_snoc sig batch t :
  batch_bucket sig (batch ++ [t])
  = batch_bucket sig batch ++ (if decide (signature_of t = sig) then [t] else []).
Proof. unfold dedup.batch_bucket. by rewrite filter_app. Qed.

Lemma grouped_snoc_other keys batch t :
  signature_of t ∉ keys -> grouped keys (batch ++ [t]) = grouped keys batch.
Proof.
  intros Hnot. unfold dedup.grouped. apply list_fmap_ext.
  intros i sig Hsig. rewrite batch_bucket_snoc.
  destruct (decide (signature_of t = sig)) as [<-|_]; [|by rewrite app_nil_r].
  destruct Hnot. by eapply list_elem_of_lookup_2.
Qed.

Lemma bucket_append_grouped keys batch t :
  NoDup keys ->
  bucket_append (signature_of t) t (grouped keys batch)
  = if decide (signature_of t ∈ keys) then grouped keys (batch ++ [t])
    else grouped keys (batch ++ [t]) ++ [(signature_of t, [t])].
Proof.
  induction 1 as [|key keys Hkey Hkeys IH]; simpl.
  - reflexivity.
  - change (grouped (key :: keys) ?b)
      with ((key, batch_bucket key b) :: grouped keys b).
    destruct (decide (key = signature_of t)) as [->|Hne].
    + rewrite decide_True by left.
      rewrite (grouped_snoc_other keys) by done.
      by rewrite batch_bucket_snoc, decide_True.
    + rewrite batch_bucket_snoc.
      rewrite (decide_False (P := signature_of t = key)) by congruence.
      rewrite app_nil_r, IH.
      destruct (decide (signature_of t ∈ keys)) as [Hin|Hnin].
      * by rewrite decide_True by by right.
      * rewrite decide_False; [done|]. intros [?|?]%elem_of_cons; by simplify_eq.
Qed.

Lemma import_buckets_snoc batch t :
  import_buckets_of (batch ++ [t])
  = bucket_append (signature_of t) t (import_buckets_of batch).
Proof. unfold preparator.import_buckets_of. by rewrite foldl_snoc. Qed.

Lemma import_buckets_grouped batch :
  exists keys,
    NoDup keys /\
    (forall sig, sig ∈ keys <-> batch_bucket sig batch <> []) /\
    import_buckets_of batch = grouped keys batch.
Proof.
  induction batch as [|t batch (keys & Hnodup & Hkeys & IH)] using rev_ind.
  - exists []. split_and!; [constructor| |done].
    intros sig. split; [by intros ?%elem_of_nil|done].
  - rewrite import_buckets_snoc, IH, bucket_append_grouped by done.
    destruct (decide (signature_of t ∈ keys)) as [Hin|Hnin].
    + exists keys. split_and!; [done| |done].
      intros sig. rewrite Hkeys, batch_bucket_snoc. split.
      * intros Hne Happ. by apply app_eq_nil in Happ as [? _].
      * intros Hne Hnil. apply Hkeys in Hin. apply Hne. rewrite Hnil. simpl.
        by destruct (decide (signature_of t = sig)) as [<-|].
    + exists (keys ++ [signature_of t]). split_and!.
      * apply NoDup_app. split_and!; [done| |apply NoDup_singleton].
        by intros sig Hsig ->%list_elem_of_singleton.
      * intros sig. rewrite batch_bucket_snoc, elem_of_app, Hkeys,
          list_elem_of_singleton.
        destruct (decide (signature_of t = sig)) as [<-|Hother].
        -- split; [|by right]. intros _ Happ.
           by apply app_eq_nil in Happ as [_ ?].
        -- rewrite app_nil_r. split; [by intros [?|?]|by left].
      * unfold dedup.grouped at 2. rewrite fmap_app. simpl.
        rewrite batch_bucket_snoc, decide_True by done.
        assert (batch_bucket (signature_of t) batch = []) as ->; [|done].
        destruct (batch_bucket (signature_of t) batch) eqn:E; [done|].
        destruct Hnin. apply Hkeys. by rewrite E.
Qed.

(** *** Stripping *)
Lemma strip_duplicates_grouped history batch historical_buckets keys :
  (forall sig, occurrences historical_buckets sig = occ_hist history batch sig) ->
  forall _errors,
  strip_duplicates historical_buckets (grouped keys batch) _errors
  = (concat (passed history batch <$> keys),
     reverse (reported history batch
                <$> filter (fun sig => occ_hist history batch sig <> 0%nat) keys)
     ++ _errors).
Proof.
  intros Hocc. induction keys as [|key keys IH]; intros _errors; [done|].
  simpl. rewrite Hocc, filter_cons.
  destruct (decide (occ_hist history batch key = 0%nat)) as [Hz|Hnz].
  - rewrite IH, decide_False by (intros ?; done). reflexivity.
  - rewrite IH, decide_True by done.
    rewrite fmap_cons, reverse_cons, <- app_assoc. reflexivity.
Qed.

Lemma passed_signature history batch sig :
  Forall (fun t => signature_of t = sig) (passed history batch sig).
Proof.
  apply Forall_forall. intros t Ht. unfold dedup.passed in Ht.
  apply (subseteq_drop _ _ t) in Ht.
  by apply list_elem_of_filter in Ht as [? _].
Qed.

Lemma filter_one_signature key sig (l : list ValidTransaction) :
  Forall (fun t => signature_of t = key) l ->
  filter (fun t => signature_of t = sig) l = if decide (key = sig) then l else [].
Proof.
  induction 1 as [|t l Ht _ IH]; [by destruct (decide _)|].
  rewrite filter_cons, IH, Ht. by destruct (decide (key = sig)).
Qed.

Lemma filter_concat_groups (g : Signature -> list ValidTransaction) sig keys :
  (forall key, Forall (fun t => signature_of t = key) (g key)) ->
  NoDup keys ->
  filter (fun t => signature_of t = sig) (concat (g <$> keys))
  = if decide (sig ∈ keys) then g sig else [].
Proof.
  intros Hg. induction 1 as [|key keys Hkey Hkeys IH]; [done|].
  rewrite fmap_cons. simpl.
  rewrite filter_app, IH, (filter_one_signature key) by done.
  destruct (decide (key = sig)) as [->|Hne].
  - rewrite (decide_True (P := sig ∈ sig :: keys)) by left.
    rewrite (decide_False (P := sig ∈ keys)) by done.
    by rewrite app_nil_r.
  - simpl. destruct (decide (sig ∈ keys)) as [Hin|Hnin].
    + by rewrite (decide_True (P := sig ∈ key :: keys)) by by right.
    + rewrite (decide_False (P := sig ∈ key :: keys)); [done|].
      intros [?|?]%elem_of_cons; by simplify_eq.
Qed.

(** One run, whatever the batch: the buckets of the batch are stripped
    against counts that are those of the consulted history. *)
Lemma validate_global_run history batch _errors :
  exists historical_buckets,
    (forall sig,
       occurrences historical_buckets sig = occ_hist history batch sig) /\
    validate_global history batch _errors
    = strip_duplicates historical_buckets (import_buckets_of batch) _errors.
Proof.
  destruct batch as [|first others].
  - exists ∅. split; [|done]. intros sig. unfold occurrences.
    by rewrite lookup_empty.
  - eexists. split; [|reflexivity]. intros sig.
    apply dupcheck_buckets_occ_hist.
Qed.

Lemma validate_global_grouped history batch _errors :
  exists sigs,
    NoDup sigs /\
    (forall sig, sig ∈ sigs <-> batch_bucket sig batch <> []) /\
    validate_global history batch _errors
    = (concat (passed history batch <$> sigs),
       reverse (reported history batch
                  <$> filter (fun sig => occ_hist history batch sig <> 0%nat)
                        sigs)
       ++ _errors).
Proof.
  destruct (import_buckets_grouped batch) as (sigs & Hnodup & Hsigs & Hgroup).
  destruct (validate_global_run history batch _errors) as (H & Hocc & ->).
  exists sigs. split_and!; [done..|].
  rewrite Hgroup. by apply strip_duplicates_grouped.
Qed.


(** *** A second run on the survivors *)
Lemma bucket_append_last sig t transactions import_buckets :
  sig ∉ import_buckets.*1 ->
  bucket_append sig t (import_buckets ++ [(sig, transactions)])
  = import_buckets ++ [(sig, transactions ++ [t])].
Proof.
  induction import_buckets as [|[key ts] later IH]; intros Hnot; simpl.
  - by rewrite decide_True.
  - rewrite fmap_cons, not_elem_of_cons in Hnot. destruct Hnot as [Hne Hnot].
    simpl in Hne. rewrite decide_False by congruence. by rewrite IH.
Qed.

Lemma bucket_append_fresh sig t import_buckets :
  sig ∉ import_buckets.*1 ->
  bucket_append sig t import_buckets = import_buckets ++ [(sig, [t])].
Proof.
  induction import_buckets as [|[key ts] later IH]; intros Hnot; simpl; [done|].
  rewrite fmap_cons, not_elem_of_cons in Hnot. destruct Hnot as [Hne Hnot].
  simpl in Hne. rewrite decide_False by congruence. by rewrite IH.
Qed.

Local Abbreviation fill :=
  (foldl (fun import_buckets t =>
            bucket_append (signature_of t) t import_buckets)).

Lemma fill_open_bucket sig l : forall transactions import_buckets,
  sig ∉ import_buckets.*1 ->
  Forall (fun t => signature_of t = sig) l ->
  fill (import_buckets ++ [(sig, transactions)]) l
  = import_buckets ++ [(sig, transactions ++ l)].
Proof.
  induction l as [|t l IH]; intros transactions import_buckets Hnot Hl; simpl.
  - by rewrite app_nil_r.
  - apply Forall_cons in Hl as [-> Hl].
    rewrite bucket_append_last, IH by done. by rewrite <- app_assoc.
Qed.

Lemma fill_groups (g : Signature -> list ValidTransaction) keys :
  (forall key, Forall (fun t => signature_of t = key) (g key)) ->
  NoDup keys ->
  forall import_buckets,
  (forall key, key ∈ keys -> key ∉ import_buckets.*1) ->
  fill import_buckets (concat (g <$> keys))
  = import_buckets
    ++ ((fun key => (key, g key)) <$> filter (fun key => g key <> []) keys).
Proof.
  intros Hg. induction 1 as [|key keys Hkey Hkeys IH]; intros B Hfresh; simpl.
  - by rewrite app_nil_r.
  - rewrite foldl_app, filter_cons.
    assert (key ∉ B.*1) as HkeyB by (apply Hfresh; left).
    destruct (g key) as [|t l] eqn:E.
    + rewrite decide_False by (intros ?; done). simpl.
      apply IH. intros k Hk. apply Hfresh. by right.
    + rewrite decide_True by done. simpl.
      specialize (Hg key). rewrite E in Hg.
      apply Forall_cons in Hg as [Ht Hl].
      rewrite Ht, bucket_append_fresh, fill_open_bucket by done.
      rewrite IH, <- app_assoc, E; [done|].
      intros k Hk. rewrite fmap_app, not_elem_of_app. split.
      * apply Hfresh. by right.
      * simpl. rewrite list_elem_of_singleton. by intros ->.
Qed.

Lemma strip_duplicates_reports historical_buckets import_buckets :
  forall _errors,
  length (strip_duplicates historical_buckets import_buckets _errors).2
  = (length (filter (fun b : Signature * list ValidTransaction =>
                       occurrences historical_buckets b.1 <> 0%nat)
               import_buckets)
     + length _errors)%nat.
Proof.
  induction import_buckets as [|[sig ts] later IH]; intros _errors; [done|].
  simpl. rewrite filter_cons. simpl.
  match goal with |- context [strip_duplicates _ later ?e] =>
    specialize (IH e); destruct (strip_duplicates _ later e) as [y e'] end.
  simpl in *. rewrite IH.
  destruct (decide (occurrences historical_buckets sig = 0%nat)).
  - by rewrite decide_False by (intros ?; done).
  - rewrite decide_True by done. simpl. lia.
Qed.

Lemma strip_duplicates_unseen historical_buckets import_buckets :
  Forall (fun b : Signature * list ValidTransaction =>
            occurrences historical_buckets b.1 = 0%nat) import_buckets ->
  forall _errors,
  strip_duplicates historical_buckets import_buckets _errors
  = (concat (snd <$> import_buckets), _errors).
Proof.
  induction 1 as [|[sig ts] later Hsig _ IH]; intros _errors; [done|].
  simpl in *. rewrite Hsig, decide_True, IH by done. reflexivity.
Qed.

Lemma elem_of_concat {A} (x : A) (ls : list (list A)) :
  x ∈ concat ls <-> exists l, l ∈ ls /\ x ∈ l.
Proof.
  induction ls as [|l0 ls IH]; simpl.
  - split; [by intros ?%elem_of_nil|by intros (l & ?%elem_of_nil & _)].
  - rewrite elem_of_app, IH. split.
    + intros [?|(l & ? & ?)]; [exists l0; split; [left|done]|].
      exists l. split; [by right|done].
    + intros (l & [->|?]%elem_of_cons & ?); [by left|right; by exists l].
Qed.

Lemma concat_skip_empty (g : Signature -> list ValidTransaction) keys :
  concat (g <$> filter (fun key => g key <> []) keys) = concat (g <$> keys).
Proof.
  induction keys as [|key keys IH]; [done|].
  rewrite filter_cons. destruct (decide (g key <> [])) as [Hne|He].
  - rewrite !fmap_cons. cbn [concat]. by rewrite IH.
  - rewrite fmap_cons. cbn [concat]. rewrite IH.
    destruct (g key); [done|by destruct He].
Qed.

(** Claim C6, amended.  Applying [validate_global] again to the survivors
    and to the errors of a first application, against the same stored
    history, changes neither of them if and only if no survivor's signature
    occurs in the history consulted by the second application; otherwise
    the second application drops further rows and records further
    errors. *)
Theorem validate_global_again history batch _errors :
  let first := validate_global history batch _errors in
  validate_global history first.1 first.2 = first <->
  (forall t, t ∈ first.1 -> occ_hist history first.1 (signature_of t) = 0%nat).
Proof.
  destruct (validate_global_grouped history batch _errors)
    as (sigs & Hnodup & _ & ->). simpl.
  set (survivors := concat (passed history batch <$> sigs)).
  set (errors1 := reverse _ ++ _errors).
  destruct (validate_global_run history survivors errors1)
    as (H2 & Hocc & ->).
  assert (import_buckets_of survivors
          = (fun key => (key, passed history batch key))
              <$> filter (fun key => passed history batch key <> []) sigs)
    as ->.
  { unfold preparator.import_buckets_of, survivors.
    rewrite (fill_groups (passed history batch) sigs);
      [done|apply passed_signature|done|].
    intros key _. apply not_elem_of_nil. }
  set (buckets := _ <$> filter _ sigs).
  assert (forall t, t ∈ survivors ->
            exists b, b ∈ buckets /\ b.1 = signature_of t) as Hcover.
  { intros t Ht. unfold survivors in Ht.
    apply elem_of_concat in Ht as (l & Hl & Ht).
    apply list_elem_of_fmap in Hl as (key & -> & Hkey).
    exists (key, passed history batch key). split.
    - apply list_elem_of_fmap. exists key. split; [done|].
      apply list_elem_of_filter. split; [|done]. intros Hnil.
      rewrite Hnil in Ht. by apply elem_of_nil in Ht.
    - pose proof (passed_signature history batch key) as Hall.
      rewrite Forall_forall in Hall. symmetry. by apply Hall. }
  assert (forall b, b ∈ buckets -> exists t, t ∈ survivors /\ signature_of t = b.1)
    as Hback.
  { intros b Hb. apply list_elem_of_fmap in Hb as (key & -> & Hkey).
    apply list_elem_of_filter in Hkey as [Hne Hkey].
    destruct (passed history batch key) as [|t l] eqn:E; [done|].
    exists t. split.
    - apply elem_of_concat. exists (t :: l). split; [|left].
      apply list_elem_of_fmap. by exists key.
    - pose proof (passed_signature history batch key) as Hall.
      rewrite E in Hall. by apply Forall_cons in Hall as [? _]. }
  split.
  - intros Hsame t Ht.
    pose proof (strip_duplicates_reports H2 buckets errors1) as Hlen.
    rewrite Hsame in Hlen. simpl in Hlen.
    assert (filter (fun b : Signature * list ValidTransaction =>
                      occurrences H2 b.1 <> 0%nat) buckets = []) as Hnone.
    { apply length_zero_iff_nil. lia. }
    destruct (Hcover t Ht) as (b & Hb & Hsig).
    rewrite <- Hsig, <- Hocc.
    destruct (decide (occurrences H2 b.1 = 0%nat)) as [|Hnz]; [done|].
    by destruct (filter_nil_not_elem_of _ buckets b Hnone Hnz).
  - intros Hunseen. rewrite strip_duplicates_unseen.
    + f_equal. unfold buckets. rewrite <- list_fmap_compose.
      apply (concat_skip_empty (passed history batch)).
    + apply Forall_forall. intros b Hb.
      destruct (Hback b Hb) as (t & Ht & <-). rewrite Hocc. by apply Hunseen.
Qed.

End dedup_facts.

Section dedup_examples.
Import base internal preparator dedup scenarios.

(** The counterexample to claim C6 as stated: history holds one transfer,
    the batch repeats it on lines 2 and 3.  The first application keeps
    line 3 and reports lines 2 and 3; applied again to that survivor, the
    detector keeps nothing and reports line 3. *)
Lemma validate_global_twice_differs :
  (fun t : ValidTransaction => line_no t)
    <$> (validate_global localdate _dt_fallback S5_history repeated_batch []).1
  = [3] /\
  (validate_global localdate _dt_fallback S5_history repeated_batch []).2.*1
  = [[2; 3]] /\
  (validate_global localdate _dt_fallback S5_history
     (validate_global localdate _dt_fallback S5_history repeated_batch []).1
     []).1 = [] /\
  (validate_global localdate _dt_fallback S5_history
     (validate_global localdate _dt_fallback S5_history repeated_batch []).1
     []).2.*1 = [[3]].
Proof. by vm_compute. Qed.

(** A batch whose survivors history does not know is left alone by a second
    application: line 2 repeats the stored transfer, line 3 is a transfer
    by another member. *)
Example validate_global_again_stable :
  (validate_global localdate _dt_fallback S5_history
     [transfer_row 2 0 1000 7; transfer_row 3 0 1000 8] []).1
  = [transfer_row 3 0 1000 8] /\
  validate_global localdate _dt_fallback S5_history
    (validate_global localdate _dt_fallback S5_history
       [transfer_row 2 0 1000 7; transfer_row 3 0 1000 8] []).1
    (validate_global localdate _dt_fallback S5_history
       [transfer_row 2 0 1000 7; transfer_row 3 0 1000 8] []).2
  = validate_global localdate _dt_fallback S5_history
      [transfer_row 2 0 1000 7; transfer_row 3 0 1000 8] [].
Proof. by vm_compute. Qed.

(** Scenario S5: one row that matches one historical payment is dropped,
    with the wording for a single duplicate. *)
Example scenario_S5 :
  (validate_global localdate _dt_fallback S5_history S5_batch []).1 = [] /\
  (fun e : Error => (e.1, template e.2))
    <$> (validate_global localdate _dt_fallback S5_history S5_batch []).2
  = [([2], single_dup_message)].
Proof. by vm_compute. Qed.

End dedup_examples.

(** * Properties of the pricing-rule matcher *)
Section pricing_facts.
Import complex_pricing.

(** Induction along the chain of parents. *)
Lemma ActivityOption_chain_ind (P : ActivityOption -> Prop) :
  (forall slug bound act_pk, P (MkActivityOption slug None bound act_pk)) ->
  (forall slug p bound act_pk,
     P p -> P (MkActivityOption slug (Some p) bound act_pk)) ->
  forall opt, P opt.
Proof.
  intros Hroot Hchild.
  fix go 1. intros [s [p|] b k]; [apply Hchild, go|apply Hroot].
Qed.

(** [__eq__] decides equality of options. *)
Lemma option_eq_spec self : forall other,
  option_eq self other = true <-> self = other.
Proof.
  induction self as [s b k|s p b k IH] using ActivityOption_chain_ind;
    intros [s' [p'|] b' k']; simpl;
    rewrite ?andb_true_iff, ?bool_decide_eq_true, ?IH;
    split; try (intros; simplify_eq; done); try (intros; naive_solver).
Qed.

(** [item in criterium] holds exactly when [criterium] is an ancestor of
    [item]; an option does not contain itself. *)
Lemma contains_ancestor criterium item :
  contains criterium item = true <-> ancestor_of criterium item.
Proof.
  induction item as [s b k|s p b k IH] using ActivityOption_chain_ind; simpl.
  - split; [done|]. inversion 1; simplify_eq/=.
  - rewrite orb_true_iff, option_eq_spec, IH. split.
    + intros [->|Hp]; [by constructor|]. by eapply ancestor_further.
    + inversion 1 as [x Hx|x q Hq Hanc]; simplify_eq/=; auto.
Qed.

Lemma is_matched_spec held criterium :
  is_matched held criterium = true
  <-> Exists (fun opt => ancestor_of criterium opt) held.
Proof.
  unfold is_matched. induction held as [|opt held IH]; simpl.
  - split; [done|inversion 1].
  - rewrite orb_true_iff, contains_ancestor, IH, Exists_cons. done.
Qed.

Lemma case_matches_spec held criteria :
  forallb (is_matched held) criteria = true <-> case_matches held criteria.
Proof.
  unfold case_matches. induction criteria as [|criterium criteria IH]; simpl.
  - split; [constructor|done].
  - rewrite andb_true_iff, is_matched_spec, IH, Forall_cons. done.
Qed.

Lemma first_matching_rule_spec held rules :
  match first_matching_rule held rules with
  | Some pricing_data =>
      exists before criteria after,
        rules = before ++ (criteria, pricing_data) :: after /\
        Forall (fun case => ~ case_matches held case.1) before /\
        case_matches held criteria
  | None => Forall (fun case => ~ case_matches held case.1) rules
  end.
Proof.
  induction rules as [|[criteria pricing_data] later IH]; simpl; [constructor|].
  destruct (forallb (is_matched held) criteria) eqn:Hcase.
  - apply case_matches_spec in Hcase. by exists [], criteria, later.
  - assert (~ case_matches held criteria) as Hnot.
    { rewrite <- case_matches_spec. by rewrite Hcase. }
    destruct (first_matching_rule held later) as [found|].
    + destruct IH as (before & criteria' & after & -> & Hbefore & Hfound).
      exists ((criteria, pricing_data) :: before), criteria', after.
      split_and!; [done| |done]. by constructor.
    + by constructor.
Qed.

(** Claim C8.  For a pricing rule whose specification has been parsed into
    [rules], and for held options [held], [opts_match] returns the pricing
    data of the first case, in the order of the specification, all of whose
    criteria are an ancestor of at least one held option (no earlier case
    matches); if no case matches, it returns the pricing data made of the
    rule's [no_match_default], its description and its default filter
    slug. *)
Theorem opts_match_first_case (self : PricingRule) rules held :
  _matching_rules self = Some rules ->
  (exists before criteria pricing_data after,
     rules = before ++ (criteria, pricing_data) :: after /\
     Forall (fun case => ~ case_matches held case.1) before /\
     case_matches held criteria /\
     opts_match self held = Returned pricing_data)
  \/ (Forall (fun case => ~ case_matches held case.1) rules /\
      opts_match self held = Returned (default_pricing self)).
Proof.
  intros Hparsed. unfold opts_match. rewrite Hparsed.
  pose proof (first_matching_rule_spec held rules) as Hfirst.
  destruct (first_matching_rule held rules) as [pricing_data|].
  - left. destruct Hfirst as (before & criteria & after & ? & ? & ?).
    by exists before, criteria, pricing_data, after.
  - right. by split.
Qed.

(** Section 8, property 8: holding more options never loses a match. *)
Lemma case_matches_mono held more criteria :
  held ⊆ more -> case_matches held criteria -> case_matches more criteria.
Proof.
  intros Hsub Hheld. unfold case_matches in *.
  eapply Forall_impl; [exact Hheld|]. simpl.
  intros criterium (opt & Hopt & Hanc)%Exists_exists.
  apply Exists_exists. exists opt. split; [by apply Hsub|done].
Qed.

End pricing_facts.

Section pricing_examples.
Import complex_pricing scenarios.

Lemma opts_match_first_case_witness :
  _matching_rules S6_rule = Some S6_cases /\
  ((exists before criteria pricing_data after,
      S6_cases = before ++ (criteria, pricing_data) :: after /\
      Forall (fun case => ~ case_matches [qux] case.1) before /\
      case_matches [qux] criteria /\
      opts_match S6_rule [qux] = Returned pricing_data)
   \/ (Forall (fun case => ~ case_matches [qux] case.1) S6_cases /\
       opts_match S6_rule [qux] = Returned (default_pricing S6_rule))).
Proof.
  split; [reflexivity|].
  apply (opts_match_first_case S6_rule S6_cases [qux]). reflexivity.
Defined.

(** Scenario S6, and the same rule when an option below [/foo] and the
    option [/bar/baz/x] are held. *)
Example scenario_S6 :
  opts_match S6_rule [qux]
  = Returned {| price := 500; comment := "fee"; filter_slug := None |}.
Proof. reflexivity. Qed.

Example S6_rule_matches_descendants :
  opts_match S6_rule
    [MkActivityOption "a" (Some foo) false None;
     MkActivityOption "x" (Some baz) false None]
  = Returned {| price := 1000; comment := "fee"; filter_slug := None |}.
Proof. reflexivity. Qed.

(** Containment is strict: holding the criteria themselves is no match. *)
Example S6_rule_criteria_do_not_match_themselves :
  opts_match S6_rule [foo; baz]
  = Returned {| price := 500; comment := "fee"; filter_slug := None |}.
Proof. reflexivity. Qed.

End pricing_examples.

(** * Properties of the bank-transfer preparator *)
Section transfers_facts.
Import preparator transfers.
Variable parse_ogm : string -> option (Z * Z).
Variable parse_internal_debt_ogm : string -> Outcome Z.
Variable OGM_INTERNAL_DEBT_PREFIX : string.
Variable PAYMENT_NATURE_TRANSFER : Z.

Local Abbreviation ogm_applies := (transfers.ogm_applies parse_ogm).
Local Abbreviation model_kwargs_for_transaction :=
  (transfers.model_kwargs_for_transaction parse_ogm parse_internal_debt_ogm
     OGM_INTERNAL_DEBT_PREFIX PAYMENT_NATURE_TRANSFER).


(** A row whose reference is the party's own is kept. *)
Lemma ogm_match_keeps_row (_members_by_id : gmap Z ChoirMember)
    (t : TransactionInfo) (_errors : list Error) pk member :
  ogm_applies OGM_INTERNAL_DEBT_PREFIX (ogm t) = true ->
  0 <= amount t ->
  parse_internal_debt_ogm (ogm t) = Returned pk ->
  _members_by_id !! pk = Some member ->
  ogm t = payment_tracking_no member ->
  model_kwargs_for_transaction _members_by_id t _errors
  = (Returned (Some {| kw_total_amount := amount t;
                       kw_timestamp := timestamp t;
                       kw_member := Some member;
                       kw_nature := Some PAYMENT_NATURE_TRANSFER |}),
     _errors).
Proof.
  intros Happlies Hamount Hpk Hmember Hsame.
  unfold transfers.model_kwargs_for_transaction, transfer_kwargs,
    ledger_entry_kwargs.
  rewrite Happlies. simpl.
  destruct (amount t <? 0) eqn:Hneg; [apply Z.ltb_lt in Hneg; lia|].
  rewrite Hpk, Hmember. by rewrite bool_decide_eq_true_2.
Qed.

End transfers_facts.

Section transfers_examples.
Import preparator transfers scenarios.



End transfers_examples.

(** * Further properties of activity options and pricing rules *)
Section pricing_more.
Import complex_pricing option_paths.

Lemma contains_depth criterium item :
  contains criterium item = true -> (depth criterium < depth item)%nat.
Proof.
  induction item as [s b k|s p b k IH] using ActivityOption_chain_ind; simpl;
    [done|].
  rewrite orb_true_iff, option_eq_spec. intros [->|Hin]; [lia|].
  apply IH in Hin. lia.
Qed.

(** Property X1.  [ActivityOption.__contains__] is irreflexive: for every
    option [opt], [opt in opt] is [False], whatever its slug, parents and
    binding. *)
Theorem contains_irreflexive (opt : ActivityOption) : contains opt opt = false.
Proof.
  destruct (contains opt opt) eqn:Hin; [|done].
  apply contains_depth in Hin. lia.
Qed.

(** Property X2.  [ActivityOption.__contains__] is transitive: if [y in z]
    and [x in y] then [x in z]. *)
Theorem contains_transitive (x y z : ActivityOption) :
  contains z y = true -> contains y x = true -> contains z x = true.
Proof.
  intros Hzy. induction x as [s b k|s p b k IH] using ActivityOption_chain_ind;
    simpl; [done|].
  rewrite !orb_true_iff, !option_eq_spec. intros [->|Hyp]; [by right|].
  right. by apply IH.
Qed.

Lemma append_assoc (a b c : string) : (a +:+ b) +:+ c = a +:+ b +:+ c.
Proof.
  induction a as [|ch a IH]; [done|].
  change (String ch ((a +:+ b) +:+ c) = String ch (a +:+ b +:+ c)).
  by rewrite IH.
Qed.

(** Property X3.  If [item in criterium] then the [path] of [item] is the
    [path] of [criterium] followed by ['/'] and further components: an
    option only contains options below its own path. *)
Theorem contains_path_prefix (criterium item : ActivityOption) :
  contains criterium item = true ->
  exists below, path item = path criterium +:+ "/" +:+ below.
Proof.
  induction item as [s b k|s p b k IH] using ActivityOption_chain_ind; simpl;
    [done|].
  rewrite orb_true_iff, option_eq_spec. intros [->|Hin]; [by exists s|].
  destruct (IH Hin) as [below ->]. exists (below +:+ "/" +:+ s).
  by rewrite !append_assoc.
Qed.

(** Property X4.  A case without criteria catches every set of options: if
    the parsed rules contain a case [[] -> pricing_data], [opts_match]
    returns, for any held options, the data of that case or of a case
    before it, and never the rule's no-match default. *)
Theorem empty_case_catches_all (self : PricingRule) before pricing_data after
    held :
  _matching_rules self = Some (before ++ ([], pricing_data) :: after) ->
  exists found,
    opts_match self held = Returned found /\
    found ∈ (before ++ [([], pricing_data)]).*2.
Proof.
  intros Hparsed. unfold opts_match. rewrite Hparsed. clear Hparsed.
  induction before as [|[criteria data] before IH]; simpl.
  - exists pricing_data. split; [done|]. left.
  - destruct (forallb (is_matched held) criteria).
    + exists data. split; [done|]. left.
    + destruct IH as (found & Heq & Hin). exists found.
      split; [exact Heq|]. by right.
Qed.

Lemma is_matched_mono held more criterium :
  held ⊆ more -> is_matched held criterium = true ->
  is_matched more criterium = true.
Proof.
  intros Hsub. unfold is_matched. rewrite !existsb_exists.
  intros (opt & Hopt & Hin). exists opt. split; [|done].
  apply list_elem_of_In, Hsub, list_elem_of_In, Hopt.
Qed.

(** Property X5.  Once some case of a parsed rule matches the held options,
    holding more options still returns the pricing data of one of the
    rule's cases (possibly an earlier one), not the no-match default. *)
Theorem more_options_keep_a_match (self : PricingRule) rules held more
    criteria pricing_data :
  _matching_rules self = Some rules ->
  (criteria, pricing_data) ∈ rules ->
  forallb (is_matched held) criteria = true ->
  held ⊆ more ->
  exists found, opts_match self more = Returned found /\ found ∈ rules.*2.
Proof.
  intros Hparsed Hcase Hmatch Hsub. unfold opts_match. rewrite Hparsed.
  assert (forallb (is_matched more) criteria = true) as Hmore.
  { rewrite forallb_forall in *. intros c Hc.
    eapply is_matched_mono; [done|]. by apply Hmatch. }
  clear Hparsed Hmatch.
  induction rules as [|[criteria' data] rules IH];
    [by apply elem_of_nil in Hcase|].
  simpl. destruct (forallb (is_matched more) criteria') eqn:Hfirst.
  - exists data. split; [done|]. left.
  - apply elem_of_cons in Hcase as [Heq|Hcase]; [simplify_eq; congruence|].
    destruct (IH Hcase) as (found & Hfound & Hin).
    exists found. split; [exact Hfound|]. by right.
Qed.

End pricing_more.

Section pricing_more_examples.
Import complex_pricing option_paths scenarios more_scenarios.

Lemma contains_transitive_witness :
  contains bar baz = true /\ contains baz baz_x = true /\
  contains bar baz_x = true.
Proof.
  split; [reflexivity|]. split; [reflexivity|].
  apply (contains_transitive baz_x baz bar); reflexivity.
Defined.

Lemma contains_path_prefix_witness :
  contains bar baz_x = true /\
  exists below, path baz_x = path bar +:+ "/" +:+ below.
Proof.
  split; [reflexivity|]. apply (contains_path_prefix bar baz_x). reflexivity.
Defined.

Lemma empty_case_catches_all_witness :
  _matching_rules flat_fee_rule
  = Some ([([foo], {| price := 1000; comment := "fee"; filter_slug := None |})]
          ++ ([], {| price := 700; comment := "flat"; filter_slug := None |})
             :: []) /\
  exists found,
    opts_match flat_fee_rule [qux] = Returned found /\
    found ∈ ([([foo], {| price := 1000; comment := "fee";
                         filter_slug := None |})]
             ++ [([], {| price := 700; comment := "flat";
                         filter_slug := None |})]).*2.
Proof.
  split; [reflexivity|].
  apply (empty_case_catches_all flat_fee_rule
           [([foo], {| price := 1000; comment := "fee"; filter_slug := None |})]
           {| price := 700; comment := "flat"; filter_slug := None |} []
           [qux]).
  reflexivity.
Defined.

Lemma more_options_keep_a_match_witness :
  _matching_rules S6_rule = Some S6_cases /\
  ([foo; baz], {| price := 1000; comment := "fee"; filter_slug := None |})
    ∈ S6_cases /\
  forallb (is_matched [foo_a; baz_x]) [foo; baz] = true /\
  [foo_a; baz_x] ⊆ [qux; foo_a; baz_x] /\
  exists found,
    opts_match S6_rule [qux; foo_a; baz_x] = Returned found /\
    found ∈ S6_cases.*2.
Proof.
  assert ([foo_a; baz_x] ⊆ [qux; foo_a; baz_x]) as Hsub.
  { intros opt Hopt. by right. }
  split; [reflexivity|]. split; [left|]. split; [reflexivity|].
  split; [exact Hsub|].
  apply (more_options_keep_a_match S6_rule S6_cases [foo_a; baz_x]
           [qux; foo_a; baz_x] [foo; baz]
           {| price := 1000; comment := "fee"; filter_slug := None |});
    [reflexivity|left|reflexivity|exact Hsub].
Defined.

End pricing_more_examples.

(** * Properties of the querysets *)
Section queryset_facts.
Import base querysets.
Variable split_manager : Z -> list Z.
Context {R : Type} (columns : R -> Row).

Local Abbreviation unpaid := (querysets.unpaid split_manager columns).
Local Abbreviation paid := (querysets.paid split_manager columns).
Local Abbreviation fetch := (querysets.fetch split_manager columns).

Lemma fetch_unmatched_rows (self : QuerySet R) r :
  r ∈ fetch (unpaid self) ->
  exists row, row ∈ rows self /\
    fully_matched_annotation split_manager columns row = false /\
    r = instance split_manager columns true row.
Proof.
  unfold querysets.fetch, querysets.unpaid, unmatched, with_remote_accounts.
  intros (row & -> & Hrow)%list_elem_of_fmap.
  destruct (annotated self) eqn:Hann; simpl in *;
    apply list_elem_of_filter in Hrow as [Hfilter Hrow]; rewrite ?Hann; eauto.
Qed.

(** Property X6.  Every debt that iterating [unpaid()] yields has a
    strictly positive [balance] and its instance property [paid] is
    [False]; its [unmatched_balance] is read from the annotation, without
    the PERFORMANCE WARNING and the aggregate query of the fallback. *)
Theorem unpaid_debts_are_not_paid (self : QuerySet R) r :
  r ∈ fetch (unpaid self) ->
  0 < base.balance split_manager (Debt r) /\
  base.paid split_manager (Debt r) = false /\
  unmatched_balance split_manager r
  = (total_amount r - base.amount_paid split_manager (Debt r), []).
Proof.
  intros (row & _ & Hfilter & ->)%fetch_unmatched_rows.
  unfold fully_matched_annotation, fully_matched_fromdb in Hfilter.
  apply Z.leb_gt in Hfilter.
  unfold base.balance, base.paid, base.amount_paid, base.fully_matched,
    unmatched_balance, matched_balance. simpl.
  unfold unmatched_balance_annotation. split_and!; [lia| |done].
  apply Z.eqb_neq. lia.
Qed.


End queryset_facts.

Section debt_queryset_facts.
Import base querysets.
Variable split_manager : Z -> list Z.

Local Abbreviation owed :=
  (unmatched_balance_annotation split_manager debt_row).
Local Abbreviation tally :=
  (foldl (fun (groups : gmap (option string) Z) (row : DebtRow) =>
            <[filter_slug row :=
                default 0 (groups !! filter_slug row) + owed row]> groups)).

Lemma tally_lookup (qs : list DebtRow) :
  forall (groups : gmap (option string) Z) slug,
  default 0 (tally groups qs !! slug)
  = default 0 (groups !! slug)
    + sum_amounts (owed <$> filter (fun row => filter_slug row = slug) qs).
Proof.
  induction qs as [|row qs IH]; intros groups slug; cbn [foldl].
  - rewrite filter_nil. simpl. lia.
  - rewrite IH, filter_cons.
    destruct (decide (filter_slug row = slug)) as [->|Hne].
    + rewrite lookup_insert_eq, fmap_cons. unfold sum_amounts. cbn [foldr default from_option id].
      lia.
    + by rewrite lookup_insert_ne.
Qed.

Lemma tally_positive (qs : list DebtRow) :
  Forall (fun row => 0 < owed row) qs ->
  forall groups : gmap (option string) Z,
  map_Forall (fun _ total => 0 < total) groups ->
  map_Forall (fun _ total => 0 < total) (tally groups qs).
Proof.
  induction 1 as [|row qs Hrow _ IH]; intros groups Hgroups; simpl; [done|].
  apply IH. apply map_Forall_insert_2; [|done].
  destruct (groups !! filter_slug row) as [total|] eqn:Hl; simpl; [|lia].
  apply Hgroups in Hl. lia.
Qed.

Lemma tally_keys (qs : list DebtRow) :
  forall (groups : gmap (option string) Z) slug,
  is_Some (tally groups qs !! slug) <->
  is_Some (groups !! slug) \/ exists row, row ∈ qs /\ filter_slug row = slug.
Proof.
  induction qs as [|row qs IH]; intros groups slug; cbn [foldl].
  - split; [by left|]. intros [?|(row & []%elem_of_nil & _)]. done.
  - rewrite IH. destruct (decide (filter_slug row = slug)) as [<-|Hne].
    + rewrite lookup_insert_eq. split; [|by left; eexists].
      intros _. right. exists row. split; [left|done].
    + rewrite lookup_insert_ne by done. split.
      * intros [?|(row' & Hin & Heq)]; [by left|].
        right. exists row'. split; [by right|done].
      * intros [?|(row' & [->|Hin]%elem_of_cons & Heq)]; [by left|done|].
        right. by exists row'.
Qed.

Lemma unpaid_rows (self : QuerySet DebtRow) :
  rows (unpaid split_manager debt_row (with_payments self))
  = filter (fun row : DebtRow => 0 < owed row) (rows self).
Proof.
  unfold unpaid, unmatched, with_payments, with_remote_accounts.
  assert (forall l : list DebtRow,
    filter (fun row => fully_matched_annotation split_manager debt_row row
                       = false) l
    = filter (fun row : DebtRow => 0 < owed row) l) as Hfilter.
  { intros l. apply list_filter_iff. intros row.
    unfold fully_matched_annotation, fully_matched_fromdb,
      unmatched_balance_annotation.
    rewrite Z.leb_gt. lia. }
  destruct (annotated self) eqn:Hann; simpl; rewrite ?Hann; simpl;
    apply Hfilter.
Qed.

Lemma selected_rows (self : QuerySet DebtRow) filter_slugs :
  match filter_slugs with
  | None | Some [] =>
      rows (unpaid split_manager debt_row (with_payments self))
  | Some slugs =>
      filter (fun row => slug_in slugs row = true)
        (rows (unpaid split_manager debt_row (with_payments self)))
  end
  = filter (fun row => selects filter_slugs row = true)
      (filter (fun row : DebtRow => 0 < owed row) (rows self)).
Proof.
  rewrite unpaid_rows.
  assert (forall l : list DebtRow, filter (fun _ => true = true) l = l)
    as Hall.
  { induction l as [|row l IH]; [done|]. rewrite filter_cons_True by done.
    by rewrite IH. }
  destruct filter_slugs as [[|slug slugs]|]; simpl; by rewrite ?Hall.
Qed.



End debt_queryset_facts.

Section queryset_examples.
Import base querysets scenarios more_scenarios.

Lemma unpaid_debts_are_not_paid_witness :
  instance overmatching_splits debt_row true trip_debt
    ∈ fetch overmatching_splits debt_row
        (unpaid overmatching_splits debt_row debt_table) /\
  0 < base.balance overmatching_splits
        (Debt (instance overmatching_splits debt_row true trip_debt)) /\
  base.paid overmatching_splits
    (Debt (instance overmatching_splits debt_row true trip_debt)) = false /\
  unmatched_balance overmatching_splits
    (instance overmatching_splits debt_row true trip_debt)
  = (total_amount (instance overmatching_splits debt_row true trip_debt)
     - base.amount_paid overmatching_splits
         (Debt (instance overmatching_splits debt_row true trip_debt)), []).
Proof.
  assert (instance overmatching_splits debt_row true trip_debt
            ∈ fetch overmatching_splits debt_row
                (unpaid overmatching_splits debt_row debt_table)) as Hin.
  { vm_compute. left. }
  split; [exact Hin|].
  exact (unpaid_debts_are_not_paid overmatching_splits debt_row debt_table
           _ Hin).
Defined.

End queryset_examples.

(** * Further properties of the apportionment engine *)
Section engine_more.
Import base bulk_utils apportionment.
Variable split_manager : Z -> list Z.

Local Abbreviation balance := (base.balance split_manager).
Local Abbreviation credit_remaining := (base.credit_remaining split_manager).
Local Abbreviation exact_match_phase :=
  (apportionment.exact_match_phase split_manager).
Local Abbreviation make_payment_splits :=
  (bulk_utils.make_payment_splits split_manager).

Lemma greedy_loop_positive fuel : forall ps ds payment debt res splits res',
  greedy_loop split_manager fuel ps ds payment debt res = Some (splits, res') ->
  0 <= remaining_of payment -> 0 <= remaining_of debt ->
  Forall (fun p => 0 <= credit_remaining p) ps ->
  Forall (fun d => 0 <= balance d) ds ->
  Forall (fun s => 0 < amount s) splits.
Proof.
  induction fuel as [|fuel IH];
    intros ps ds payment debt res splits res' H Hc Hr Hps Hds; [discriminate|].
  simpl in H.
  destruct (look_for_unpaid_debt _ ds debt res) as [res1|d r ds' res1] eqn:Hd;
    [by simplify_eq|].
  destruct (look_for_recent_payment _ ps payment d res1)
    as [res2|p c ps' res2] eqn:Hp; [by simplify_eq|].
  destruct (greedy_loop _ fuel _ _ _ _ _) as [[later res3]|] eqn:Hloop;
    simplify_eq.
  pose proof (look_for_unpaid_debt_found _ _ _ _ _ _ _ _ Hd) as (Hr0 & _).
  apply look_for_unpaid_debt_suffix in Hd as [Hr' Hds']; [|done..].
  pose proof (look_for_recent_payment_found _ _ _ _ _ _ _ _ _ Hp) as (Hc0 & _).
  apply look_for_recent_payment_credit in Hp as (Hc' & _ & Hps'); [|done..].
  apply IH in Hloop; simpl; [|lia..|done|done].
  constructor; [simpl; lia|done].
Qed.

Lemma exact_match_phase_amounts ps ds splits used settled deferred rest :
  exact_match_phase ps ds splits used settled deferred rest ->
  Forall (fun s => split_payment s ∈ ps /\ split_debt s ∈ ds /\
                   amount s = credit_remaining (split_payment s) /\
                   amount s = balance (split_debt s)) splits.
Proof.
  induction 1 as [ds|p ps before d after splits used settled deferred rest
                    Hbefore [Hamt Hts] _ IH
                 |p ps ds splits used settled deferred rest Hnone _ IH].
  - constructor.
  - constructor; [simpl; set_solver|].
    eapply Forall_impl; [exact IH|]. simpl. set_solver.
  - eapply Forall_impl; [exact IH|]. simpl. set_solver.
Qed.

Lemma Forall_subseteq {A} (P : A -> Prop) (l k : list A) :
  l ⊆ k -> Forall P k -> Forall P l.
Proof. rewrite !Forall_forall. intros Hsub Hk x Hx. by apply Hk, Hsub. Qed.

(** Property X10.  When every payment has a positive [credit_remaining] and
    every debt a positive [balance], a run of [make_payment_splits] returns
    and every split it yields has a strictly positive amount, whatever the
    flags: no empty split is emitted. *)
Theorem emitted_splits_positive payments debts
    (prioritise_exact_amount_match exact_amount_match_only : bool) :
  Forall (fun p => 0 < credit_remaining p) payments ->
  Forall (fun d => 0 < balance d) debts ->
  exists splits results,
    make_payment_splits payments debts prioritise_exact_amount_match
      exact_amount_match_only = Some (splits, results) /\
    Forall (fun s => 0 < amount s) splits.
Proof.
  intros Hpayments Hdebts.
  destruct (make_payment_splits_phases split_manager payments debts
              prioritise_exact_amount_match exact_amount_match_only)
    as (exact & used & settled & deferred & rest & later & results
        & Hrun & Hexact & Hgreedy).
  exists (exact ++ later), results. split; [done|].
  assert (Forall (fun s => 0 < amount s) exact /\
          deferred ⊆ payments /\ rest ⊆ debts) as (Hfirst & Hdeferred & Hrest).
  { destruct (_ || _).
    - pose proof (exact_match_phase_amounts _ _ _ _ _ _ _ Hexact) as Hamounts.
      apply exact_match_phase_facts in Hexact as (_ & _ & _ & ? & ?).
      split; [|done]. eapply Forall_impl; [exact Hamounts|]. simpl.
      intros s (Hp & _ & -> & _). rewrite Forall_forall in Hpayments.
      by apply Hpayments.
    - destruct Hexact as (-> & _ & _ & -> & ->). by split; [constructor|]. }
  apply Forall_app. split; [done|].
  destruct exact_amount_match_only; [by destruct Hgreedy as [-> _]|].
  eapply greedy_loop_positive; [exact Hgreedy|simpl; lia..| |].
  - eapply Forall_subseteq; [exact Hdeferred|].
    eapply Forall_impl; [exact Hpayments|]. simpl. lia.
  - eapply Forall_subseteq; [exact Hrest|].
    eapply Forall_impl; [exact Hdebts|]. simpl. lia.
Qed.

(** Property X11.  Whatever the flags, a run of [make_payment_splits]
    returns, and its result reports no item more often than it was given:
    [fully_used_payments] and [remaining_payments] together are a
    sub-multiset of the payments, [fully_paid_debts] and [remaining_debts]
    together of the debts.  In particular no payment is both fully used
    and remaining. *)
Theorem run_reports_no_item_twice payments debts
    (prioritise_exact_amount_match exact_amount_match_only : bool) :
  exists splits results,
    make_payment_splits payments debts prioritise_exact_amount_match
      exact_amount_match_only = Some (splits, results) /\
    fully_used_payments results ++ remaining_payments results ⊆+ payments /\
    fully_paid_debts results ++ remaining_debts results ⊆+ debts.
Proof.
  destruct (make_payment_splits_phases split_manager payments debts
              prioritise_exact_amount_match exact_amount_match_only)
    as (exact & used & settled & deferred & rest & later & results
        & Hrun & _).
  exists (exact ++ later), results. split; [done|].
  by apply reported_at_most_once in Hrun.
Qed.

Lemma exact_match_phase_deferred ps ds splits used settled deferred rest :
  exact_match_phase ps ds splits used settled deferred rest ->
  Forall (fun p => Forall (fun d => ~ exact_match_for split_manager p d) rest)
    deferred /\
  Forall (fun s => split_payment s ∈ used /\ split_debt s ∈ settled) splits.
Proof.
  induction 1 as [ds|p ps before d after splits used settled deferred rest
                    Hbefore [Hamt Hts] _ [IH1 IH2]
                 |p ps ds splits used settled deferred rest Hnone Hphase
                    [IH1 IH2]].
  - by split; constructor.
  - split; [done|]. constructor; [simpl; set_solver|].
    eapply Forall_impl; [exact IH2|]. simpl. set_solver.
  - split; [|done]. constructor; [|done].
    apply exact_match_phase_facts in Hphase as (_ & _ & _ & _ & Hrest).
    by eapply Forall_subseteq.
Qed.

(** Property X12.  With [exact_amount_match_only] the run returns after
    the exact-match phase and its result is a partition: every payment is
    either fully used or remaining, every debt either fully paid or
    remaining.  Each split pairs a fully used payment with a fully paid
    debt for the whole credit of the one and the whole balance of the
    other, and no remaining payment has an exact match (same balance, not
    dated later) among the remaining debts. *)
Theorem exact_only_pairs_exact_matches payments debts
    (prioritise_exact_amount_match : bool) :
  exists splits results,
    make_payment_splits payments debts prioritise_exact_amount_match true
    = Some (splits, results) /\
    fully_used_payments results ++ remaining_payments results ≡ₚ payments /\
    fully_paid_debts results ++ remaining_debts results ≡ₚ debts /\
    Forall (fun s => split_payment s ∈ fully_used_payments results /\
                     split_debt s ∈ fully_paid_debts results /\
                     amount s = credit_remaining (split_payment s) /\
                     amount s = balance (split_debt s)) splits /\
    Forall (fun p =>
              Forall (fun d => ~ (balance d = credit_remaining p /\
                                  timestamp d <= timestamp p))
                (remaining_debts results))
      (remaining_payments results).
Proof.
  destruct (make_payment_splits_phases split_manager payments debts
              prioritise_exact_amount_match true)
    as (exact & used & settled & deferred & rest & later & results
        & Hrun & Hexact & -> & ->).
  rewrite orb_true_r in Hexact. rewrite app_nil_r in Hrun.
  exists exact, {| fully_used_payments := used; fully_paid_debts := settled;
                   remaining_payments := deferred; remaining_debts := rest |}.
  split; [done|]. simpl.
  pose proof (exact_match_phase_reports _ _ _ _ _ _ _ _ Hexact) as [? ?].
  pose proof (exact_match_phase_amounts _ _ _ _ _ _ _ Hexact) as Hamounts.
  pose proof (exact_match_phase_deferred _ _ _ _ _ _ _ Hexact)
    as [Hdeferred Hpairs].
  split_and!; [done|done| |done].
  apply Forall_forall. intros s Hs. rewrite Forall_forall in Hamounts, Hpairs.
  specialize (Hamounts s Hs). specialize (Hpairs s Hs). tauto.
Qed.

End engine_more.

Section engine_items.
Import base bulk_utils apportionment allocation.
Variable split_manager : Z -> list Z.

Local Abbreviation balance := (base.balance split_manager).
Local Abbreviation credit_remaining := (base.credit_remaining split_manager).
Local Abbreviation exact_match_phase :=
  (apportionment.exact_match_phase split_manager).
Local Abbreviation make_payment_splits :=
  (bulk_utils.make_payment_splits split_manager).

Lemma occurrences_of_cons {X} `{EqDecision X} (x y : X) l :
  occurrences_of x (y :: l)
  = (if decide (y = x) then 1 else 0) + occurrences_of x l.
Proof.
  unfold occurrences_of. rewrite filter_cons.
  destruct (decide (y = x)); simpl; lia.
Qed.

Lemma occurrences_of_nonneg {X} `{EqDecision X} (x : X) l :
  0 <= occurrences_of x l.
Proof. unfold occurrences_of. lia. Qed.

Lemma occurrences_of_app {X} `{EqDecision X} (x : X) l k :
  occurrences_of x (l ++ k) = occurrences_of x l + occurrences_of x k.
Proof. unfold occurrences_of. rewrite filter_app, length_app. lia. Qed.

Lemma paid_from_cons q s splits :
  paid_from q (s :: splits)
  = (if decide (split_payment s = q) then amount s else 0)
    + paid_from q splits.
Proof.
  unfold paid_from. rewrite filter_cons.
  destruct (decide (split_payment s = q)); [by rewrite fmap_cons|lia].
Qed.

Lemma paid_to_cons d s splits :
  paid_to d (s :: splits)
  = (if decide (split_debt s = d) then amount s else 0) + paid_to d splits.
Proof.
  unfold paid_to. rewrite filter_cons.
  destruct (decide (split_debt s = d)); [by rewrite fmap_cons|lia].
Qed.

Lemma sum_amounts_app l k :
  sum_amounts (l ++ k) = sum_amounts l + sum_amounts k.
Proof.
  unfold sum_amounts. induction l as [|x l IH]; simpl; [done|]. lia.
Qed.

Lemma paid_from_app q l k :
  paid_from q (l ++ k) = paid_from q l + paid_from q k.
Proof. unfold paid_from. by rewrite filter_app, fmap_app, sum_amounts_app. Qed.

Lemma paid_to_app d l k : paid_to d (l ++ k) = paid_to d l + paid_to d k.
Proof. unfold paid_to. by rewrite filter_app, fmap_app, sum_amounts_app. Qed.

(** A payment that the inner loop skips only loses credit. *)
Lemma look_for_recent_payment_item ps q :
  forall payment debt res p c ps' res',
  look_for_recent_payment split_manager ps payment debt res
    = Found p c ps' res' ->
  0 <= remaining_of payment ->
  Forall (fun p => 0 <= credit_remaining p) ps ->
  held q (Current p c) + occurrences_of q ps' * credit_remaining q
  <= held q payment + occurrences_of q ps * credit_remaining q.
Proof.
  induction ps as [|p0 ps IH]; intros payment debt res p c ps' res' H Hrem Hps.
  - destruct payment as [|x rem]; simpl in H; [discriminate|].
    destruct ((rem =? 0) || (timestamp x <? timestamp debt)); [discriminate|].
    injection H as -> -> <- <-. lia.
  - apply Forall_cons in Hps as [Hp0 Hps].
    assert (held q (Current p0 (credit_remaining p0))
            + occurrences_of q ps * credit_remaining q
            = occurrences_of q (p0 :: ps) * credit_remaining q) as Hnext.
    { rewrite occurrences_of_cons. simpl.
      destruct (decide (p0 = q)) as [->|]; lia. }
    assert (0 <= held q payment) as Hheld.
    { destruct payment as [|x rem]; simpl in *; [done|].
      destruct (decide (x = q)); lia. }
    destruct payment as [|x rem]; simpl in H.
    + apply IH in H; [|done..]. lia.
    + destruct ((rem =? 0) || (timestamp x <? timestamp debt)).
      * apply IH in H; [|done..]. lia.
      * injection H as -> -> <- <-. lia.
Qed.

(** A debt only leaves the hand when nothing of it remains. *)
Lemma look_for_unpaid_debt_item ds q :
  forall debt res d r ds' res',
  look_for_unpaid_debt split_manager ds debt res = Found d r ds' res' ->
  held q (Current d r) + occurrences_of q ds' * balance q
  = held q debt + occurrences_of q ds * balance q.
Proof.
  induction ds as [|d0 ds IH]; intros debt res d r ds' res' H.
  - destruct debt as [|x rem]; simpl in H; [discriminate|].
    destruct (rem =? 0); [discriminate|].
    by injection H as -> -> <- <-.
  - assert (held q (Current d0 (balance d0))
            + occurrences_of q ds * balance q
            = occurrences_of q (d0 :: ds) * balance q) as Hnext.
    { rewrite occurrences_of_cons. simpl.
      destruct (decide (d0 = q)) as [->|]; lia. }
    destruct debt as [|x rem]; simpl in H.
    + apply IH in H. change (held q NoneYet) with 0. lia.
    + destruct (rem =? 0) eqn:Hzero.
      * apply IH in H. apply Z.eqb_eq in Hzero. subst rem.
        assert (held q (Current x 0) = 0) as ->; [|lia].
        simpl. by destruct (decide (x = q)).
      * by injection H as -> -> <- <-.
Qed.

Lemma held_nonneg {X} `{EqDecision X} (x : X) (h : InHand X) :
  0 <= remaining_of h -> 0 <= held x h.
Proof.
  destruct h as [|y rem]; simpl; [done|]. destruct (decide (y = x)); lia.
Qed.

Lemma occurrences_credit_nonneg q ps :
  Forall (fun p => 0 <= credit_remaining p) ps ->
  0 <= occurrences_of q ps * credit_remaining q.
Proof.
  induction 1 as [|p ps Hp _ IH]; [done|]. rewrite occurrences_of_cons.
  destruct (decide (p = q)) as [->|]; lia.
Qed.

Lemma occurrences_balance_nonneg q ds :
  Forall (fun d => 0 <= balance d) ds ->
  0 <= occurrences_of q ds * balance q.
Proof.
  induction 1 as [|d ds Hd _ IH]; [done|]. rewrite occurrences_of_cons.
  destruct (decide (d = q)) as [->|]; lia.
Qed.

Lemma greedy_loop_items fuel : forall ps ds payment debt res splits res',
  greedy_loop split_manager fuel ps ds payment debt res = Some (splits, res') ->
  0 <= remaining_of payment -> 0 <= remaining_of debt ->
  Forall (fun p => 0 <= credit_remaining p) ps ->
  Forall (fun d => 0 <= balance d) ds ->
  (forall q, paid_from q splits
             <= held q payment + occurrences_of q ps * credit_remaining q) /\
  (forall q, paid_to q splits
             <= held q debt + occurrences_of q ds * balance q).
Proof.
  induction fuel as [|fuel IH];
    intros ps ds payment debt res splits res' H Hc Hr Hps Hds; [discriminate|].
  assert ((forall q, paid_from q []
             <= held q payment + occurrences_of q ps * credit_remaining q) /\
          (forall q, paid_to q []
             <= held q debt + occurrences_of q ds * balance q)) as Hnil.
  { split; intros q.
    - pose proof (held_nonneg q payment Hc).
      pose proof (occurrences_credit_nonneg q ps Hps).
      unfold paid_from. simpl. lia.
    - pose proof (held_nonneg q debt Hr).
      pose proof (occurrences_balance_nonneg q ds Hds).
      unfold paid_to. simpl. lia. }
  simpl in H.
  destruct (look_for_unpaid_debt _ ds debt res) as [res1|d r ds' res1] eqn:Hd;
    [by simplify_eq|].
  destruct (look_for_recent_payment _ ps payment d res1)
    as [res2|p c ps' res2] eqn:Hp; [by simplify_eq|].
  destruct (greedy_loop _ fuel _ _ _ _ _) as [[later res3]|] eqn:Hloop;
    simplify_eq.
  pose proof (fun q => look_for_unpaid_debt_item _ q _ _ _ _ _ _ Hd) as Hdebts.
  apply look_for_unpaid_debt_suffix in Hd as [Hr' Hds']; [|done..].
  pose proof (fun q => look_for_recent_payment_item _ q _ _ _ _ _ _ _ Hp Hc Hps)
    as Hpayments.
  apply look_for_recent_payment_credit in Hp as (Hc' & _ & Hps'); [|done..].
  apply IH in Hloop as [IHp IHd]; simpl; [|lia..|done|done].
  split; intros q.
  - rewrite paid_from_cons. simpl. specialize (IHp q).
    specialize (Hpayments q). simpl in *.
    destruct (decide (p = q)); lia.
  - rewrite paid_to_cons. simpl. specialize (IHd q).
    specialize (Hdebts q). simpl in *.
    destruct (decide (d = q)); lia.
Qed.

Lemma exact_match_phase_items ps ds splits used settled deferred rest :
  exact_match_phase ps ds splits used settled deferred rest ->
  (forall q, paid_from q splits + occurrences_of q deferred * credit_remaining q
             = occurrences_of q ps * credit_remaining q) /\
  (forall q, paid_to q splits + occurrences_of q rest * balance q
             = occurrences_of q ds * balance q).
Proof.
  induction 1 as [ds|p ps before d after splits used settled deferred rest
                    Hbefore [Hamt Hts] _ [IHp IHd]
                 |p ps ds splits used settled deferred rest Hnone _ [IHp IHd]].
  - split; intros q; unfold paid_from, paid_to; simpl; lia.
  - split; intros q.
    + rewrite paid_from_cons, occurrences_of_cons. simpl. specialize (IHp q).
      destruct (decide (p = q)) as [->|]; lia.
    + rewrite paid_to_cons. simpl. specialize (IHd q).
      rewrite occurrences_of_app in *. rewrite occurrences_of_cons.
      destruct (decide (d = q)) as [->|]; lia.
  - split; intros q; [|done]. rewrite !occurrences_of_cons.
    specialize (IHp q). destruct (decide (p = q)); lia.
Qed.

(** Property X13.  When no payment has a negative [credit_remaining] and no
    debt a negative [balance], a run of [make_payment_splits] returns and
    overdraws nothing: the splits that draw on a payment sum to at most its
    credit, and the splits that pay a debt sum to at most its balance (times
    the number of times the item occurs in the input, for an input that
    lists equal items more than once). *)
Theorem no_item_is_overdrawn payments debts
    (prioritise_exact_amount_match exact_amount_match_only : bool) :
  Forall (fun p => 0 <= credit_remaining p) payments ->
  Forall (fun d => 0 <= balance d) debts ->
  exists splits results,
    make_payment_splits payments debts prioritise_exact_amount_match
      exact_amount_match_only = Some (splits, results) /\
    (forall p, paid_from p splits
               <= occurrences_of p payments * credit_remaining p) /\
    (forall d, paid_to d splits <= occurrences_of d debts * balance d).
Proof.
  intros Hpayments Hdebts.
  destruct (make_payment_splits_phases split_manager payments debts
              prioritise_exact_amount_match exact_amount_match_only)
    as (exact & used & settled & deferred & rest & later & results
        & Hrun & Hexact & Hgreedy).
  exists (exact ++ later), results. split; [done|].
  assert (((forall q, paid_from q exact
                      + occurrences_of q deferred * credit_remaining q
                      = occurrences_of q payments * credit_remaining q) /\
           (forall q, paid_to q exact + occurrences_of q rest * balance q
                      = occurrences_of q debts * balance q)) /\
          deferred ⊆ payments /\ rest ⊆ debts)
    as ([Hp Hd] & Hdeferred & Hrest).
  { destruct (_ || _).
    - split; [by eapply exact_match_phase_items|].
      by apply exact_match_phase_facts in Hexact as (_ & _ & _ & ? & ?).
    - destruct Hexact as (-> & _ & _ & -> & ->).
      split; [|done]. split; intros q; unfold paid_from, paid_to; simpl; lia. }
  assert (Forall (fun p => 0 <= credit_remaining p) deferred) as Hcredits
    by (by eapply Forall_subseteq).
  assert (Forall (fun d => 0 <= balance d) rest) as Hbalances
    by (by eapply Forall_subseteq).
  assert ((forall q, paid_from q later
                     <= occurrences_of q deferred * credit_remaining q) /\
          (forall q, paid_to q later <= occurrences_of q rest * balance q))
    as [Hlp Hld].
  { destruct exact_amount_match_only.
    - destruct Hgreedy as [-> _]. split; intros q.
      + pose proof (occurrences_credit_nonneg q deferred Hcredits).
        unfold paid_from. simpl. lia.
      + pose proof (occurrences_balance_nonneg q rest Hbalances).
        unfold paid_to. simpl. lia.
    - eapply greedy_loop_items in Hgreedy as [Hfrom Hto];
        [|simpl; lia..|done|done].
      split; intros q; [specialize (Hfrom q)|specialize (Hto q)];
        simpl in *; lia. }
  split; intros q.
  - rewrite paid_from_app. specialize (Hp q). specialize (Hlp q). lia.
  - rewrite paid_to_app. specialize (Hd q). specialize (Hld q). lia.
Qed.

End engine_items.

Section engine_pairs.
Import base bulk_utils apportionment allocation.
Variable split_manager : Z -> list Z.

Local Abbreviation balance := (base.balance split_manager).
Local Abbreviation credit_remaining := (base.credit_remaining split_manager).
Local Abbreviation exact_match_phase :=
  (apportionment.exact_match_phase split_manager).
Local Abbreviation make_payment_splits :=
  (bulk_utils.make_payment_splits split_manager).

Lemma look_for_unpaid_debt_suffix_of ds : forall debt res d r ds' res',
  look_for_unpaid_debt split_manager ds debt res = Found d r ds' res' ->
  (d :: ds') `suffix_of` (live debt ++ ds).
Proof.
  induction ds as [|d0 ds IH]; intros debt res d r ds' res' H.
  - destruct debt as [|x rem]; simpl in H; [discriminate|].
    simpl. destruct (rem =? 0); [discriminate|].
    by injection H as -> -> <- <-.
  - destruct debt as [|x rem]; simpl in H.
    + apply IH in H. simpl in *.
      destruct (balance d0 =? 0); simpl in H; [by apply suffix_cons_r|done].
    + simpl. destruct (rem =? 0).
      * apply IH in H. simpl in *.
        destruct (balance d0 =? 0); simpl in H; [by apply suffix_cons_r|done].
      * by injection H as -> -> <- <-.
Qed.

Lemma look_for_recent_payment_suffix_of ps :
  forall payment debt res p c ps' res',
  look_for_recent_payment split_manager ps payment debt res
    = Found p c ps' res' ->
  (p :: ps') `suffix_of` (live payment ++ ps).
Proof.
  induction ps as [|p0 ps IH]; intros payment debt res p c ps' res' H.
  - destruct payment as [|x rem]; simpl in H; [discriminate|].
    simpl. destruct (rem =? 0); simpl in H; [discriminate|].
    destruct (timestamp x <? timestamp debt); [discriminate|].
    by injection H as -> -> <- <-.
  - assert (forall res0,
      look_for_recent_payment split_manager ps
        (Current p0 (credit_remaining p0)) debt res0 = Found p c ps' res' ->
      (p :: ps') `suffix_of` (p0 :: ps)) as Hnext.
    { intros res0 H0. apply IH in H0. simpl in H0.
      destruct (credit_remaining p0 =? 0); simpl in H0;
        [by apply suffix_cons_r|done]. }
    destruct payment as [|x rem]; simpl in H; [by eapply Hnext|].
    simpl. destruct (rem =? 0); simpl in H; [by eapply Hnext|].
    destruct (timestamp x <? timestamp debt).
    + apply suffix_cons_r. by eapply Hnext.
    + by injection H as -> -> <- <-.
Qed.

Lemma suffix_subseteq {A} (l k : list A) : l `suffix_of` k -> l ⊆ k.
Proof. intros [before ->]. set_solver. Qed.

Lemma NoDup_suffix {A} (l k : list A) : l `suffix_of` k -> NoDup k -> NoDup l.
Proof. intros [before ->] Hk. by apply NoDup_app in Hk as (_ & _ & ?). Qed.

Lemma live_after_split {X} (x : X) (remaining amt : Z) (later : list X) :
  live (Current x (remaining - amt)) ++ later ⊆ x :: later.
Proof. simpl. destruct (remaining - amt =? 0); set_solver. Qed.

Lemma greedy_loop_live fuel : forall ps ds payment debt res splits res',
  greedy_loop split_manager fuel ps ds payment debt res = Some (splits, res') ->
  Forall (fun s => split_payment s ∈ live payment ++ ps /\
                   split_debt s ∈ live debt ++ ds) splits.
Proof.
  induction fuel as [|fuel IH]; intros ps ds payment debt res splits res' H;
    [discriminate|].
  simpl in H.
  destruct (look_for_unpaid_debt _ ds debt res) as [res1|d r ds' res1] eqn:Hd;
    [by simplify_eq|].
  destruct (look_for_recent_payment _ ps payment d res1)
    as [res2|p c ps' res2] eqn:Hp; [by simplify_eq|].
  destruct (greedy_loop _ fuel _ _ _ _ _) as [[later res3]|] eqn:Hloop;
    simplify_eq.
  apply IH in Hloop.
  apply look_for_unpaid_debt_suffix_of, suffix_subseteq in Hd.
  apply look_for_recent_payment_suffix_of, suffix_subseteq in Hp.
  constructor; [simpl; set_solver|].
  eapply Forall_impl; [exact Hloop|]. simpl. intros s [Hsp Hsd].
  apply live_after_split in Hsp, Hsd. set_solver.
Qed.

Lemma greedy_loop_pairs fuel : forall ps ds payment debt res splits res',
  greedy_loop split_manager fuel ps ds payment debt res = Some (splits, res') ->
  NoDup (live payment ++ ps) -> NoDup (live debt ++ ds) ->
  NoDup (payment_and_debt <$> splits).
Proof.
  induction fuel as [|fuel IH];
    intros ps ds payment debt res splits res' H Hps Hds; [discriminate|].
  simpl in H.
  destruct (look_for_unpaid_debt _ ds debt res) as [res1|d r ds' res1] eqn:Hd;
    [simplify_eq; constructor|].
  destruct (look_for_recent_payment _ ps payment d res1)
    as [res2|p c ps' res2] eqn:Hp; [simplify_eq; constructor|].
  destruct (greedy_loop _ fuel _ _ _ _ _) as [[later res3]|] eqn:Hloop;
    simplify_eq.
  apply look_for_unpaid_debt_suffix_of in Hd.
  apply look_for_recent_payment_suffix_of in Hp.
  apply NoDup_suffix in Hd; [|done]. apply NoDup_suffix in Hp; [|done].
  apply NoDup_cons in Hd as [Hd Hds'], Hp as [Hp Hps'].
  pose proof (greedy_loop_live _ _ _ _ _ _ _ _ Hloop) as Hlive.
  rewrite fmap_cons. apply NoDup_cons. split.
  - intros (s & Hpair & Hs)%list_elem_of_fmap.
    rewrite Forall_forall in Hlive. destruct (Hlive s Hs) as [Hsp Hsd].
    unfold payment_and_debt in Hpair. simpl in *. simplify_eq.
    destruct (Z.min_spec r c) as [[_ Hmin]|[_ Hmin]]; rewrite Hmin in *.
    + replace (r - r) with 0 in Hsd by lia. simpl in Hsd. done.
    + replace (c - c) with 0 in Hsp by lia. simpl in Hsp. done.
  - eapply IH; [exact Hloop|simpl..].
    + destruct (c - Z.min r c =? 0); [done|]. by apply NoDup_cons.
    + destruct (r - Z.min r c =? 0); [done|]. by apply NoDup_cons.
Qed.

Lemma exact_match_phase_pairs ps ds splits used settled deferred rest :
  exact_match_phase ps ds splits used settled deferred rest ->
  NoDup ps ->
  NoDup (payment_and_debt <$> splits) /\
  Forall (fun s => split_payment s ∈ used) splits.
Proof.
  induction 1 as [ds|p ps before d after splits used settled deferred rest
                    Hbefore [Hamt Hts] Hphase IH
                 |p ps ds splits used settled deferred rest Hnone _ IH];
    intros [Hp Hps]%NoDup_cons || intros _.
  - split; constructor.
  - destruct (IH Hps) as [IH1 IH2].
    apply exact_match_phase_reports in Hphase as [Hused _].
    split.
    + rewrite fmap_cons. apply NoDup_cons. split; [|done].
      intros (s & Hpair & Hs)%list_elem_of_fmap.
      rewrite Forall_forall in IH2. specialize (IH2 s Hs).
      unfold payment_and_debt in Hpair. simpl in Hpair. simplify_eq.
      apply Hp. rewrite <- Hused. set_solver.
    + constructor; [simpl; set_solver|].
      eapply Forall_impl; [exact IH2|]. simpl. set_solver.
  - by apply IH.
Qed.

(** Property X14.  For pairwise distinct payments and pairwise distinct
    debts, a run of [make_payment_splits] returns and never yields two
    splits for the same payment and the same debt: the splits satisfy
    [unique_together = ('payment', 'debt')] of [InternalPaymentSplit]. *)
Theorem emitted_pairs_are_unique payments debts
    (prioritise_exact_amount_match exact_amount_match_only : bool) :
  NoDup payments -> NoDup debts ->
  exists splits results,
    make_payment_splits payments debts prioritise_exact_amount_match
      exact_amount_match_only = Some (splits, results) /\
    NoDup (payment_and_debt <$> splits).
Proof.
  intros Hpayments Hdebts.
  destruct (make_payment_splits_phases split_manager payments debts
              prioritise_exact_amount_match exact_amount_match_only)
    as (exact & used & settled & deferred & rest & later & results
        & Hrun & Hexact & Hgreedy).
  exists (exact ++ later), results. split; [done|].
  assert (NoDup (payment_and_debt <$> exact) /\
          Forall (fun s => split_payment s ∈ used) exact /\
          used ++ deferred ≡ₚ payments /\ settled ++ rest ≡ₚ debts)
    as (Hfirst & Hused & Hp & Hd).
  { destruct (_ || _).
    - pose proof (exact_match_phase_pairs _ _ _ _ _ _ _ Hexact Hpayments)
        as [? ?].
      by apply exact_match_phase_reports in Hexact as [? ?].
    - destruct Hexact as (-> & -> & -> & -> & ->).
      split_and!; [constructor|constructor|done|done]. }
  rewrite <- Hp in Hpayments. rewrite <- Hd in Hdebts.
  apply NoDup_app in Hpayments as (_ & Hdisjoint & Hdeferred).
  apply NoDup_app in Hdebts as (_ & _ & Hrest).
  destruct exact_amount_match_only.
  { destruct Hgreedy as [-> _]. by rewrite app_nil_r. }
  rewrite fmap_app. apply NoDup_app. split_and!; [done| |].
  - intros pair (s & -> & Hs)%list_elem_of_fmap
      (s' & Hpair & Hs')%list_elem_of_fmap.
    apply greedy_loop_live in Hgreedy.
    rewrite Forall_forall in Hgreedy, Hused.
    destruct (Hgreedy s' Hs') as [Hin _]. specialize (Hused s Hs).
    unfold payment_and_debt in Hpair. simplify_eq. simpl in Hin.
    eapply Hdisjoint; [exact Hused|]. by rewrite H.
  - by eapply greedy_loop_pairs.
Qed.

End engine_pairs.

Section engine_lists.
Import base bulk_utils apportionment allocation.
Variable split_manager : Z -> list Z.

Local Abbreviation balance := (base.balance split_manager).
Local Abbreviation credit_remaining := (base.credit_remaining split_manager).
Local Abbreviation exact_match_phase :=
  (apportionment.exact_match_phase split_manager).
Local Abbreviation make_payment_splits :=
  (bulk_utils.make_payment_splits split_manager).

Lemma occurrences_of_absent {X} `{EqDecision X} (x : X) l :
  x ∉ l -> occurrences_of x l = 0.
Proof.
  induction l as [|y l IH]; intros Hx; [done|]. rewrite occurrences_of_cons.
  rewrite not_elem_of_cons in Hx. destruct Hx as [Hne Hx].
  rewrite decide_False by done. rewrite IH by done. done.
Qed.

Lemma occurrences_of_once {X} `{EqDecision X} (x : X) l :
  NoDup l -> x ∈ l -> occurrences_of x l = 1.
Proof.
  induction 1 as [|y l Hy Hl IH]; intros Hx; [by apply elem_of_nil in Hx|].
  rewrite occurrences_of_cons. destruct (decide (y = x)) as [->|Hne].
  - by rewrite occurrences_of_absent.
  - apply elem_of_cons in Hx as [->|Hx]; [done|]. by rewrite IH.
Qed.

Lemma available_next {X} `{EqDecision X} (worth : X -> Z) (q x : X) l :
  available worth q (Current x (worth x)) l
  = occurrences_of q (x :: l) * worth q.
Proof.
  unfold available. rewrite occurrences_of_cons. simpl.
  destruct (decide (x = q)) as [->|]; lia.
Qed.

Lemma available_dropped {X} `{EqDecision X} (worth : X -> Z) (x : X) rem l :
  x ∉ l -> available worth x (Current x rem) l = rem.
Proof.
  intros Hx. unfold available. rewrite occurrences_of_absent by done.
  simpl. rewrite decide_True by done. lia.
Qed.

Lemma available_other {X} `{EqDecision X} (worth : X -> Z) (q x : X) rem l :
  q <> x ->
  available worth q (Current x rem) l = occurrences_of q l * worth q.
Proof.
  intros Hne. unfold available. simpl. rewrite decide_False by done. lia.
Qed.

(** What the debt loop does to the result: it reports, as fully paid, the
    debts it leaves behind, of which nothing remains. *)
Lemma look_for_unpaid_debt_lists ds : forall debt res,
  NoDup (in_hand debt ++ ds) ->
  match look_for_unpaid_debt split_manager ds debt res with
  | StopIteration res' =>
      fully_used_payments res' = fully_used_payments res /\
      remaining_payments res' = remaining_payments res /\
      remaining_debts res' = remaining_debts res /\
      forall q, q ∈ fully_paid_debts res' ->
        q ∈ fully_paid_debts res \/
        (q ∈ in_hand debt ++ ds /\ available balance q debt ds = 0)
  | Found d r ds' res' =>
      fully_used_payments res' = fully_used_payments res /\
      remaining_payments res' = remaining_payments res /\
      remaining_debts res' = remaining_debts res /\
      (forall q, q ∈ fully_paid_debts res' ->
         q ∈ fully_paid_debts res \/
         (q ∈ in_hand debt ++ ds /\ (q ∉ d :: ds') /\
          available balance q debt ds = 0)) /\
      NoDup (d :: ds') /\ d :: ds' ⊆ in_hand debt ++ ds /\
      forall q, q ∈ d :: ds' ->
        available balance q (Current d r) ds' = available balance q debt ds
  end.
Proof.
  induction ds as [|d0 ds IH]; intros debt res Hnodup.
  - destruct debt as [|x rem]; simpl; [by split_and!; auto|].
    destruct (rem =? 0) eqn:Hrem; simpl.
    + apply Z.eqb_eq in Hrem. subst rem. split_and!; try done.
      intros q [Hq| ->%list_elem_of_singleton]%elem_of_app; [by left|].
      right. split; [set_solver|]. apply available_dropped. set_solver.
    + split_and!; auto.
  - destruct debt as [|x rem].
    + simpl in Hnodup. specialize (IH (Current d0 (balance d0)) res Hnodup).
      simpl in *.
      destruct (look_for_unpaid_debt _ ds _ res) as [res1|d r ds' res1].
      * destruct IH as (? & ? & ? & Hpaid). split_and!; try done.
        intros q Hq. destruct (Hpaid q Hq) as [?|(? & Hav)]; [by left|].
        right. split; [done|]. by rewrite available_next in Hav.
      * destruct IH as (? & ? & ? & Hpaid & ? & ? & Hav).
        split_and!; try done.
        -- intros q Hq. destruct (Hpaid q Hq) as [?|(? & ? & Hq0)]; [by left|].
           right. split_and!; [done..|]. by rewrite available_next in Hq0.
        -- intros q Hq. by rewrite Hav, available_next.
    + simpl in Hnodup. apply NoDup_cons in Hnodup as [Hx Hnodup].
      simpl. destruct (rem =? 0) eqn:Hrem.
      * apply Z.eqb_eq in Hrem. subst rem.
        specialize (IH (Current d0 (balance d0))
                      (extend_fully_paid_debts [x] res) Hnodup).
        simpl in *.
        destruct (look_for_unpaid_debt _ ds _ _) as [res1|d r ds' res1].
        -- destruct IH as (? & ? & ? & Hpaid). split_and!; try done.
           intros q Hq.
           destruct (Hpaid q Hq)
             as [[?| ->%list_elem_of_singleton]%elem_of_app|(? & Hav)].
           ++ by left.
           ++ right. split; [set_solver|]. by apply available_dropped.
           ++ right. split; [set_solver|].
              rewrite available_next in Hav.
              rewrite available_other by set_solver. done.
        -- destruct IH as (? & ? & ? & Hpaid & ? & Hsub & Hav).
           split_and!; try done.
           ++ intros q Hq.
              destruct (Hpaid q Hq)
                as [[?| ->%list_elem_of_singleton]%elem_of_app|(? & ? & Hq0)].
              ** by left.
              ** right. split_and!; [set_solver|set_solver|].
                 by apply available_dropped.
              ** right. split_and!; [set_solver|done|].
                 rewrite available_next in Hq0.
                 rewrite available_other by set_solver. done.
           ++ set_solver.
           ++ intros q Hq. rewrite Hav by done. rewrite available_next.
              rewrite available_other by set_solver. done.
      * split_and!; auto. by apply NoDup_cons.
Qed.

(** What the payment loop does to the result: a payment it leaves behind
    is reported as fully used when nothing of it remains, and as remaining
    otherwise. *)
Lemma look_for_recent_payment_lists ps : forall payment debt res,
  NoDup (in_hand payment ++ ps) ->
  match look_for_recent_payment split_manager ps payment debt res with
  | StopIteration res' =>
      fully_paid_debts res' = fully_paid_debts res /\
      remaining_debts res' = remaining_debts res /\
      (forall q, q ∈ fully_used_payments res' ->
         q ∈ fully_used_payments res \/
         (q ∈ in_hand payment ++ ps /\
          available credit_remaining q payment ps = 0)) /\
      (forall q, q ∈ remaining_payments res' ->
         q ∈ remaining_payments res \/
         (q ∈ in_hand payment ++ ps /\
          available credit_remaining q payment ps <> 0))
  | Found p c ps' res' =>
      fully_paid_debts res' = fully_paid_debts res /\
      remaining_debts res' = remaining_debts res /\
      (forall q, q ∈ fully_used_payments res' ->
         q ∈ fully_used_payments res \/
         (q ∈ in_hand payment ++ ps /\ (q ∉ p :: ps') /\
          available credit_remaining q payment ps = 0)) /\
      (forall q, q ∈ remaining_payments res' ->
         q ∈ remaining_payments res \/
         (q ∈ in_hand payment ++ ps /\ (q ∉ p :: ps') /\
          available credit_remaining q payment ps <> 0)) /\
      NoDup (p :: ps') /\ p :: ps' ⊆ in_hand payment ++ ps /\
      forall q, q ∈ p :: ps' ->
        available credit_remaining q (Current p c) ps'
        = available credit_remaining q payment ps
  end.
Proof.
  induction ps as [|p0 ps IH]; intros payment debt res Hnodup.
  - destruct payment as [|x rem]; simpl; [by split_and!; auto|].
    destruct ((rem =? 0) || (timestamp x <? timestamp debt)) eqn:Hskip;
      [|split_and!; by auto].
    simpl in Hnodup. destruct (rem =? 0) eqn:Hzero; simpl.
    + apply Z.eqb_eq in Hzero. subst rem. split_and!; try done; [|by auto].
      intros q [Hq| ->%list_elem_of_singleton]%elem_of_app; [by left|].
      right. split; [set_solver|]. apply available_dropped. set_solver.
    + apply Z.eqb_neq in Hzero. split_and!; try done; [by auto|].
      intros q [Hq| ->%list_elem_of_singleton]%elem_of_app; [by left|].
      right. split; [set_solver|]. rewrite available_dropped; set_solver.
  - destruct payment as [|x rem].
    + simpl in Hnodup.
      specialize (IH (Current p0 (credit_remaining p0)) debt res Hnodup).
      simpl in *.
      destruct (look_for_recent_payment _ ps _ debt res)
        as [res1|p c ps' res1].
      * destruct IH as (? & ? & Hused & Hleft). split_and!; try done.
        -- intros q Hq. destruct (Hused q Hq) as [?|(? & Hav)]; [by left|].
           right. split; [done|]. by rewrite available_next in Hav.
        -- intros q Hq. destruct (Hleft q Hq) as [?|(? & Hav)]; [by left|].
           right. split; [done|]. by rewrite available_next in Hav.
      * destruct IH as (? & ? & Hused & Hleft & ? & ? & Hav).
        split_and!; try done.
        -- intros q Hq. destruct (Hused q Hq) as [?|(? & ? & Hq0)]; [by left|].
           right. split_and!; [done..|]. by rewrite available_next in Hq0.
        -- intros q Hq. destruct (Hleft q Hq) as [?|(? & ? & Hq0)]; [by left|].
           right. split_and!; [done..|]. by rewrite available_next in Hq0.
        -- intros q Hq. by rewrite Hav, available_next.
    + simpl in Hnodup. apply NoDup_cons in Hnodup as [Hx Hnodup].
      simpl.
      destruct ((rem =? 0) || (timestamp x <? timestamp debt)) eqn:Hskip;
        [|split_and!; auto; by apply NoDup_cons].
      set (res0 := if rem =? 0 then extend_fully_used_payments [x] res
                   else extend_remaining_payments [x] res).
      assert (fully_paid_debts res0 = fully_paid_debts res /\
              remaining_debts res0 = remaining_debts res /\
              (forall q, q ∈ fully_used_payments res0 ->
                 q ∈ fully_used_payments res \/ (q = x /\ rem = 0)) /\
              (forall q, q ∈ remaining_payments res0 ->
                 q ∈ remaining_payments res \/ (q = x /\ rem <> 0)))
        as (Hpaid0 & Hdebts0 & Hused0 & Hleft0).
      { subst res0. destruct (rem =? 0) eqn:Hzero; simpl.
        - apply Z.eqb_eq in Hzero. split_and!; try done; [|by auto].
          intros q [?| ->%list_elem_of_singleton]%elem_of_app; auto.
        - apply Z.eqb_neq in Hzero. split_and!; try done; [by auto|].
          intros q [?| ->%list_elem_of_singleton]%elem_of_app; auto. }
      clearbody res0.
      specialize (IH (Current p0 (credit_remaining p0)) debt res0 Hnodup).
      simpl in *.
      destruct (look_for_recent_payment _ ps _ debt res0)
        as [res1|p c ps' res1].
      * destruct IH as (-> & -> & Hused & Hleft). split_and!; try done.
        -- intros q Hq. destruct (Hused q Hq) as [Hq0|(? & Hav)].
           ++ destruct (Hused0 q Hq0) as [?|[-> ->]]; [by left|].
              right. split; [set_solver|]. by apply available_dropped.
           ++ right. split; [set_solver|]. rewrite available_next in Hav.
              rewrite available_other by set_solver. done.
        -- intros q Hq. destruct (Hleft q Hq) as [Hq0|(? & Hav)].
           ++ destruct (Hleft0 q Hq0) as [?|[-> ?]]; [by left|].
              right. split; [set_solver|]. by rewrite available_dropped.
           ++ right. split; [set_solver|]. rewrite available_next in Hav.
              rewrite available_other by set_solver. done.
      * destruct IH as (-> & -> & Hused & Hleft & ? & Hsub & Hav).
        split_and!; try done.
        -- intros q Hq. destruct (Hused q Hq) as [Hq0|(? & ? & Hq1)].
           ++ destruct (Hused0 q Hq0) as [?|[-> ->]]; [by left|].
              right. split_and!; [set_solver|set_solver|].
              by apply available_dropped.
           ++ right. split_and!; [set_solver|done|].
              rewrite available_next in Hq1.
              rewrite available_other by set_solver. done.
        -- intros q Hq. destruct (Hleft q Hq) as [Hq0|(? & ? & Hq1)].
           ++ destruct (Hleft0 q Hq0) as [?|[-> ?]]; [by left|].
              right. split_and!; [set_solver|set_solver|].
              by rewrite available_dropped.
           ++ right. split_and!; [set_solver|done|].
              rewrite available_next in Hq1.
              rewrite available_other by set_solver. done.
        -- set_solver.
        -- intros q Hq. rewrite Hav by done. rewrite available_next.
           rewrite available_other by set_solver. done.
Qed.

Lemma paid_from_absent q splits :
  Forall (fun s => split_payment s <> q) splits -> paid_from q splits = 0.
Proof.
  induction 1 as [|s splits Hs _ IH]; [done|].
  rewrite paid_from_cons, IH. by rewrite decide_False.
Qed.

Lemma paid_to_absent q splits :
  Forall (fun s => split_debt s <> q) splits -> paid_to q splits = 0.
Proof.
  induction 1 as [|s splits Hs _ IH]; [done|].
  rewrite paid_to_cons, IH. by rewrite decide_False.
Qed.

Lemma available_after_split {X} `{EqDecision X} (worth : X -> Z) (q x : X)
    (remaining amt : Z) l :
  (if decide (x = q) then amt else 0)
  + available worth q (Current x (remaining - amt)) l
  = available worth q (Current x remaining) l.
Proof. unfold available. simpl. destruct (decide (x = q)); lia. Qed.

Lemma greedy_loop_lists fuel : forall ps ds payment debt res splits res',
  greedy_loop split_manager fuel ps ds payment debt res = Some (splits, res') ->
  NoDup (in_hand payment ++ ps) -> NoDup (in_hand debt ++ ds) ->
  (forall q, q ∈ fully_used_payments res' ->
     q ∈ fully_used_payments res \/
     (q ∈ in_hand payment ++ ps /\
      paid_from q splits = available credit_remaining q payment ps)) /\
  (forall q, q ∈ remaining_payments res' ->
     q ∈ remaining_payments res \/
     (q ∈ in_hand payment ++ ps /\
      paid_from q splits <> available credit_remaining q payment ps)) /\
  (forall q, q ∈ fully_paid_debts res' ->
     q ∈ fully_paid_debts res \/
     (q ∈ in_hand debt ++ ds /\
      paid_to q splits = available balance q debt ds)) /\
  (forall q, q ∈ remaining_debts res' ->
     q ∈ remaining_debts res \/
     (q ∈ in_hand debt ++ ds /\
      paid_to q splits <> available balance q debt ds)).
Proof.
  induction fuel as [|fuel IH];
    intros ps ds payment debt res splits res' H Hps Hds; [discriminate|].
  simpl in H.
  pose proof (look_for_unpaid_debt_lists ds debt res Hds) as Ld.
  destruct (look_for_unpaid_debt _ ds debt res) as [res1|d r ds' res1].
  { destruct Ld as (Hu & Hl & Hr & Hpaid). simplify_eq.
    assert (fully_used_payments
              match payment with
              | NoneYet => res1
              | Current p credit_left =>
                  if credit_left =? 0 then res1
                  else extend_remaining_payments [p] res1
              end = fully_used_payments res /\
            fully_paid_debts
              match payment with
              | NoneYet => res1
              | Current p credit_left =>
                  if credit_left =? 0 then res1
                  else extend_remaining_payments [p] res1
              end = fully_paid_debts res1 /\
            remaining_debts
              match payment with
              | NoneYet => res1
              | Current p credit_left =>
                  if credit_left =? 0 then res1
                  else extend_remaining_payments [p] res1
              end = remaining_debts res) as (-> & -> & ->).
    { destruct payment as [|p c]; [by auto|]. destruct (c =? 0); simpl; auto. }
    split_and!; [by left| | |by left].
    2:{ intros q Hq. destruct (Hpaid q Hq) as [?|[? Hav]]; [by left|].
        right. by rewrite Hav. }
    intros q Hq. destruct payment as [|p c]; [rewrite Hl in Hq; by left|].
    destruct (c =? 0) eqn:Hzero; [rewrite Hl in Hq; by left|].
    simpl in Hq. rewrite Hl in Hq.
    apply elem_of_app in Hq as [?| ->%list_elem_of_singleton]; [by left|].
    right. split; [set_solver|]. apply Z.eqb_neq in Hzero.
    rewrite available_dropped; [done|]. simpl in Hps.
    by apply NoDup_cons in Hps as [? _]. }
  destruct Ld as (Hu1 & Hl1 & Hr1 & Hpaid1 & Hds' & Hdsub & Hdav).
  pose proof (look_for_recent_payment_lists ps payment d res1 Hps) as Lp.
  destruct (look_for_recent_payment _ ps payment d res1)
    as [res2|p c ps' res2].
  { destruct Lp as (Hp2 & Hr2 & Hused2 & Hleft2). simplify_eq.
    assert (fully_used_payments
              (if r =? 0 then res2 else extend_remaining_debts [d] res2)
            = fully_used_payments res2 /\
            remaining_payments
              (if r =? 0 then res2 else extend_remaining_debts [d] res2)
            = remaining_payments res2 /\
            fully_paid_debts
              (if r =? 0 then res2 else extend_remaining_debts [d] res2)
            = fully_paid_debts res1) as (-> & -> & ->).
    { destruct (r =? 0); simpl; auto. }
    rewrite Hu1 in Hused2. rewrite Hl1 in Hleft2.
    split_and!.
    - intros q Hq. destruct (Hused2 q Hq) as [?|[? Hav]]; [by left|].
      right. by rewrite Hav.
    - intros q Hq. destruct (Hleft2 q Hq) as [?|[? Hav]]; [by left|].
      right. split; [done|]. intros Heq. apply Hav. by rewrite <- Heq.
    - intros q Hq. destruct (Hpaid1 q Hq) as [?|(? & ? & Hav)]; [by left|].
      right. by rewrite Hav.
    - intros q Hq. destruct (r =? 0) eqn:Hzero.
      + rewrite Hr2, Hr1 in Hq. by left.
      + simpl in Hq. rewrite Hr2, Hr1 in Hq.
        apply elem_of_app in Hq as [?| ->%list_elem_of_singleton]; [by left|].
        right. split; [set_solver|]. rewrite <- Hdav by set_solver.
        apply Z.eqb_neq in Hzero. rewrite available_dropped; [done|].
        by apply NoDup_cons in Hds' as [? _]. }
  destruct Lp as (Hp2 & Hr2 & Hused2 & Hleft2 & Hps' & Hpsub & Hpav).
  destruct (greedy_loop _ fuel _ _ _ _ _) as [[later res3]|] eqn:Hloop;
    simplify_eq.
  pose proof (greedy_loop_live _ _ _ _ _ _ _ _ _ Hloop) as Hlive.
  apply IH in Hloop as (IHu & IHl & IHp & IHr); [|done..].
  rewrite Hu1 in Hused2. rewrite Hl1 in Hleft2.
  rewrite Hp2 in IHp. rewrite Hr2, Hr1 in IHr.
  assert (forall q, q ∉ p :: ps' -> paid_from q later = 0) as Hnop.
  { intros q Hq. apply paid_from_absent.
    eapply Forall_impl; [exact Hlive|]. simpl. intros s [Hs _] Heq.
    rewrite Heq in Hs. apply Hq. by apply live_after_split in Hs. }
  assert (forall q, q ∉ d :: ds' -> paid_to q later = 0) as Hnod.
  { intros q Hq. apply paid_to_absent.
    eapply Forall_impl; [exact Hlive|]. simpl. intros s [_ Hs] Heq.
    rewrite Heq in Hs. apply Hq. by apply live_after_split in Hs. }
  simpl in IHu, IHl, IHp, IHr.
  split_and!; intros q Hq.
  - rewrite paid_from_cons. simpl.
    destruct (IHu q Hq) as [Hq2|[Hin Heq]].
    + destruct (Hused2 q Hq2) as [?|(? & Hout & Hav)]; [by left|].
      right. split; [done|]. rewrite Hnop, Hav by done.
      rewrite decide_False by set_solver. done.
    + right. split; [set_solver|]. rewrite Heq, available_after_split.
      by apply Hpav.
  - rewrite paid_from_cons. simpl.
    destruct (IHl q Hq) as [Hq2|[Hin Hne]].
    + destruct (Hleft2 q Hq2) as [?|(? & Hout & Hav)]; [by left|].
      right. split; [done|]. rewrite Hnop by done.
      rewrite decide_False by set_solver. lia.
    + right. split; [set_solver|]. rewrite <- Hpav by done.
      rewrite <- (available_after_split _ q p c (Z.min r c)). lia.
  - rewrite paid_to_cons. simpl.
    destruct (IHp q Hq) as [Hq2|[Hin Heq]].
    + destruct (Hpaid1 q Hq2) as [?|(? & Hout & Hav)]; [by left|].
      right. split; [done|]. rewrite Hnod, Hav by done.
      rewrite decide_False by set_solver. done.
    + right. split; [set_solver|]. rewrite Heq, available_after_split.
      by apply Hdav.
  - rewrite paid_to_cons. simpl.
    destruct (IHr q Hq) as [?|[Hin Hne]]; [by left|].
    right. split; [set_solver|]. rewrite <- Hdav by done.
    rewrite <- (available_after_split _ q d r (Z.min r c)). lia.
Qed.

(** Property X15.  For pairwise distinct payments with positive credit and
    pairwise distinct debts with positive balance, a run of
    [make_payment_splits] returns and its result lists are accurate with
    respect to the splits it yields: the splits drawing on a payment of
    [fully_used_payments] sum to exactly its credit, those drawing on a
    payment of [remaining_payments] to less than its credit; the splits
    paying a debt of [fully_paid_debts] sum to exactly its balance, those
    paying a debt of [remaining_debts] to less than its balance. *)
Theorem reported_lists_are_accurate payments debts
    (prioritise_exact_amount_match exact_amount_match_only : bool) :
  NoDup payments -> NoDup debts ->
  Forall (fun p => 0 < credit_remaining p) payments ->
  Forall (fun d => 0 < balance d) debts ->
  exists splits results,
    make_payment_splits payments debts prioritise_exact_amount_match
      exact_amount_match_only = Some (splits, results) /\
    (forall p, p ∈ fully_used_payments results ->
       paid_from p splits = credit_remaining p) /\
    (forall p, p ∈ remaining_payments results ->
       paid_from p splits < credit_remaining p) /\
    (forall d, d ∈ fully_paid_debts results ->
       paid_to d splits = balance d) /\
    (forall d, d ∈ remaining_debts results -> paid_to d splits < balance d).
Proof.
  intros Hnp Hnd Hpayments Hdebts.
  destruct (make_payment_splits_phases split_manager payments debts
              prioritise_exact_amount_match exact_amount_match_only)
    as (exact & used & settled & deferred & rest & later & results
        & Hrun & Hexact & Hgreedy).
  exists (exact ++ later), results. split; [done|].
  assert (((forall q, paid_from q exact
                      + occurrences_of q deferred * credit_remaining q
                      = occurrences_of q payments * credit_remaining q) /\
           (forall q, paid_to q exact + occurrences_of q rest * balance q
                      = occurrences_of q debts * balance q)) /\
          used ++ deferred ≡ₚ payments /\ settled ++ rest ≡ₚ debts)
    as ([Hpe Hde] & Hp & Hd).
  { destruct (_ || _).
    - split; [by eapply exact_match_phase_items|].
      by apply exact_match_phase_reports in Hexact as [? ?].
    - destruct Hexact as (-> & -> & -> & -> & ->).
      split; [|done]. split; intros q; unfold paid_from, paid_to; simpl; lia. }
  assert (forall q, q ∈ payments -> 0 < credit_remaining q) as Hpos_p.
  { by apply Forall_forall. }
  assert (forall q, q ∈ debts -> 0 < balance q) as Hpos_d.
  { by apply Forall_forall. }
  assert (forall q, q ∈ payments -> occurrences_of q payments = 1) as Honce_p.
  { intros q. by apply occurrences_of_once. }
  assert (forall q, q ∈ debts -> occurrences_of q debts = 1) as Honce_d.
  { intros q. by apply occurrences_of_once. }
  pose proof Hnp as Hnp'. pose proof Hnd as Hnd'.
  rewrite <- Hp in Hnp'. rewrite <- Hd in Hnd'.
  apply NoDup_app in Hnp' as (_ & Hdisjoint_p & Hdeferred).
  apply NoDup_app in Hnd' as (_ & Hdisjoint_d & Hrest).
  assert (forall q, q ∈ used ->
            paid_from q exact = credit_remaining q /\ q ∉ deferred) as Hused.
  { intros q Hq. split; [|by apply Hdisjoint_p].
    specialize (Hpe q). rewrite Honce_p in Hpe by (rewrite <- Hp; set_solver).
    rewrite occurrences_of_absent in Hpe by by apply Hdisjoint_p. lia. }
  assert (forall q, q ∈ deferred ->
            paid_from q exact = 0 /\ 0 < credit_remaining q) as Hdef.
  { intros q Hq. split; [|apply Hpos_p; rewrite <- Hp; set_solver].
    specialize (Hpe q). rewrite Honce_p in Hpe by (rewrite <- Hp; set_solver).
    rewrite occurrences_of_once in Hpe by done. lia. }
  assert (forall q, q ∈ settled ->
            paid_to q exact = balance q /\ q ∉ rest) as Hsettled.
  { intros q Hq. split; [|by apply Hdisjoint_d].
    specialize (Hde q). rewrite Honce_d in Hde by (rewrite <- Hd; set_solver).
    rewrite occurrences_of_absent in Hde by by apply Hdisjoint_d. lia. }
  assert (forall q, q ∈ rest -> paid_to q exact = 0 /\ 0 < balance q) as Hrst.
  { intros q Hq. split; [|apply Hpos_d; rewrite <- Hd; set_solver].
    specialize (Hde q). rewrite Honce_d in Hde by (rewrite <- Hd; set_solver).
    rewrite occurrences_of_once in Hde by done. lia. }
  destruct exact_amount_match_only.
  { destruct Hgreedy as [-> ->]. rewrite app_nil_r. simpl.
    split_and!; intros q Hq.
    - by apply Hused.
    - destruct (Hdef q Hq). lia.
    - by apply Hsettled.
    - destruct (Hrst q Hq). lia. }
  assert (Forall (fun p => 0 <= credit_remaining p) deferred) as Hcredits.
  { apply Forall_forall. intros q Hq. destruct (Hdef q Hq). lia. }
  assert (Forall (fun d => 0 <= balance d) rest) as Hbalances.
  { apply Forall_forall. intros q Hq. destruct (Hrst q Hq). lia. }
  pose proof (greedy_loop_live _ _ _ _ _ _ _ _ _ Hgreedy) as Hlive.
  pose proof (greedy_loop_items _ _ _ _ _ _ _ _ _ Hgreedy) as [Hle_p Hle_d];
    [simpl; lia..|done|done|].
  apply greedy_loop_lists in Hgreedy as (Lu & Ll & Lp & Lr); [|done..].
  simpl in Lu, Ll, Lp, Lr, Hlive, Hle_p, Hle_d.
  assert (forall q, q ∉ deferred -> paid_from q later = 0) as Hnop.
  { intros q Hq. apply paid_from_absent.
    eapply Forall_impl; [exact Hlive|]. simpl. intros s [Hs _] Heq.
    by rewrite Heq in Hs. }
  assert (forall q, q ∉ rest -> paid_to q later = 0) as Hnod.
  { intros q Hq. apply paid_to_absent.
    eapply Forall_impl; [exact Hlive|]. simpl. intros s [_ Hs] Heq.
    by rewrite Heq in Hs. }
  assert (forall q, q ∈ deferred ->
            available credit_remaining q NoneYet deferred
            = credit_remaining q) as Hav_p.
  { intros q Hq. unfold available. rewrite occurrences_of_once by done.
    simpl. lia. }
  assert (forall q, q ∈ rest ->
            available balance q NoneYet rest = balance q) as Hav_d.
  { intros q Hq. unfold available. rewrite occurrences_of_once by done.
    simpl. lia. }
  split_and!; intros q Hq; rewrite ?paid_from_app, ?paid_to_app.
  - destruct (Lu q Hq) as [Hq0|[Hq0 Heq]].
    + destruct (Hused q Hq0) as [-> ?]. rewrite Hnop by done. lia.
    + destruct (Hdef q Hq0) as [-> _]. rewrite Heq, Hav_p by done. lia.
  - destruct (Ll q Hq) as [Hq0|[Hq0 Hne]]; [by apply elem_of_nil in Hq0|].
    destruct (Hdef q Hq0) as [-> _]. rewrite Hav_p in Hne by done.
    specialize (Hle_p q). unfold available in Hav_p.
    specialize (Hav_p q Hq0). simpl in *. lia.
  - destruct (Lp q Hq) as [Hq0|[Hq0 Heq]].
    + destruct (Hsettled q Hq0) as [-> ?]. rewrite Hnod by done. lia.
    + destruct (Hrst q Hq0) as [-> _]. rewrite Heq, Hav_d by done. lia.
  - destruct (Lr q Hq) as [Hq0|[Hq0 Hne]]; [by apply elem_of_nil in Hq0|].
    destruct (Hrst q Hq0) as [-> _]. rewrite Hav_d in Hne by done.
    specialize (Hle_d q). unfold available in Hav_d.
    specialize (Hav_d q Hq0). simpl in *. lia.
Qed.

End engine_lists.

Section engine_more_examples.
Import base bulk_utils apportionment allocation scenarios.

Lemma emitted_splits_positive_witness :
  Forall (fun p => 0 < credit_remaining no_splits p) S3_payments /\
  Forall (fun d => 0 < balance no_splits d) S3_debts /\
  exists splits results,
    make_payment_splits no_splits S3_payments S3_debts true false
    = Some (splits, results) /\
    Forall (fun s => 0 < amount s) splits.
Proof.
  assert (Forall (fun p => 0 < credit_remaining no_splits p) S3_payments)
    as Hpayments.
  { repeat constructor. }
  assert (Forall (fun d => 0 < balance no_splits d) S3_debts) as Hdebts.
  { repeat constructor. }
  split; [exact Hpayments|]. split; [exact Hdebts|].
  exact (emitted_splits_positive no_splits S3_payments S3_debts true false
           Hpayments Hdebts).
Defined.

Lemma no_item_is_overdrawn_witness :
  Forall (fun p => 0 <= credit_remaining no_splits p) S1_payments /\
  Forall (fun d => 0 <= balance no_splits d) S1_debts /\
  exists splits results,
    make_payment_splits no_splits S1_payments S1_debts false false
    = Some (splits, results) /\
    (forall p, paid_from p splits
               <= occurrences_of p S1_payments * credit_remaining no_splits p)
    /\
    (forall d, paid_to d splits
               <= occurrences_of d S1_debts * balance no_splits d).
Proof.
  assert (Forall (fun p => 0 <= credit_remaining no_splits p) S1_payments)
    as Hpayments.
  { repeat constructor; vm_compute; congruence. }
  assert (Forall (fun d => 0 <= balance no_splits d) S1_debts) as Hdebts.
  { repeat constructor; vm_compute; congruence. }
  split; [exact Hpayments|]. split; [exact Hdebts|].
  exact (no_item_is_overdrawn no_splits S1_payments S1_debts false false
           Hpayments Hdebts).
Defined.

Lemma emitted_pairs_are_unique_witness :
  NoDup S3_payments /\ NoDup S3_debts /\
  exists splits results,
    make_payment_splits no_splits S3_payments S3_debts true false
    = Some (splits, results) /\
    NoDup (payment_and_debt <$> splits).
Proof.
  assert (NoDup S3_payments) as Hpayments.
  { apply (bool_decide_unpack _). vm_compute. exact I. }
  assert (NoDup S3_debts) as Hdebts.
  { apply (bool_decide_unpack _). vm_compute. exact I. }
  split; [exact Hpayments|]. split; [exact Hdebts|].
  exact (emitted_pairs_are_unique no_splits S3_payments S3_debts true false
           Hpayments Hdebts).
Defined.

Lemma reported_lists_are_accurate_witness :
  NoDup S3_payments /\ NoDup S3_debts /\
  Forall (fun p => 0 < credit_remaining no_splits p) S3_payments /\
  Forall (fun d => 0 < balance no_splits d) S3_debts /\
  exists splits results,
    make_payment_splits no_splits S3_payments S3_debts true false
    = Some (splits, results) /\
    (forall p, p ∈ fully_used_payments results ->
       paid_from p splits = credit_remaining no_splits p) /\
    (forall p, p ∈ remaining_payments results ->
       paid_from p splits < credit_remaining no_splits p) /\
    (forall d, d ∈ fully_paid_debts results ->
       paid_to d splits = balance no_splits d) /\
    (forall d, d ∈ remaining_debts results ->
       paid_to d splits < balance no_splits d).
Proof.
  assert (NoDup S3_payments) as Hnp.
  { apply (bool_decide_unpack _). vm_compute. exact I. }
  assert (NoDup S3_debts) as Hnd.
  { apply (bool_decide_unpack _). vm_compute. exact I. }
  assert (Forall (fun p => 0 < credit_remaining no_splits p) S3_payments)
    as Hpayments.
  { repeat constructor. }
  assert (Forall (fun d => 0 < balance no_splits d) S3_debts) as Hdebts.
  { repeat constructor. }
  split; [exact Hnp|]. split; [exact Hnd|].
  split; [exact Hpayments|]. split; [exact Hdebts|].
  exact (reported_lists_are_accurate no_splits S3_payments S3_debts true false
           Hnp Hnd Hpayments Hdebts).
Defined.

End engine_more_examples.

(** * Properties of the bank-transfer preparator's pipeline *)
Section engine_totals.
Import base bulk_utils apportionment.
Variable split_manager : Z -> list Z.

(** The splits of a run sum to at most the credit of the payments and to
    at most the balance of the debts. *)
Lemma run_within_totals payments debts
    (prioritise_exact_amount_match exact_amount_match_only : bool)
    splits results :
  Forall (fun p => 0 <= credit_remaining split_manager p) payments ->
  Forall (fun d => 0 <= balance split_manager d) debts ->
  make_payment_splits split_manager payments debts
    prioritise_exact_amount_match exact_amount_match_only
  = Some (splits, results) ->
  total_split splits <= total_credit split_manager payments /\
  total_split splits <= total_balance split_manager debts.
Proof.
  intros Hpayments Hdebts Hrun.
  destruct (make_payment_splits_phases split_manager payments debts
              prioritise_exact_amount_match exact_amount_match_only)
    as (exact & used & settled & deferred & rest & later & results'
        & Hrun' & Hexact & Hgreedy).
  rewrite Hrun in Hrun'. simplify_eq.
  assert (total_split (exact ++ later) = total_split exact + total_split later)
    as ->.
  { unfold total_split. by rewrite fmap_app, sum_amounts_app. }
  assert (total_split exact + total_credit split_manager deferred
          = total_credit split_manager payments /\
          total_split exact + total_balance split_manager rest
          = total_balance split_manager debts /\
          deferred ⊆ payments /\ rest ⊆ debts) as (Hc & Hb & Hps & Hds).
  { destruct (_ || _).
    - apply exact_match_phase_facts in Hexact. tauto.
    - destruct Hexact as (-> & _ & _ & -> & ->). by unfold total_split. }
  assert (Forall (fun p => 0 <= credit_remaining split_manager p) deferred)
    as Hdeferred by (by eapply Forall_subseteq).
  assert (Forall (fun d => 0 <= balance split_manager d) rest) as Hrest
    by (by eapply Forall_subseteq).
  assert (0 <= total_credit split_manager deferred) as Hcredit.
  { clear -Hdeferred. induction Hdeferred; [done|].
    rewrite total_credit_cons. lia. }
  assert (0 <= total_balance split_manager rest) as Hbalance.
  { clear -Hrest. induction Hrest; [done|]. rewrite total_balance_cons. lia. }
  destruct exact_amount_match_only.
  - destruct Hgreedy as [-> _]. unfold total_split at 2 4. simpl. lia.
  - apply greedy_loop_conserves in Hgreedy; simpl in *; [lia|done..].
Qed.

Lemma sum_amounts_perm l k : l ≡ₚ k -> sum_amounts l = sum_amounts k.
Proof.
  unfold sum_amounts. induction 1; simpl; lia.
Qed.

End engine_totals.

Section grouping.
Import debt_transfers.
Context {A : Type} (key_of : A -> Z).

Local Abbreviation bucket key l := (filter (fun x => key_of x = key) l).
Local Abbreviation groups keys l :=
  ((fun key => (key, bucket key l)) <$> keys).
Local Abbreviation buckets_of l :=
  (foldl (fun buckets x => bucket_add (key_of x) x buckets) [] l).

Lemma bucket_snoc key l x :
  bucket key (l ++ [x])
  = bucket key l ++ (if decide (key_of x = key) then [x] else []).
Proof. by rewrite filter_app. Qed.

Lemma groups_snoc_other (keys : list Z) l x :
  key_of x ∉ keys -> groups keys (l ++ [x]) = groups keys l.
Proof.
  intros Hnot. apply list_fmap_ext. intros i key Hkey. simpl.
  rewrite bucket_snoc.
  destruct (decide (key_of x = key)) as [<-|_]; [|by rewrite app_nil_r].
  destruct Hnot. by eapply list_elem_of_lookup_2.
Qed.

Lemma bucket_add_groups (keys : list Z) l x :
  NoDup keys ->
  bucket_add (key_of x) x (groups keys l)
  = if decide (key_of x ∈ keys) then groups keys (l ++ [x])
    else groups keys (l ++ [x]) ++ [(key_of x, [x])].
Proof.
  induction 1 as [|key keys Hkey Hkeys IH]; [done|].
  rewrite !fmap_cons. cbn [bucket_add].
  destruct (decide (key = key_of x)) as [->|Hne].
  - rewrite decide_True by left.
    rewrite (groups_snoc_other keys) by done.
    by rewrite bucket_snoc, decide_True.
  - rewrite bucket_snoc.
    rewrite (decide_False (P := key_of x = key)) by congruence.
    rewrite app_nil_r, IH.
    destruct (decide (key_of x ∈ keys)) as [Hin|Hnin].
    + by rewrite decide_True by by right.
    + rewrite decide_False; [done|]. intros [?|?]%elem_of_cons; by simplify_eq.
Qed.

Lemma buckets_of_groups l :
  exists keys,
    NoDup keys /\
    (forall key, key ∈ keys <-> bucket key l <> []) /\
    buckets_of l = groups keys l.
Proof.
  induction l as [|x l (keys & Hnodup & Hkeys & IH)] using rev_ind.
  - exists []. split_and!; [constructor| |done].
    intros key. split; [by intros ?%elem_of_nil|done].
  - rewrite foldl_snoc, IH, bucket_add_groups by done.
    destruct (decide (key_of x ∈ keys)) as [Hin|Hnin].
    + exists keys. split_and!; [done| |done].
      intros key. rewrite Hkeys, bucket_snoc. split.
      * intros Hne Happ. by apply app_eq_nil in Happ as [? _].
      * intros Hne Hnil. apply Hkeys in Hin. apply Hne. rewrite Hnil. simpl.
        by destruct (decide (key_of x = key)) as [<-|].
    + exists (keys ++ [key_of x]). split_and!.
      * apply NoDup_app. split_and!; [done| |apply NoDup_singleton].
        by intros key Hkey ->%list_elem_of_singleton.
      * intros key. rewrite bucket_snoc, elem_of_app, Hkeys,
          list_elem_of_singleton.
        destruct (decide (key_of x = key)) as [<-|Hother].
        -- split; [|by right]. intros _ Happ.
           by apply app_eq_nil in Happ as [_ ?].
        -- rewrite app_nil_r. split; [by intros [?|?]|by left].
      * rewrite (fmap_app _ keys). simpl.
        rewrite bucket_snoc, decide_True by done.
        assert (bucket (key_of x) l = []) as ->; [|done].
        destruct (bucket (key_of x) l) eqn:E; [done|].
        destruct Hnin. apply Hkeys. by rewrite E.
Qed.

Lemma bucket_add_concat key (x : A) buckets :
  concat (snd <$> bucket_add key x buckets) ≡ₚ concat (snd <$> buckets) ++ [x].
Proof.
  induction buckets as [|[k xs] later IH]; [done|]. cbn [bucket_add].
  destruct (decide (k = key)); rewrite !fmap_cons; cbn [concat snd].
  - rewrite <- !app_assoc. f_equiv. apply Permutation_app_comm.
  - by rewrite IH, app_assoc.
Qed.

Lemma buckets_of_concat l : concat (snd <$> buckets_of l) ≡ₚ l.
Proof.
  induction l as [|x l IH] using rev_ind; [done|].
  by rewrite foldl_snoc, bucket_add_concat, IH.
Qed.

End grouping.

Section pipeline_facts.
Import base bulk_utils internal preparator transfers querysets dedup
  debt_transfers.
Variable parse_ogm : string -> option (Z * Z).
Variable parse_internal_debt_ogm : string -> Outcome Z.
Variable OGM_INTERNAL_DEBT_PREFIX : string.
Variable PAYMENT_NATURE_TRANSFER : Z.
Variable localdate : Z -> Z.
Variable _dt_fallback : Z -> Z.
Variable by_payment_tracking_nos : list string -> list ChoirMember.
Variable split_manager : Z -> list Z.
Variable debt_table : QuerySet DebtRow.
Variable order_by_timestamp : list DebtRow -> list DebtRow.
Variable history : list InternalPayment.

Local Abbreviation ogm_applies :=
  (transfers.ogm_applies parse_ogm OGM_INTERNAL_DEBT_PREFIX).
Local Abbreviation model_kwargs_for_transaction :=
  (transfers.model_kwargs_for_transaction parse_ogm parse_internal_debt_ogm
     OGM_INTERNAL_DEBT_PREFIX PAYMENT_NATURE_TRANSFER).
Local Abbreviation prepare :=
  (debt_transfers.prepare parse_ogm OGM_INTERNAL_DEBT_PREFIX
     by_payment_tracking_nos).
Local Abbreviation indiv_transactions :=
  (debt_transfers.indiv_transactions parse_ogm parse_internal_debt_ogm
     OGM_INTERNAL_DEBT_PREFIX PAYMENT_NATURE_TRANSFER).
Local Abbreviation validate_global :=
  (debt_transfers.validate_global localdate _dt_fallback history).
Local Abbreviation review :=
  (debt_transfers.review split_manager debt_table order_by_timestamp).
Local Abbreviation valid_transactions :=
  (debt_transfers.valid_transactions parse_ogm parse_internal_debt_ogm
     OGM_INTERNAL_DEBT_PREFIX PAYMENT_NATURE_TRANSFER localdate _dt_fallback
     by_payment_tracking_nos split_manager debt_table order_by_timestamp
     history).
Local Abbreviation signature_of := (dedup.signature_of localdate).
Local Abbreviation occ_hist := (dedup.occ_hist localdate _dt_fallback).

(** The outcomes of [model_kwargs_for_transaction], case by case. *)
Lemma model_kwargs_cases (_members_by_id : gmap Z ChoirMember)
    (t : TransactionInfo) (_errors : list Error) :
  (ogm_applies (ogm t) = false /\
   model_kwargs_for_transaction _members_by_id t _errors
   = (Returned None, _errors)) \/
  (ogm_applies (ogm t) = true /\ amount t < 0 /\
   model_kwargs_for_transaction _members_by_id t _errors
   = (Returned None,
      preparator.error_at_line (line_no t) negative_amount_message
        {[ "amount" := amount t ]} _errors)) \/
  (ogm_applies (ogm t) = true /\ 0 <= amount t /\
   ((exists e, parse_internal_debt_ogm (ogm t) = Raised e /\
               model_kwargs_for_transaction _members_by_id t _errors
               = (Raised e, _errors)) \/
    (exists pk, parse_internal_debt_ogm (ogm t) = Returned pk /\
       match _members_by_id !! pk with
       | None =>
           model_kwargs_for_transaction _members_by_id t _errors
           = (Raised KeyError, _errors)
       | Some member =>
           model_kwargs_for_transaction _members_by_id t _errors
           = (Returned
                (if decide (ogm t = payment_tracking_no member)
                 then Some {| kw_total_amount := amount t;
                              kw_timestamp := timestamp t;
                              kw_member := Some member;
                              kw_nature := Some PAYMENT_NATURE_TRANSFER |}
                 else None), _errors)
       end))).
Proof.
  unfold transfers.model_kwargs_for_transaction, transfer_kwargs,
    ledger_entry_kwargs.
  destruct (ogm_applies (ogm t)); simpl; [|by left].
  right. destruct (amount t <? 0) eqn:Hneg.
  { apply Z.ltb_lt in Hneg. left. by split_and!. }
  apply Z.ltb_ge in Hneg. right. split_and!; [done..|].
  destruct (parse_internal_debt_ogm (ogm t)) as [pk|e]; [right|left; by eauto].
  exists pk. split; [done|].
  destruct (_members_by_id !! pk) as [member|]; [|done].
  destruct (decide (ogm t = payment_tracking_no member)) as [Heq|Hne].
  - by rewrite bool_decide_eq_true_2.
  - by rewrite bool_decide_eq_false_2.
Qed.

Local Abbreviation accepted :=
  (debt_transfers.accepted parse_ogm parse_internal_debt_ogm
     OGM_INTERNAL_DEBT_PREFIX).

Local Abbreviation kept_row :=
  (debt_transfers.kept_row parse_ogm parse_internal_debt_ogm
     OGM_INTERNAL_DEBT_PREFIX PAYMENT_NATURE_TRANSFER).
Local Abbreviation review_buckets :=
  (debt_transfers.review_buckets split_manager debt_table order_by_timestamp).
Local Abbreviation total_used_for :=
  (debt_transfers.total_used_for split_manager debt_table order_by_timestamp).

Lemma indiv_transactions_returned _members_by_id transactions :
  forall _errors valid _errors',
  indiv_transactions _members_by_id transactions _errors
  = Returned (valid, _errors') ->
  (fun v : ValidTransaction => transaction v) <$> valid
  = filter (fun t => accepted _members_by_id t = true) transactions /\
  Forall (kept_row _members_by_id) valid.
Proof.
  induction transactions as [|t later IH]; intros _errors valid _errors' H.
  - simpl in H. simplify_eq. by split; [|constructor].
  - cbn [debt_transfers.indiv_transactions] in H. rewrite filter_cons.
    destruct (model_kwargs_cases _members_by_id t _errors)
      as [[Happ Hk]|[(Happ & Hneg & Hk)|(Happ & Hpos & Hk)]].
    + rewrite Hk in H.
      assert (accepted _members_by_id t = false) as Hacc.
      { unfold debt_transfers.accepted. by rewrite Happ. }
      rewrite decide_False by (rewrite Hacc; done).
      destruct (indiv_transactions _ later _errors) as [[valid0 errs0]|]
        eqn:Hlater; simplify_eq. by eapply IH.
    + rewrite Hk in H.
      assert (accepted _members_by_id t = false) as Hacc.
      { unfold debt_transfers.accepted. rewrite Happ.
        assert ((0 <=? amount t) = false) as -> by by apply Z.leb_gt. done. }
      rewrite decide_False by (rewrite Hacc; done).
      destruct (indiv_transactions _ later _) as [[valid0 errs0]|]
        eqn:Hlater; simplify_eq. by eapply IH.
    + destruct Hk as [(e & Hparse & Hk)|(pk & Hparse & Hk)];
        [by rewrite Hk in H|].
      destruct (_members_by_id !! pk) as [member|] eqn:Hmember;
        rewrite Hk in H; [|done].
      assert (accepted _members_by_id t
              = bool_decide (ogm t = payment_tracking_no member)) as Hacc.
      { unfold debt_transfers.accepted. rewrite Happ, Hparse, Hmember.
        assert ((0 <=? amount t) = true) as -> by by apply Z.leb_le. done. }
      destruct (indiv_transactions _ later _errors) as [[valid0 errs0]|]
        eqn:Hlater; [|done].
      apply IH in Hlater as [IH1 IH2].
      destruct (decide (ogm t = payment_tracking_no member)) as [Heq|Hne].
      * rewrite bool_decide_eq_true_2 in Hacc by done. simplify_eq.
        rewrite decide_True by done. rewrite fmap_cons. simpl.
        split; [by rewrite IH1|]. constructor; [|done].
        split_and!; [done..|]. by exists pk, member.
      * rewrite bool_decide_eq_false_2 in Hacc by done. simplify_eq.
        rewrite decide_False by (rewrite Hacc; done). done.
Qed.

Lemma indiv_transactions_KeyError _members_by_id transactions :
  (forall t, t ∈ transactions -> ogm_applies (ogm t) = true ->
     exists pk, parse_internal_debt_ogm (ogm t) = Returned pk) ->
  Exists (fun t => ogm_applies (ogm t) = true /\ 0 <= amount t /\
                   exists pk, parse_internal_debt_ogm (ogm t) = Returned pk /\
                              _members_by_id !! pk = None) transactions ->
  forall _errors,
  indiv_transactions _members_by_id transactions _errors = Raised KeyError.
Proof.
  induction transactions as [|t later IH]; intros Hparse Hbad _errors;
    [by apply Exists_nil in Hbad|].
  cbn [debt_transfers.indiv_transactions].
  assert (forall _errors,
            indiv_transactions _members_by_id later _errors
            = Raised KeyError \/
            (ogm_applies (ogm t) = true /\ 0 <= amount t /\
             exists pk, parse_internal_debt_ogm (ogm t) = Returned pk /\
                        _members_by_id !! pk = None)) as Hcases.
  { intros errs. apply Exists_cons in Hbad as [?|Hbad]; [by right|].
    left. apply IH; [|done]. intros t' Ht'. apply Hparse. by right. }
  destruct (model_kwargs_cases _members_by_id t _errors)
    as [[Happ Hk]|[(Happ & Hneg & Hk)|(Happ & Hpos & Hk)]].
  - rewrite Hk. destruct (Hcases _errors) as [->|(? & _)]; [done|congruence].
  - rewrite Hk. match goal with |- context [indiv_transactions _ later ?e] =>
      destruct (Hcases e) as [->|(_ & ? & _)]; [done|lia] end.
  - destruct Hk as [(e & He & Hk)|(pk & Hpk & Hk)].
    + destruct (Hparse t) as [pk Hpk]; [left|done|congruence].
    + destruct (_members_by_id !! pk) as [member|] eqn:Hmember;
        rewrite Hk; [|done].
      destruct (Hcases _errors) as [->|(_ & _ & pk' & Hpk' & Hnone)];
        [done|congruence].
Qed.


Lemma bucket_append_concat sig t import_buckets :
  concat (snd <$> bucket_append sig t import_buckets)
  ≡ₚ concat (snd <$> import_buckets) ++ [t].
Proof.
  induction import_buckets as [|[k xs] later IH]; [done|].
  cbn [bucket_append].
  destruct (decide (k = sig)); rewrite !fmap_cons; cbn [concat snd].
  - rewrite <- !app_assoc. f_equiv. apply Permutation_app_comm.
  - by rewrite IH, app_assoc.
Qed.

Lemma import_buckets_concat batch :
  concat (snd <$> import_buckets_of localdate batch) ≡ₚ batch.
Proof.
  induction batch as [|t batch IH] using rev_ind; [done|].
  unfold import_buckets_of. rewrite foldl_snoc.
  by rewrite bucket_append_concat, IH.
Qed.

Lemma import_buckets_signatures batch :
  Forall (fun b : Signature * list ValidTransaction =>
            exists t, t ∈ batch /\ signature_of t = b.1)
    (import_buckets_of localdate batch) /\
  forall t, t ∈ batch ->
    signature_of t ∈ (import_buckets_of localdate batch).*1.
Proof.
  destruct (import_buckets_grouped localdate batch)
    as (keys & Hnodup & Hkeys & ->).
  unfold grouped. split.
  - apply Forall_fmap, Forall_forall. intros sig Hsig. simpl.
    apply Hkeys in Hsig.
    destruct (dedup.batch_bucket localdate sig batch) as [|t l] eqn:E; [done|].
    exists t. assert (t ∈ dedup.batch_bucket localdate sig batch) as Hin.
    { rewrite E. left. }
    apply list_elem_of_filter in Hin. tauto.
  - intros t Ht. rewrite <- list_fmap_compose.
    apply list_elem_of_fmap. exists (signature_of t). split; [done|].
    apply Hkeys. intros Hnil.
    assert (t ∈ dedup.batch_bucket localdate (signature_of t) batch) as Hin.
    { by apply list_elem_of_filter. }
    rewrite Hnil in Hin. by apply elem_of_nil in Hin.
Qed.

Lemma signal_duplicate_raises dup_sig occ_in_hist transactions _errors :
  signal_duplicate dup_sig occ_in_hist transactions _errors = Raised KeyError.
Proof.
  unfold signal_duplicate, debt_transfers.error_at_lines, format.
  assert (forall params : gmap string Z,
            params = dup_error_params dup_sig ->
            forall hist import dupcount,
            (<["dupcount" := dupcount]>
               (<["import" := import]> (<["hist" := hist]> params)))
              !! "member" = None) as Hmember.
  { intros params -> hist import dupcount. unfold dup_error_params.
    rewrite !lookup_insert_ne by done. by rewrite lookup_singleton_ne. }
  destruct (decide (occ_in_hist = 1%nat /\ length transactions = 1%nat));
    simpl; by rewrite Hmember.
Qed.

Lemma strip_duplicates_outcome historical_buckets import_buckets :
  forall _errors,
  (Forall (fun b : Signature * list ValidTransaction =>
             occurrences historical_buckets b.1 = 0%nat) import_buckets ->
   debt_transfers.strip_duplicates historical_buckets import_buckets _errors
   = Returned (concat (snd <$> import_buckets), _errors)) /\
  (Exists (fun b : Signature * list ValidTransaction =>
             occurrences historical_buckets b.1 <> 0%nat) import_buckets ->
   debt_transfers.strip_duplicates historical_buckets import_buckets _errors
   = Raised KeyError).
Proof.
  induction import_buckets as [|[sig ts] later IH]; intros _errors.
  - split; [done|]. by intros ?%Exists_nil.
  - cbn [debt_transfers.strip_duplicates]. simpl.
    destruct (decide (occurrences historical_buckets sig = 0%nat)) as [Hz|Hnz].
    + rewrite Hz. simpl. destruct (IH _errors) as [IH1 IH2]. split.
      * intros [_ Hlater]%Forall_cons. by rewrite IH1.
      * intros [?|Hlater]%Exists_cons; [done|]. by rewrite IH2.
    + rewrite signal_duplicate_raises. split; [|done].
      by intros [? _]%Forall_cons.
Qed.

(** Property X17.  [validate_global] as [DebtTransferPaymentPreparator]
    runs it can never report a duplicate: its message templates name
    [%(member)s], which [dup_error_params] does not supply, so that
    formatting the message raises [KeyError].  If no row of the batch has a
    signature that the consulted history knows, the batch is returned, up
    to its order, and no error is recorded; if some row has one,
    [validate_global] raises [KeyError]. *)
Theorem duplicate_report_raises_KeyError batch _errors :
  (Forall (fun t => occ_hist history batch (signature_of t) = 0%nat) batch ->
   exists survivors,
     validate_global batch _errors = Returned (survivors, _errors) /\
     survivors ≡ₚ batch) /\
  (Exists (fun t => occ_hist history batch (signature_of t) <> 0%nat) batch ->
   validate_global batch _errors = Raised KeyError).
Proof.
  destruct batch as [|first others].
  { split; [by exists []|]. by intros ?%Exists_nil. }
  unfold debt_transfers.validate_global.
  set (batch := first :: others).
  set (buckets := dupcheck_buckets _ _ _ _).
  assert (forall sig, occurrences buckets sig = occ_hist history batch sig)
    as Hocc by (intros sig; apply dupcheck_buckets_occ_hist).
  destruct (import_buckets_signatures batch) as [Hsigs Hrows].
  destruct (strip_duplicates_outcome buckets
              (import_buckets_of localdate batch) _errors) as [Hnone Hsome].
  split.
  - intros Hbatch. rewrite Hnone.
    + eexists. split; [done|]. apply import_buckets_concat.
    + eapply Forall_impl; [exact Hsigs|]. simpl.
      intros b (t & Ht & <-). rewrite Hocc.
      rewrite Forall_forall in Hbatch. by apply Hbatch.
  - intros (t & Ht & Hdup)%Exists_exists. apply Hsome.
    apply Exists_exists. specialize (Hrows t Ht).
    apply list_elem_of_fmap in Hrows as (b & Hb & Hin).
    exists b. split; [done|]. by rewrite <- Hb, Hocc.
Qed.

Lemma prepare_keyed transactions key member :
  prepare transactions !! key = Some member -> member_pk member = key.
Proof.
  unfold debt_transfers.prepare.
  generalize (by_payment_tracking_nos
                (ogms_to_query parse_ogm OGM_INTERNAL_DEBT_PREFIX
                   transactions)).
  intros member_qs. revert key member.
  assert (forall (d : gmap Z ChoirMember),
            map_Forall (fun k m => member_pk m = k) d ->
            map_Forall (fun k m => member_pk m = k)
              (foldl (fun d m => <[member_pk m := m]> d) d member_qs))
    as Hfold.
  { induction member_qs as [|m ms IH]; intros d Hd; [done|]. simpl.
    apply IH. by apply map_Forall_insert_2. }
  intros key member. apply (Hfold ∅). apply map_Forall_empty.
Qed.

Lemma review_buckets_reports _members_by_id _trans_buckets :
  Forall (fun b : Z * list ValidTransaction =>
            is_Some (_members_by_id !! b.1)) _trans_buckets ->
  forall _errors,
  exists reports,
    review_buckets _members_by_id _trans_buckets _errors = Returned reports /\
    _errors `suffix_of` reports /\
    Forall (fun b : Z * list ValidTransaction =>
              total_used_for _members_by_id b.1 b.2 < total_credit_for b.2 ->
              exists member,
                _members_by_id !! b.1 = Some member /\
                overpayment
                  (sorted ((fun t : ValidTransaction => line_no t) <$> b.2))
                  member (total_used_for _members_by_id b.1 b.2)
                  (total_credit_for b.2) ∈ reports) _trans_buckets.
Proof.
  induction 1 as [|[key ts] later [member Hmember] _ IH]; intros _errors.
  - exists _errors. split_and!; [done|reflexivity|constructor].
  - cbn [debt_transfers.review_buckets].
    change (sum_amounts (bulk_utils.amount <$> _))
      with (total_used_for _members_by_id key ts).
    change (sum_amounts (_ <$> sorted_by_timestamp _))
      with (total_credit_for ts).
    simpl in Hmember. rewrite Hmember.
    destruct (total_used_for _members_by_id key ts <? total_credit_for ts)
      eqn:Hover.
    + match goal with |- context [review_buckets _ later ?e] =>
        destruct (IH e) as (reports & -> & Hsuffix & Hlater) end.
      exists reports. split_and!; [done| |].
      * destruct Hsuffix as [before ->]. eexists (before ++ [_]).
        by rewrite <- app_assoc.
      * constructor; [|done]. simpl. intros _. exists member. split; [done|].
        eapply suffix_subseteq; [exact Hsuffix|]. left.
    + destruct (IH _errors) as (reports & -> & Hsuffix & Hlater).
      exists reports. split_and!; [done..|].
      constructor; [|done]. simpl. apply Z.ltb_ge in Hover. lia.
Qed.

Local Abbreviation owed :=
  (unmatched_balance_annotation split_manager debt_row).
Local Abbreviation debt_qs :=
  (debt_transfers.debt_qs split_manager debt_table order_by_timestamp).
Local Abbreviation _debt_buckets :=
  (debt_transfers._debt_buckets split_manager debt_table order_by_timestamp).
Local Abbreviation debts_for :=
  (debt_transfers.debts_for split_manager debt_table order_by_timestamp).
Local Abbreviation make_splits := (debt_transfers.make_splits split_manager).
Local Abbreviation owed_by := (debt_transfers.owed_by split_manager debt_table).

Lemma insert_by_timestamp_perm p l : insert_by_timestamp p l ≡ₚ p :: l.
Proof.
  induction l as [|q l IH]; [done|]. simpl.
  destruct (base.timestamp q <? base.timestamp p); [|done].
  by rewrite IH, Permutation_swap.
Qed.

Lemma sorted_by_timestamp_perm l : sorted_by_timestamp l ≡ₚ l.
Proof.
  induction l as [|p l IH]; [done|]. unfold sorted_by_timestamp in *. simpl.
  by rewrite insert_by_timestamp_perm, IH.
Qed.

Lemma debt_buckets_lookup (qs : list DebtRow) key :
  forall debt_buckets : gmap Z (list DebtRow),
  default []
    (foldl (fun debt_buckets (debt : DebtRow) =>
              <[debt_member_id debt :=
                  default [] (debt_buckets !! debt_member_id debt) ++ [debt]]>
                debt_buckets) debt_buckets qs !! key)
  = default [] (debt_buckets !! key)
    ++ filter (fun debt : DebtRow => debt_member_id debt = key) qs.
Proof.
  induction qs as [|debt qs IH]; intros debt_buckets; cbn [foldl].
  - by rewrite filter_nil, app_nil_r.
  - rewrite IH, filter_cons.
    destruct (decide (debt_member_id debt = key)) as [->|Hne].
    + rewrite lookup_insert_eq. simpl. by rewrite <- app_assoc.
    + by rewrite lookup_insert_ne.
Qed.

Lemma make_splits_run payments debts :
  exists results,
    make_payment_splits split_manager payments debts true false
    = Some (make_splits payments debts, results).
Proof.
  unfold debt_transfers.make_splits.
  destruct (make_payment_splits_phases split_manager payments debts true false)
    as (exact & used & settled & deferred & rest & later & results
        & -> & _).
  by exists results.
Qed.

Lemma debts_for_balance _members_by_id key :
  (forall l, order_by_timestamp l ≡ₚ l) ->
  is_Some (_members_by_id !! key) ->
  Forall (fun d => 0 <= balance split_manager d)
    (debts_for _members_by_id key) /\
  apportionment.total_balance split_manager (debts_for _members_by_id key)
  = owed_by key.
Proof.
  intros Horder Hkey.
  unfold debt_transfers.debts_for, debt_transfers._debt_buckets.
  rewrite debt_buckets_lookup, lookup_empty. simpl.
  assert (filter (fun debt : DebtRow => debt_member_id debt = key)
            (debt_qs _members_by_id)
          ≡ₚ filter (fun debt : DebtRow =>
                       debt_member_id debt = key /\ 0 < owed debt)
               (rows debt_table)) as Hrows.
  { unfold debt_transfers.debt_qs. rewrite Horder, unpaid_rows. simpl.
    rewrite !list_filter_filter.
    match goal with |- ?a ≡ₚ ?b => enough (a = b) as -> by done end.
    apply list_filter_iff. intros debt. split; [tauto|].
    intros [Heq ?]. by rewrite Heq. }
  split.
  - apply Forall_fmap, Forall_forall. intros debt Hdebt.
    rewrite Hrows in Hdebt. apply list_elem_of_filter in Hdebt as [[_ Hpos] _].
    unfold balance, unmatched_balance. simpl. lia.
  - unfold apportionment.total_balance, debt_transfers.owed_by.
    rewrite <- list_fmap_compose.
    erewrite (list_fmap_ext _ owed); [|intros i debt _; reflexivity].
    apply sum_amounts_perm. by rewrite Hrows.
Qed.

Lemma validate_global_returned batch _errors survivors _errors' :
  validate_global batch _errors = Returned (survivors, _errors') ->
  survivors ≡ₚ batch /\ _errors' = _errors.
Proof.
  destruct batch as [|first others].
  { simpl. intros H. by simplify_eq. }
  unfold debt_transfers.validate_global.
  set (batch := first :: others).
  set (buckets := dupcheck_buckets _ _ _ _).
  destruct (strip_duplicates_outcome buckets
              (import_buckets_of localdate batch) _errors) as [Hnone Hsome].
  destruct (decide (Forall (fun b : Signature * list ValidTransaction =>
                              occurrences buckets b.1 = 0%nat)
                      (import_buckets_of localdate batch))) as [Hall|Hnot].
  - rewrite Hnone by done. intros. simplify_eq.
    split; [apply import_buckets_concat|done].
  - rewrite Hsome; [done|]. apply not_Forall_Exists in Hnot; [done|].
    intros b. apply _.
Qed.

Lemma kept_row_member transactions v :
  kept_row (prepare transactions) v ->
  exists member,
    prepare transactions !! member_id (ledger_entry v) = Some member /\
    payment_tracking_no member = ogm v /\
    total_amount (ledger_entry v) = amount v /\
    credit_remaining split_manager (ledger_entry v) = amount v /\
    0 <= amount v.
Proof.
  intros (_ & Hpos & pk & member & _ & Hmember & Hogm & ->).
  exists member. simpl. pose proof (prepare_keyed _ _ _ Hmember) as ->.
  split_and!; [done|done|done| |done].
  unfold credit_remaining, unmatched_balance, matched_balance. simpl. lia.
Qed.

Lemma valid_transactions_steps transactions _errors valid reports :
  valid_transactions transactions _errors = Returned (valid, reports) ->
  exists indiv _errors',
    indiv_transactions (prepare transactions) transactions _errors
    = Returned (indiv, _errors') /\
    valid ≡ₚ indiv /\
    review (prepare transactions) valid (recorded <$> _errors')
    = Returned reports.
Proof.
  unfold debt_transfers.valid_transactions. intros H.
  destruct (indiv_transactions _ transactions _errors)
    as [[indiv errs1]|] eqn:Hindiv; [|done].
  destruct (validate_global indiv errs1) as [[valid' errs2]|] eqn:Hglobal;
    [|done].
  apply validate_global_returned in Hglobal as [Hperm ->].
  destruct (review _ valid' _) as [reports'|] eqn:Hreview; [|done].
  simplify_eq. by exists indiv, errs1.
Qed.

Lemma review_returns transactions valid _errors :
  Forall (kept_row (prepare transactions)) valid ->
  exists keys reports,
    NoDup keys /\
    (forall key, key ∈ keys <->
       filter (fun v : ValidTransaction =>
                 member_id (ledger_entry v) = key) valid <> []) /\
    review (prepare transactions) valid _errors = Returned reports /\
    _errors `suffix_of` reports /\
    Forall (fun key =>
              let mine := filter (fun v : ValidTransaction =>
                                    member_id (ledger_entry v) = key) valid in
              total_used_for (prepare transactions) key mine
              < total_credit_for mine ->
              exists member,
                prepare transactions !! key = Some member /\
                overpayment
                  (sorted ((fun t : ValidTransaction => line_no t) <$> mine))
                  member (total_used_for (prepare transactions) key mine)
                  (total_credit_for mine) ∈ reports) keys.
Proof.
  intros Hvalid. unfold debt_transfers.review, transaction_buckets.
  destruct (buckets_of_groups
              (fun v : ValidTransaction => member_id (ledger_entry v)) valid)
    as (keys & Hnodup & Hkeys & ->).
  destruct (review_buckets_reports (prepare transactions)
              ((fun key =>
                  (key, filter (fun v : ValidTransaction =>
                                  member_id (ledger_entry v) = key) valid))
                 <$> keys)) with (_errors := _errors)
    as (reports & Hrun & Hsuffix & Hreports).
  { apply Forall_fmap, Forall_forall. intros key Hkey. simpl.
    apply Hkeys in Hkey.
    destruct (filter _ valid) as [|v l] eqn:E; [done|].
    assert (v ∈ filter (fun v : ValidTransaction =>
                          member_id (ledger_entry v) = key) valid) as Hv.
    { rewrite E. left. }
    apply list_elem_of_filter in Hv as [<- Hv].
    rewrite Forall_forall in Hvalid.
    destruct (kept_row_member _ _ (Hvalid v Hv)) as (member & -> & _).
    by eexists. }
  exists keys, reports. split_and!; [done..|].
  by apply Forall_fmap in Hreports.
Qed.




End pipeline_facts.

Section pipeline_examples.
Import base bulk_utils internal preparator transfers querysets dedup
  debt_transfers scenarios more_scenarios.

Local Abbreviation valid_transactions find :=
  (debt_transfers.valid_transactions ogm_codec.parse_ogm
     ogm_codec.parse_internal_debt_ogm "2" 2 localdate _dt_fallback find
     no_splits debts_of_123456 (fun l => l) []).
Local Abbreviation prepare find :=
  (debt_transfers.prepare ogm_codec.parse_ogm "2" find).





(** A batch that repeats a stored transfer cannot be processed. *)
Example repeated_transfer_raises_KeyError :
  debt_transfers.valid_transactions ogm_codec.parse_ogm
    ogm_codec.parse_internal_debt_ogm "2" 2 localdate _dt_fallback everybody
    no_splits debts_of_123456 (fun l => l)
    [ledger_entry (kept (canonical_row 2 10000))]
    [canonical_row 2 10000] []
  = Raised KeyError.
Proof. vm_compute. reflexivity. Qed.

End pipeline_examples.

(** * Properties of the CSV parsers *)
Section csv_facts.
Import csv_parsers.
Variable amount_column_name : string.
Variable date_column_name : string.
Variable quantize : string -> option Z.
Variable strptime : string -> option Z.
Variable now : Z.
Variable _dt_fallback : When -> Z.

Local Abbreviation parse_row_to_dict :=
  (csv_parsers.parse_row_to_dict amount_column_name date_column_name quantize
     strptime now).
Local Abbreviation parse_row :=
  (csv_parsers.parse_row amount_column_name date_column_name quantize
     strptime now _dt_fallback).
Local Abbreviation member_parse_row :=
  (csv_parsers.member_parse_row amount_column_name date_column_name quantize
     strptime now _dt_fallback).
Local Abbreviation bank_parse_row :=
  (csv_parsers.bank_parse_row amount_column_name date_column_name quantize
     strptime now _dt_fallback).

(** A row with an amount field either gives keyword arguments that carry
    its line number and records nothing, or gives [None] and records one or
    two errors on its line. *)
Lemma parse_row_to_dict_cases line row _errors amount_str :
  row !! amount_column_name = Some (Some amount_str) ->
  (exists kwargs,
     parse_row_to_dict line row _errors = (Ok (Some kwargs), _errors) /\
     kw_line_no kwargs = line) \/
  (exists new,
     parse_row_to_dict line row _errors = (Ok None, new ++ _errors) /\
     new <> [] /\ Forall (fun e : ParserError => e.1 = line) new /\
     (quantize (replace_commas amount_str) = None \/
      exists date_str,
        row !! date_column_name = Some (Some date_str) /\
        strptime date_str = None)).
Proof.
  intros Hamount. unfold csv_parsers.parse_row_to_dict, _parse_amount,
    _parse_date, error. rewrite Hamount.
  destruct (quantize (replace_commas amount_str)) as [rd|] eqn:Hrd.
  - destruct (row !! date_column_name) as [[[|c date_str]|]|] eqn:Hdate; simpl;
      try (left; eexists; split; [reflexivity|done]).
    destruct (strptime (String c date_str)) as [date|] eqn:Hparse; simpl.
    + left. eexists. split; [reflexivity|done].
    + right. exists [(line, invalid_date (String c date_str))].
      split_and!; [done|done|by repeat constructor|].
      right. by exists (String c date_str).
  - right.
    destruct (row !! date_column_name) as [[[|c date_str]|]|] eqn:Hdate; simpl;
      try (exists [(line, invalid_amount (replace_commas amount_str))];
           split_and!; [done|done|by repeat constructor|by left]).
    destruct (strptime (String c date_str)) as [date|] eqn:Hparse; simpl.
    + exists [(line, invalid_amount (replace_commas amount_str))].
      split_and!; [done|done|by repeat constructor|by left].
    + exists [(line, invalid_date (String c date_str));
              (line, invalid_amount (replace_commas amount_str))].
      split_and!; [done|done|by repeat constructor|by left].
Qed.

Lemma parse_row_cases line row _errors amount_str :
  row !! amount_column_name = Some (Some amount_str) ->
  (exists t,
     parse_row line row _errors = (Ok (Some t), _errors) /\ line_no t = line) \/
  (exists new,
     parse_row line row _errors = (Ok None, new ++ _errors) /\
     new <> [] /\ Forall (fun e : ParserError => e.1 = line) new).
Proof.
  intros Hamount. unfold csv_parsers.parse_row.
  destruct (parse_row_to_dict_cases line row _errors amount_str Hamount)
    as [(kwargs & -> & Hline)|(new & -> & Hnew & Hlines & _)].
  - left. by eexists.
  - right. by exists new.
Qed.

(** One run of the generator over rows that have an amount field. *)
Lemma gen_accounts csv : forall line _errors,
  Forall (fun row : Row =>
            exists amount_str,
              row !! amount_column_name = Some (Some amount_str)) csv ->
  exists objects new,
    gen parse_row line csv _errors = (Ok objects, new ++ _errors) /\
    Forall (fun t => line + 2 <= line_no t < line + 2 + Z.of_nat (length csv))
      objects /\
    Forall (fun e : ParserError =>
              line + 2 <= e.1 < line + 2 + Z.of_nat (length csv)) new /\
    StronglySorted Z.lt (line_no <$> objects) /\
    forall i : nat, (i < length csv)%nat ->
      ((exists t, t ∈ objects /\ line_no t = line + Z.of_nat i + 2) /\
       ~ (exists msg, (line + Z.of_nat i + 2, msg) ∈ new)) \/
      (~ (exists t, t ∈ objects /\ line_no t = line + Z.of_nat i + 2) /\
       exists msg, (line + Z.of_nat i + 2, msg) ∈ new).
Proof.
  induction csv as [|row csv IH]; intros line _errors Hrows.
  - exists [], []. split_and!; [done|constructor|constructor|constructor|].
    simpl. lia.
  - apply Forall_cons in Hrows as [[amount_str Hamount] Hrows].
    cbn [gen length].
    destruct (parse_row_cases (line + 2) row _errors amount_str Hamount)
      as [(t & -> & Hline)|(new0 & -> & Hnew0 & Hlines0)].
    + destruct (IH (line + 1) _errors Hrows)
        as (objects & new & -> & Hobjects & Hnew & Hsorted & Hrest).
      exists (t :: objects), new.
      rewrite Forall_forall in Hobjects. rewrite Forall_forall in Hnew.
      split_and!; [done| | | |].
      * constructor; [lia|]. apply Forall_forall. intros t' Ht'.
        specialize (Hobjects t' Ht'). lia.
      * apply Forall_forall. intros e He. specialize (Hnew e He). lia.
      * rewrite fmap_cons. constructor; [done|].
        apply Forall_fmap, Forall_forall. intros t' Ht'.
        specialize (Hobjects t' Ht'). simpl. lia.
      * intros [|i] Hi.
        -- left. split; [exists t; split; [left|lia]|].
           intros (msg & Hmsg). specialize (Hnew _ Hmsg). simpl in Hnew. lia.
        -- replace (line + Z.of_nat (S i) + 2)
             with (line + 1 + Z.of_nat i + 2) by lia.
           destruct (Hrest i) as [[(t' & Ht' & Hl) Hno]|[Hno Hyes]]; [lia| |].
           ++ left. split; [|done]. exists t'. split; [by right|done].
           ++ right. split; [|done].
              intros (t' & [->|Ht']%elem_of_cons & Hl); [lia|].
              apply Hno. by exists t'.
    + destruct (IH (line + 1) (new0 ++ _errors) Hrows)
        as (objects & new & -> & Hobjects & Hnew & Hsorted & Hrest).
      exists objects, (new ++ new0). rewrite <- app_assoc.
      rewrite Forall_forall in Hobjects. rewrite Forall_forall in Hnew.
      rewrite Forall_forall in Hlines0.
      split_and!; [done| | |done|].
      * apply Forall_forall. intros t' Ht'. specialize (Hobjects t' Ht'). lia.
      * apply Forall_forall. intros e [He|He]%elem_of_app.
        -- specialize (Hnew e He). lia.
        -- specialize (Hlines0 e He). lia.
      * intros [|i] Hi.
        -- right. split.
           ++ intros (t' & Ht' & Hl). specialize (Hobjects t' Ht'). lia.
           ++ destruct new0 as [|[l msg] new0]; [done|]. exists msg.
              apply elem_of_app. right.
              specialize (Hlines0 (l, msg)). simpl in Hlines0.
              rewrite Hlines0 by left.
              replace (line + Z.of_nat 0 + 2) with (line + 2) by lia. left.
        -- replace (line + Z.of_nat (S i) + 2)
             with (line + 1 + Z.of_nat i + 2) by lia.
           destruct (Hrest i) as [[Hyes Hno]|[Hno (msg & Hmsg)]]; [lia| |].
           ++ left. split; [done|].
              intros (msg & [Hmsg|Hmsg]%elem_of_app); [apply Hno; by exists msg|].
              specialize (Hlines0 _ Hmsg). simpl in Hlines0. lia.
           ++ right. split; [done|]. exists msg. apply elem_of_app. by left.
Qed.

(** Property X21.  [FinancialCSVParser._read] on rows that all have an
    amount field returns, and accounts for every row: the row at index [i]
    either gives a transaction with [line_no = i + 2] and no error on that
    line, or no transaction and at least one error on line [i + 2], never
    both.  The transactions are in the order of the file (their line
    numbers increase strictly), and every error is on the line of a data
    row. *)
Theorem every_row_is_parsed_or_reported csv :
  Forall (fun row : Row =>
            exists amount_str,
              row !! amount_column_name = Some (Some amount_str)) csv ->
  exists objects _errors,
    _read parse_row (Some csv) = Ok (objects, _errors) /\
    StronglySorted Z.lt (line_no <$> objects) /\
    Forall (fun e : ParserError => 2 <= e.1 < 2 + Z.of_nat (length csv))
      _errors /\
    forall i : nat, (i < length csv)%nat ->
      ((exists t, t ∈ objects /\ line_no t = Z.of_nat i + 2) /\
       ~ (exists msg, (Z.of_nat i + 2, msg) ∈ _errors)) \/
      (~ (exists t, t ∈ objects /\ line_no t = Z.of_nat i + 2) /\
       exists msg, (Z.of_nat i + 2, msg) ∈ _errors).
Proof.
  intros Hrows.
  destruct (gen_accounts csv 0 [] Hrows)
    as (objects & new & Hgen & _ & Hnew & Hsorted & Hrest).
  rewrite app_nil_r in Hgen. exists objects, new.
  unfold _read. rewrite Hgen. split_and!; [done..|].
  intros i Hi. specialize (Hrest i Hi). by rewrite Z.add_0_l in Hrest.
Qed.

Lemma gen_app {T} (f : Z -> Row -> list ParserError
                          -> Result (option T) * list ParserError)
    (l1 l2 : list Row) : forall line _errors,
  gen f line (l1 ++ l2) _errors
  = match gen f line l1 _errors with
    | (Ok objects1, _errors) =>
        match gen f (line + Z.of_nat (length l1)) l2 _errors with
        | (Ok objects2, _errors) => (Ok (objects1 ++ objects2), _errors)
        | (Raise e, _errors) => (Raise e, _errors)
        end
    | (Raise e, _errors) => (Raise e, _errors)
    end.
Proof.
  induction l1 as [|row l1 IH]; intros line _errors.
  - simpl. rewrite Z.add_0_r. by destruct (gen f line l2 _errors) as [[?|?] ?].
  - cbn [app gen length]. destruct (f (line + 2) row _errors) as [[t|e] errs1];
      [|done].
    rewrite IH. destruct (gen f (line + 1) l1 errs1) as [[o1|e] errs2]; [|done].
    replace (line + 1 + Z.of_nat (length l1))
      with (line + Z.of_nat (S (length l1))) by lia.
    destruct (gen f _ l2 errs2) as [[o2|e] errs3]; [|done].
    by destruct t.
Qed.

(** Property X22.  When a row lacks the amount column, [_read] catches the
    [KeyError], records ['Missing column: ... No data processed.'] on line
    0 and leaves [_objects] empty: the transactions of the rows before are
    discarded, while the errors that those rows recorded stay in
    [_errors]. *)
Theorem missing_column_discards_all_rows before row after :
  Forall (fun row : Row =>
            exists amount_str,
              row !! amount_column_name = Some (Some amount_str)) before ->
  row !! amount_column_name = None ->
  exists _errors,
    _read parse_row (Some (before ++ row :: after))
    = Ok ([], (0, missing_column amount_column_name) :: _errors) /\
    Forall (fun e : ParserError => 2 <= e.1 < 2 + Z.of_nat (length before))
      _errors.
Proof.
  intros Hbefore Hrow.
  destruct (gen_accounts before 0 [] Hbefore)
    as (objects & new & Hgen & _ & Hnew & _).
  rewrite app_nil_r in Hgen. exists new. split; [|done].
  unfold _read. rewrite gen_app, Hgen. cbn [gen].
  unfold csv_parsers.parse_row at 1, csv_parsers.parse_row_to_dict.
  by rewrite Hrow.
Qed.

(** Property X23.  A row that is shorter than the header, so that
    [DictReader] gives [None] for its amount field, makes [_read] raise
    [AttributeError] (from [amount_str.replace]), which the handler for
    [KeyError] does not catch. *)
Theorem short_row_raises_AttributeError before row after :
  Forall (fun row : Row =>
            exists amount_str,
              row !! amount_column_name = Some (Some amount_str)) before ->
  row !! amount_column_name = Some None ->
  _read parse_row (Some (before ++ row :: after)) = Raise AttributeError.
Proof.
  intros Hbefore Hrow.
  destruct (gen_accounts before 0 [] Hbefore) as (objects & new & Hgen & _).
  unfold _read. rewrite gen_app, Hgen. cbn [gen].
  unfold csv_parsers.parse_row at 1, csv_parsers.parse_row_to_dict.
  by rewrite Hrow.
Qed.

Lemma parse_row_to_dict_invalid line row _errors amount_str :
  row !! amount_column_name = Some (Some amount_str) ->
  quantize (replace_commas amount_str) = None \/
  (exists c date_str,
     row !! date_column_name = Some (Some (String c date_str)) /\
     strptime (String c date_str) = None) ->
  exists new,
    parse_row_to_dict line row _errors = (Ok None, new ++ _errors) /\
    new <> [].
Proof.
  intros Hamount Hinvalid.
  destruct (parse_row_to_dict_cases line row _errors amount_str Hamount)
    as [(kwargs & Hrun & _)|(new & -> & Hnew & _)]; [|by exists new].
  exfalso. revert Hrun.
  unfold csv_parsers.parse_row_to_dict, _parse_amount, _parse_date.
  rewrite Hamount.
  destruct Hinvalid as [->|(c & date_str & Hdate & Hparse)].
  - simpl. destruct (default None (row !! date_column_name)) as [[|c d]|];
      [done| |done]. by destruct (strptime (String c d)).
  - rewrite Hdate. simpl. rewrite Hparse.
    by destruct (quantize (replace_commas amount_str)).
Qed.

(** Property X24.  In a [BankCSVParser] a row with an invalid amount or an
    invalid date makes [_read] raise [TypeError]: [parse_row_to_dict] of
    [FinancialCSVParser] records the error and returns [None], and
    [PaymentCSVParser.parse_row_to_dict] assigns [parsed['nature']] on that
    [None].  The row is not reported and skipped. *)
Theorem invalid_row_crashes_bank_parser PAYMENT_NATURE_TRANSFER get_ogm
    before row after objects _errors amount_str :
  gen (bank_parse_row (bank_get_nature PAYMENT_NATURE_TRANSFER) get_ogm)
    0 before [] = (Ok objects, _errors) ->
  row !! amount_column_name = Some (Some amount_str) ->
  quantize (replace_commas amount_str) = None \/
  (exists c date_str,
     row !! date_column_name = Some (Some (String c date_str)) /\
     strptime (String c date_str) = None) ->
  _read (bank_parse_row (bank_get_nature PAYMENT_NATURE_TRANSFER) get_ogm)
    (Some (before ++ row :: after))
  = Raise TypeError.
Proof.
  intros Hbefore Hamount Hinvalid.
  unfold _read. rewrite gen_app, Hbefore. cbn [gen].
  unfold csv_parsers.bank_parse_row at 1.
  destruct (parse_row_to_dict_invalid (0 + Z.of_nat (length before) + 2) row
              _errors amount_str Hamount Hinvalid) as (new & -> & _).
  done.
Qed.

(** Property X25.  In a [MemberTransactionParser] a row that has the member
    column and an invalid amount or an invalid date makes [_read] raise
    [TypeError], from the assignment [parsed['member_str'] = ...] on the
    [None] that [parse_row_to_dict] of [FinancialCSVParser] returned. *)
Theorem invalid_row_crashes_member_parser member_column_name
    before row after objects _errors amount_str member :
  gen (member_parse_row member_column_name) 0 before []
  = (Ok objects, _errors) ->
  row !! amount_column_name = Some (Some amount_str) ->
  row !! member_column_name = Some member ->
  quantize (replace_commas amount_str) = None \/
  (exists c date_str,
     row !! date_column_name = Some (Some (String c date_str)) /\
     strptime (String c date_str) = None) ->
  _read (member_parse_row member_column_name) (Some (before ++ row :: after))
  = Raise TypeError.
Proof.
  intros Hbefore Hamount Hmember Hinvalid.
  unfold _read. rewrite gen_app, Hbefore. cbn [gen].
  unfold csv_parsers.member_parse_row at 1.
  destruct (parse_row_to_dict_invalid (0 + Z.of_nat (length before) + 2) row
              _errors amount_str Hamount Hinvalid) as (new & -> & _).
  by rewrite Hmember.
Qed.

End csv_facts.

Section csv_examples.
Import csv_parsers more_scenarios.

Local Abbreviation parse_row :=
  (csv_parsers.parse_row "bedrag" "datum" cents day_of 0 midnight).
Local Abbreviation bank_parse_row :=
  (csv_parsers.bank_parse_row "bedrag" "datum" cents day_of 0 midnight
     (bank_get_nature 2) found_ogm).
Local Abbreviation member_parse_row :=
  (csv_parsers.member_parse_row "bedrag" "datum" cents day_of 0 midnight
     "lid").

Lemma every_row_is_parsed_or_reported_witness :
  Forall (fun row : Row =>
            exists amount_str, row !! "bedrag" = Some (Some amount_str))
    [good_row; bad_amount_row] /\
  exists objects _errors,
    _read parse_row (Some [good_row; bad_amount_row])
    = Ok (objects, _errors) /\
    StronglySorted Z.lt (line_no <$> objects) /\
    Forall (fun e : ParserError =>
              2 <= e.1 < 2 + Z.of_nat (length [good_row; bad_amount_row]))
      _errors /\
    forall i : nat, (i < length [good_row; bad_amount_row])%nat ->
      ((exists t, t ∈ objects /\ line_no t = Z.of_nat i + 2) /\
       ~ (exists msg, (Z.of_nat i + 2, msg) ∈ _errors)) \/
      (~ (exists t, t ∈ objects /\ line_no t = Z.of_nat i + 2) /\
       exists msg, (Z.of_nat i + 2, msg) ∈ _errors).
Proof.
  assert (Forall (fun row : Row =>
                    exists amount_str,
                      row !! "bedrag" = Some (Some amount_str))
            [good_row; bad_amount_row]) as Hrows.
  { repeat constructor; eexists; reflexivity. }
  split; [exact Hrows|].
  exact (every_row_is_parsed_or_reported "bedrag" "datum" cents day_of 0
           midnight [good_row; bad_amount_row] Hrows).
Defined.

Lemma missing_column_discards_all_rows_witness :
  Forall (fun row : Row =>
            exists amount_str, row !! "bedrag" = Some (Some amount_str))
    [good_row] /\
  other_header_row !! "bedrag" = None /\
  exists _errors,
    _read parse_row (Some ([good_row] ++ other_header_row :: []))
    = Ok ([], (0, missing_column "bedrag") :: _errors) /\
    Forall (fun e : ParserError =>
              2 <= e.1 < 2 + Z.of_nat (length [good_row])) _errors.
Proof.
  assert (Forall (fun row : Row =>
                    exists amount_str,
                      row !! "bedrag" = Some (Some amount_str)) [good_row])
    as Hrows.
  { repeat constructor; eexists; reflexivity. }
  split; [exact Hrows|]. split; [reflexivity|].
  exact (missing_column_discards_all_rows "bedrag" "datum" cents day_of 0
           midnight [good_row] other_header_row [] Hrows eq_refl).
Defined.

Lemma short_row_raises_AttributeError_witness :
  Forall (fun row : Row =>
            exists amount_str, row !! "bedrag" = Some (Some amount_str))
    [good_row] /\
  short_row !! "bedrag" = Some None /\
  _read parse_row (Some ([good_row] ++ short_row :: []))
  = Raise AttributeError.
Proof.
  assert (Forall (fun row : Row =>
                    exists amount_str,
                      row !! "bedrag" = Some (Some amount_str)) [good_row])
    as Hrows.
  { repeat constructor; eexists; reflexivity. }
  split; [exact Hrows|]. split; [reflexivity|].
  exact (short_row_raises_AttributeError "bedrag" "datum" cents day_of 0
           midnight [good_row] short_row [] Hrows eq_refl).
Defined.

Lemma invalid_row_crashes_bank_parser_witness :
  gen bank_parse_row 0 [good_row] []
  = (Ok [ {| bank_info := {| line_no := 2; amount := 1000;
                             timestamp := 1548979200 |};
             nature := 2; ogm := "200012345643" |} ], []) /\
  bad_amount_row !! "bedrag" = Some (Some "ten") /\
  (cents (replace_commas "ten") = None \/
   (exists c date_str,
      bad_amount_row !! "datum" = Some (Some (String c date_str)) /\
      day_of (String c date_str) = None)) /\
  _read bank_parse_row (Some ([good_row] ++ bad_amount_row :: [good_row]))
  = Raise TypeError.
Proof.
  assert (cents (replace_commas "ten") = None \/
          (exists c date_str,
             bad_amount_row !! "datum" = Some (Some (String c date_str)) /\
             day_of (String c date_str) = None)) as Hinvalid.
  { left. reflexivity. }
  split; [reflexivity|]. split; [reflexivity|]. split; [exact Hinvalid|].
  exact (invalid_row_crashes_bank_parser "bedrag" "datum" cents day_of 0
           midnight 2 found_ogm [good_row] bad_amount_row [good_row] _ []
           "ten" eq_refl eq_refl Hinvalid).
Defined.

Lemma invalid_row_crashes_member_parser_witness :
  gen member_parse_row 0 [good_row] []
  = (Ok [ {| member_info := {| line_no := 2; amount := 1000;
                               timestamp := 1548979200 |};
             member_str := Some "An" |} ], []) /\
  bad_amount_row !! "bedrag" = Some (Some "ten") /\
  bad_amount_row !! "lid" = Some (Some "Bo") /\
  (cents (replace_commas "ten") = None \/
   (exists c date_str,
      bad_amount_row !! "datum" = Some (Some (String c date_str)) /\
      day_of (String c date_str) = None)) /\
  _read member_parse_row (Some ([good_row] ++ bad_amount_row :: [good_row]))
  = Raise TypeError.
Proof.
  assert (cents (replace_commas "ten") = None \/
          (exists c date_str,
             bad_amount_row !! "datum" = Some (Some (String c date_str)) /\
             day_of (String c date_str) = None)) as Hinvalid.
  { left. reflexivity. }
  split; [reflexivity|]. split; [reflexivity|]. split; [reflexivity|].
  split; [exact Hinvalid|].
  exact (invalid_row_crashes_member_parser "bedrag" "datum" cents day_of 0
           midnight "lid" [good_row] bad_amount_row [good_row] _ [] "ten"
           (Some "Bo") eq_refl eq_refl eq_refl Hinvalid).
Defined.

(** The base parser reports the same row and goes on. *)
Example base_parser_reports_invalid_amount :
  _read parse_row (Some [good_row; bad_amount_row; good_row])
  = Ok ([ {| line_no := 2; amount := 1000; timestamp := 1548979200 |};
          {| line_no := 4; amount := 1000; timestamp := 1548979200 |} ],
        [(3, invalid_amount "ten")]).
Proof. reflexivity. Qed.

End csv_examples.

(** * Properties of the transfer index builder *)
Section index_facts.
Import index_builder.
Variable parse_ogm : string -> option (Z * Z).
Variable normalise_ogm : string -> option string.
Variable by_payment_tracking_nos :
  list string -> list TransactionParty * list string.

Local Abbreviation lookup := (index_builder.lookup normalise_ogm).
Local Abbreviation ogm_applies := (index_builder.ogm_applies parse_ogm).
Local Abbreviation append := (index_builder.append parse_ogm).
Local Abbreviation appended := (index_builder.appended parse_ogm).
Local Abbreviation execute_query :=
  (index_builder.execute_query by_payment_tracking_nos).

Lemma line_index_get_append (s key : string) line_no line_index :
  line_index_get s (line_index_append key line_no line_index)
  = line_index_get s line_index
    ++ (if decide (key = s) then [line_no] else []).
Proof.
  induction line_index as [|[k line_nos] later IH]; simpl.
  - by destruct (decide (key = s)).
  - destruct (decide (k = key)) as [->|Hne]; simpl.
    + destruct (decide (key = s)); [done|by rewrite app_nil_r].
    + destruct (decide (k = s)) as [->|]; [|done].
      rewrite decide_False by done. by rewrite app_nil_r.
Qed.

Lemma line_index_keys_append key line_no line_index :
  (line_index_append key line_no line_index).*1
  = if decide (key ∈ line_index.*1) then line_index.*1
    else line_index.*1 ++ [key].
Proof.
  induction line_index as [|[k line_nos] later IH]; [done|].
  cbn [line_index_append]. rewrite fmap_cons. cbn [fst].
  destruct (decide (k = key)) as [->|Hne]; rewrite fmap_cons; cbn [fst].
  - by rewrite decide_True by left.
  - rewrite IH. destruct (decide (key ∈ later.*1)) as [Hin|Hnin].
    + by rewrite decide_True by by right.
    + rewrite decide_False; [done|]. intros [?|?]%elem_of_cons; by simplify_eq.
Qed.

Lemma ogm_applies_prefix_digit self self' ogm :
  prefix_digit self' = prefix_digit self ->
  ogm_applies self' ogm = ogm_applies self ogm.
Proof. intros H. unfold index_builder.ogm_applies. by rewrite H. Qed.

Lemma append_step self tinfo (s : string) :
  line_index_get s (line_index (append self tinfo).2)
  = line_index_get s (line_index self)
    ++ (if decide (account_lookup_str tinfo = s /\ ogm_applies self s = true)
        then [line_no tinfo] else []) /\
  (s ∈ (line_index (append self tinfo).2).*1 <->
   s ∈ (line_index self).*1 \/
   (ogm_applies self s = true /\ account_lookup_str tinfo = s)) /\
  prefix_digit (append self tinfo).2 = prefix_digit self.
Proof.
  unfold index_builder.append.
  destruct (ogm_applies self (account_lookup_str tinfo)) eqn:Happ;
    cbn [negb snd line_index prefix_digit].
  - rewrite line_index_get_append, line_index_keys_append.
    split_and!; [|
|done].
    + f_equal. destruct (decide (account_lookup_str tinfo = s)) as [<-|Hne].
      * by rewrite decide_True.
      * rewrite decide_False; [done|]. tauto.
    + destruct (decide (account_lookup_str tinfo ∈ (line_index self).*1))
        as [Hin|Hnin].
      * split; [by left|]. intros [?|[_ <-]]; done.
      * rewrite elem_of_app, list_elem_of_singleton. split.
        -- intros [?| ->]; [by left|by right].
        -- intros [?|[_ <-]]; [by left|by right].
  - split_and!; [| |done].
    + rewrite decide_False; [by rewrite app_nil_r|].
      intros [<- ?]. congruence.
    + split; [by left|]. intros [?|[? <-]]; [done|congruence].
Qed.

(** Property X27.  After the transactions of a batch have been appended
    to a builder, [line_index] holds for a reference, in the order of the
    batch, the line numbers of the transactions that carry exactly that
    string, provided the reference is of the builder's class
    ([ogm_applies]); a string of another class, or one that does not
    parse, never becomes a key. *)
Theorem line_index_collects_applicable_lines tinfos : forall self (s : string),
  line_index_get s (line_index (appended self tinfos))
  = line_index_get s (line_index self)
    ++ (line_no <$> filter (fun tinfo =>
                              account_lookup_str tinfo = s /\
                              ogm_applies self s = true) tinfos) /\
  (s ∈ (line_index (appended self tinfos)).*1 <->
   s ∈ (line_index self).*1 \/
   (ogm_applies self s = true /\
    exists tinfo, tinfo ∈ tinfos /\ account_lookup_str tinfo = s)).
Proof.
  induction tinfos as [|tinfo tinfos IH]; intros self s.
  - simpl. rewrite app_nil_r. split; [done|]. split; [by left|].
    intros [?|(_ & tinfo & ?%elem_of_nil & _)]; done.
  - unfold index_builder.appended in *. cbn [foldl].
    destruct (append_step self tinfo s) as (Hget & Hkeys & Hdigit).
    destruct (IH (append self tinfo).2 s) as [-> ->].
    rewrite (ogm_applies_prefix_digit self _ s Hdigit).
    rewrite Hget, Hkeys, filter_cons. split.
    + rewrite <- app_assoc. f_equal.
      by destruct (decide (account_lookup_str tinfo = s /\
                           ogm_applies self s = true)).
    + split.
      * intros [[?|[? ?]]|(? & t & ? & ?)]; [by left|right..].
        -- split; [done|]. exists tinfo. split; [left|done].
        -- split; [done|]. exists t. split; [by right|done].
      * intros [?|(? & t & [->|?]%elem_of_cons & ?)];
          [by left; left|by left; right|].
        right. split; [done|]. by exists t.
Qed.

Lemma appended_account_index tinfos : forall self,
  account_index (appended self tinfos) = account_index self.
Proof.
  induction tinfos as [|tinfo tinfos IH]; intros self; [done|].
  unfold index_builder.appended in *. cbn [foldl]. rewrite IH.
  unfold index_builder.append. by destruct (negb _).
Qed.

Lemma account_index_keyed (found account_qs : list TransactionParty) :
  account_qs ⊆ found ->
  forall index : gmap string TransactionParty,
  map_Forall (fun key account =>
                payment_tracking_no account = key /\ account ∈ found) index ->
  map_Forall (fun key account =>
                payment_tracking_no account = key /\ account ∈ found)
    (foldl (fun account_index m =>
              <[payment_tracking_no m := m]> account_index)
       index account_qs).
Proof.
  induction account_qs as [|account qs IH]; intros Hsub index Hindex; [done|].
  simpl. apply IH; [set_solver|].
  apply map_Forall_insert_2; [|done]. split; [done|]. apply Hsub. left.
Qed.

(** Property X26.  After [execute_query], [lookup] only finds an account
    under a string that is, character for character, the account's
    [payment_tracking_no] (and that [normalise_ogm] accepts): the index is
    keyed by the accounts' own references and read at the string as
    given, the normalised form is not used. *)
Theorem lookup_finds_only_exact_references prefix tinfos (s : string) m :
  lookup (execute_query (appended (__init__ prefix) tinfos)) s = Some m ->
  payment_tracking_no m = s /\
  is_Some (normalise_ogm s) /\
  m ∈ (by_payment_tracking_nos
         (line_index (appended (__init__ prefix) tinfos)).*1).1.
Proof.
  unfold index_builder.lookup, index_builder.execute_query.
  destruct (normalise_ogm s) as [normalised|]; [|done].
  destruct (by_payment_tracking_nos _) as [account_qs unseen]. simpl.
  rewrite appended_account_index. simpl. intros Hlookup.
  pose proof (account_index_keyed account_qs account_qs (reflexivity _) ∅
                (map_Forall_empty _)) as Hkeyed.
  apply Hkeyed in Hlookup as [? ?]. by split_and!.
Qed.

End index_facts.

Section index_examples.
Import index_builder more_scenarios.

Local Abbreviation built tinfos :=
  (execute_query found_party
     (appended ogm_codec.parse_ogm (__init__ 2) tinfos)).

Lemma lookup_finds_only_exact_references_witness :
  lookup canonical_form
    (built [ {| account_lookup_str := "200012345643"; line_no := 2 |} ])
    "200012345643"
  = Some party_123456 /\
  payment_tracking_no party_123456 = "200012345643" /\
  is_Some (canonical_form "200012345643") /\
  party_123456
    ∈ (found_party
         (line_index
            (appended ogm_codec.parse_ogm (__init__ 2)
               [ {| account_lookup_str := "200012345643";
                    line_no := 2 |} ])).*1).1.
Proof.
  split; [reflexivity|].
  apply (lookup_finds_only_exact_references ogm_codec.parse_ogm
           canonical_form found_party 2
           [ {| account_lookup_str := "200012345643"; line_no := 2 |} ]
           "200012345643" party_123456).
  reflexivity.
Defined.

(** A transaction that carries the reference in its display form is
    indexed and queried, yet [lookup] at that string finds nothing. *)
Example display_form_is_not_found :
  append ogm_codec.parse_ogm (__init__ 2)
    {| account_lookup_str := "+++200/0123/45643+++"; line_no := 2 |}
  = (true, {| account_index := ∅;
              line_index := [("+++200/0123/45643+++", [2])];
              prefix_digit := 2 |}) /\
  lookup canonical_form
    (built [ {| account_lookup_str := "+++200/0123/45643+++";
                line_no := 2 |} ])
    "+++200/0123/45643+++"
  = None.
Proof. split; reflexivity. Qed.

End index_examples.

(** * Properties of the registry of activity options *)
Section registry_facts.
Import complex_pricing option_paths registry.


Lemma keyed_init focus : keyed (__init__ focus).
Proof. intros p r opt H. simpl in H. by rewrite lookup_empty in H. Qed.

Lemma keyed_insert self p r opt :
  keyed self -> path opt = p ->
  keyed {| seen := <[(p, r) := opt]> (seen self); focus_pk := focus_pk self |}.
Proof.
  intros Hk Hp p' r' opt'. simpl.
  destruct (decide ((p, r) = (p', r'))) as [Heq|Hne].
  - rewrite Heq, lookup_insert_eq. intros [= <-]. congruence.
  - rewrite lookup_insert_ne by done. apply Hk.
Qed.

Lemma rsplit_no_slash s : no_slash s = true -> rsplit s = None.
Proof.
  induction s as [|c s IH]; simpl; [done|].
  intros [Hc Hs]%andb_true_iff. rewrite IH by done.
  by destruct (Ascii.eqb c "/").
Qed.

Lemma rsplit_append p s :
  no_slash s = true -> rsplit (p +:+ String "/" s) = Some (p, s).
Proof.
  intros Hs. induction p as [|c p IH]; simpl.
  - by rewrite rsplit_no_slash.
  - by rewrite IH.
Qed.

Lemma length_append (p q : string) :
  String.length (p +:+ q) = (String.length p + String.length q)%nat.
Proof. induction p as [|c p IH]; simpl; [done|by rewrite IH]. Qed.

Lemma path_of_snoc slugs s :
  path_of (slugs ++ [s]) = path_of slugs +:+ String "/" s.
Proof. unfold path_of. by rewrite foldl_app. Qed.

Lemma append_slash_cases p s :
  s <> EmptyString ->
  p +:+ String "/" s <> EmptyString /\ p +:+ String "/" s <> "/".
Proof.
  intros Hs. destruct p as [|c p]; simpl; split; try done.
  - intros [= ->]. done.
  - destruct p; simpl; [|done]. done.
Qed.

Lemma component_cases s :
  component s = true -> s <> EmptyString /\ no_slash s = true.
Proof.
  unfold component. intros [H1 H2]%andb_true_iff. split; [|done].
  intros ->. done.
Qed.

Lemma register_in_path slugs :
  Forall (fun s => component s = true) slugs ->
  forall fuel self act_ref,
    (String.length (path_of slugs) < fuel)%nat -> keyed self ->
    exists opt self',
      register_in fuel self (path_of slugs) act_ref = Some (Done opt, self')
      /\ path opt = path_of slugs
      /\ keyed self'
      /\ focus_pk self' = focus_pk self
      /\ seen self' !! (path_of slugs, or_focus act_ref (focus_pk self))
         = Some opt.
Proof.
  induction slugs as [|s slugs IH] using rev_ind; intros Hall fuel self act_ref Hfuel Hk.
  - destruct fuel as [|fuel]; [simpl in Hfuel; lia|]. simpl.
    eexists _, _. split; [done|]. split; [done|]. split.
    + by apply keyed_insert.
    + split; [done|]. simpl. by rewrite lookup_insert_eq.
  - apply Forall_app in Hall as [Hall Hs]. rewrite Forall_singleton in Hs.
    apply component_cases in Hs as [Hne Hs].
    rewrite path_of_snoc in *.
    destruct fuel as [|fuel]; [lia|]. simpl.
    rewrite bool_decide_true by by apply append_slash_cases.
    rewrite rsplit_append by done.
    rewrite length_append in Hfuel. simpl in Hfuel.
    assert (exists parent self1,
      match seen self !! (path_of slugs, act_ref) with
      | Some parent => Some (Done (Some parent), self, s)
      | None =>
          match register_in fuel self (path_of slugs) act_ref with
          | Some (Done parent, self) => Some (Done (Some parent), self, s)
          | Some (Failed e, self) => Some (Failed e, self, s)
          | None => None
          end
      end = Some (Done (Some parent), self1, s)
      /\ path parent = path_of slugs /\ keyed self1
      /\ focus_pk self1 = focus_pk self) as (parent & self1 & -> & Hp & Hk1 & Hf).
    { destruct (seen self !! (path_of slugs, act_ref)) as [parent|] eqn:Hseen.
      - exists parent, self. split_and!; try done. by apply Hk in Hseen.
      - destruct (IH Hall fuel self act_ref ltac:(lia) Hk)
          as (parent & self1 & -> & Hp & Hk1 & Hf & _).
        by exists parent, self1. }
    destruct s as [|c s]; [done|]. simpl.
    eexists _, _. split; [done|]. split_and!.
    + simpl. by rewrite Hp.
    + apply keyed_insert; [done|]. simpl. by rewrite Hp.
    + done.
    + simpl. by rewrite Hf, lookup_insert_eq.
Qed.


Lemma path_rooted opt : unrooted (path opt) = false.
Proof.
  induction opt as [s b k|s p b k IH] using ActivityOption_chain_ind; simpl;
    [done|].
  destruct (path p) as [|c rest]; simpl; [done|]. exact IH.
Qed.

Lemma rsplit_unrooted p parent_path path_base :
  unrooted p = true -> rsplit p = Some (parent_path, path_base) ->
  unrooted parent_path = true
  /\ (String.length parent_path < String.length p)%nat.
Proof.
  destruct p as [|c p]; [done|]. simpl. intros Hc.
  destruct (rsplit p) as [[pp pb]|] eqn:Hp.
  - intros [= <- <-]. simpl. split; [done|].
    clear Hc. revert pp pb Hp. induction p as [|c' p IH]; intros pp pb; [done|].
    simpl. destruct (rsplit p) as [[pp' pb']|] eqn:Hp'.
    + intros [= <- <-]. simpl. specialize (IH _ _ eq_refl). lia.
    + destruct (Ascii.eqb c' "/"); [|done]. intros [= <- <-]. simpl. lia.
  - destruct (Ascii.eqb c "/"); done.
Qed.

Lemma register_in_unrooted fuel : forall self p act_ref,
  keyed self -> unrooted p = true -> (String.length p < fuel)%nat ->
  register_in fuel self p act_ref = Some (Failed ValueError, self).
Proof.
  induction fuel as [|fuel IH]; intros self p act_ref Hk Hp Hfuel; [lia|].
  simpl. rewrite bool_decide_true.
  2:{ split; intros ->; done. }
  destruct (rsplit p) as [[parent_path path_base]|] eqn:Hsplit; [|done].
  destruct (rsplit_unrooted _ _ _ Hp Hsplit) as [Hpp Hlen].
  destruct (seen self !! (parent_path, act_ref)) as [parent|] eqn:Hseen.
  { apply Hk in Hseen. rewrite <- Hseen, path_rooted in Hpp. done. }
  by rewrite IH by (done || lia).
Qed.

(** Property X28.  In a registry that stores every option under its own
    path, [ensure_registered] on the path ['/slug1/.../slugn'] of
    components (not empty, without slash) returns an option whose [path]
    is that very string, and keeps the invariant.  When the [act_ref]
    given is the one [register] stores under (it is not [None] or [0], or
    there is no focus), a second call returns the same option and leaves
    the registry as it is. *)
Theorem registered_option_has_its_path self slugs act_ref :
  keyed self -> Forall (fun s => component s = true) slugs ->
  exists opt self',
    ensure_registered self (path_of slugs) act_ref = Some (Done opt, self')
    /\ path opt = path_of slugs
    /\ keyed self'
    /\ (or_focus act_ref (focus_pk self) = act_ref ->
        ensure_registered self' (path_of slugs) act_ref
        = Some (Done opt, self')).
Proof.
  intros Hk Hall. unfold ensure_registered at 1.
  destruct (seen self !! (path_of slugs, act_ref)) as [opt|] eqn:Hseen.
  - exists opt, self. split_and!; [done|by apply Hk in Hseen|done|].
    intros _. unfold ensure_registered. by rewrite Hseen.
  - destruct (register_in_path slugs Hall (S (String.length (path_of slugs)))
                self act_ref ltac:(lia) Hk)
      as (opt & self' & Hreg & Hp & Hk' & Hf & Hstored).
    exists opt, self'. split_and!; [done..|].
    intros Hact. unfold ensure_registered. rewrite Hact in Hstored.
    by rewrite Hstored.
Qed.

Lemma unrooted_raises self p act_ref :
  keyed self -> unrooted p = true ->
  ensure_registered self p act_ref = Some (Failed ValueError, self)
  /\ register self p act_ref = Some (Failed ValueError, self).
Proof.
  intros Hk Hp.
  assert (register self p act_ref = Some (Failed ValueError, self)) as Hreg.
  { apply register_in_unrooted; [done..|lia]. }
  split; [|done]. unfold ensure_registered.
  destruct (seen self !! (p, act_ref)) as [opt|] eqn:Hseen; [|done].
  apply Hk in Hseen. rewrite <- Hseen, path_rooted in Hp. done.
Qed.

Lemma register_trailing_slash self p act_ref :
  p <> EmptyString ->
  register self (p +:+ "/") act_ref
  = match seen self !! (p, act_ref) with
    | Some _ => Some (Failed AssertionError, self)
    | None =>
        match register self p act_ref with
        | Some (Done _, self') => Some (Failed AssertionError, self')
        | other => other
        end
    end.
Proof.
  intros Hp. unfold register. rewrite length_append. simpl String.length.
  replace (S (String.length p + 1)) with (S (S (String.length p))) by lia.
  set (fuel := S (String.length p)). cbn [register_in].
  rewrite bool_decide_true.
  2:{ split; intros H%(f_equal String.length);
        rewrite length_append in H; simpl in H; [lia|].
      destruct p; [done|simpl in H; lia]. }
  rewrite (rsplit_append _ EmptyString) by done.
  destruct (seen self !! (p, act_ref)); [done|].
  by destruct (register_in fuel self p act_ref) as [[[]]|].
Qed.


Lemma trailing_slash_raises self slugs act_ref :
  keyed self -> Forall (fun s => component s = true) slugs -> slugs <> [] ->
  exists parent self',
    ensure_registered self (path_of slugs) act_ref = Some (Done parent, self')
    /\ register self (path_of slugs +:+ "/") act_ref
       = Some (Failed AssertionError, self').
Proof.
  intros Hk Hall Hne.
  assert (path_of slugs <> EmptyString) as Hpath.
  { destruct slugs as [|s slugs _] using rev_ind; [done|].
    rewrite path_of_snoc. intros H%(f_equal String.length).
    rewrite length_append in H. simpl in H. lia. }
  pose proof (register_trailing_slash self _ act_ref Hpath) as Hreg.
  unfold ensure_registered.
  destruct (seen self !! (path_of slugs, act_ref)) as [opt|] eqn:Hseen.
  - by exists opt, self.
  - destruct (register_in_path slugs Hall (S (String.length (path_of slugs)))
                self act_ref ltac:(lia) Hk)
      as (opt & self' & Hparent & _).
    change (register self (path_of slugs) act_ref = Some (Done opt, self'))
      in Hparent.
    exists opt, self'. split; [done|]. by rewrite Hreg, Hparent.
Qed.


Lemma option_at_snoc b f slugs s :
  option_at b f (slugs ++ [s])
  = MkActivityOption s (Some (option_at b f slugs)) b f.
Proof. unfold option_at. by rewrite foldl_app. Qed.

Lemma path_of_inj slugs : forall slugs',
  Forall (fun s => component s = true) slugs ->
  Forall (fun s => component s = true) slugs' ->
  path_of slugs = path_of slugs' -> slugs = slugs'.
Proof.
  induction slugs as [|s slugs IH] using rev_ind;
    intros slugs' Hall Hall' Heq.
  - destruct slugs' as [|s' slugs' _] using rev_ind; [done|].
    rewrite path_of_snoc in Heq. apply (f_equal String.length) in Heq.
    rewrite length_append in Heq. simpl in Heq. lia.
  - destruct slugs' as [|s' slugs' _] using rev_ind.
    + rewrite path_of_snoc in Heq. apply (f_equal String.length) in Heq.
      rewrite length_append in Heq. simpl in Heq. lia.
    + apply Forall_app in Hall as [Hall Hs], Hall' as [Hall' Hs'].
      rewrite Forall_singleton in Hs, Hs'.
      apply component_cases in Hs as [_ Hs], Hs' as [_ Hs'].
      rewrite !path_of_snoc in Heq. apply (f_equal rsplit) in Heq.
      rewrite !rsplit_append in Heq by done.
      injection Heq as Hp ->. by rewrite (IH slugs').
Qed.

Lemma canonical_init focus : canonical (__init__ focus).
Proof. intros p r opt H. simpl in H. by rewrite lookup_empty in H. Qed.

Lemma or_focus_idemp act_ref focus :
  or_focus (or_focus act_ref focus) focus = or_focus act_ref focus.
Proof. destruct act_ref as [[| |]|], focus as [[| |]|]; done. Qed.

Lemma canonical_insert self slugs act_ref :
  canonical self -> Forall (fun s => component s = true) slugs ->
  canonical
    {| seen :=
         <[(path_of slugs, or_focus act_ref (focus_pk self)) :=
             option_at
               (bool_decide (or_focus act_ref (focus_pk self) <> None))
               (focus_pk self) slugs]> (seen self);
       focus_pk := focus_pk self |}.
Proof.
  intros Hc Hall p r opt. simpl.
  destruct (decide ((path_of slugs, or_focus act_ref (focus_pk self)) = (p, r)))
    as [Heq|Hne].
  - rewrite Heq, lookup_insert_eq. injection Heq as <- <-. intros [= <-].
    split; [apply or_focus_idemp|]. by exists slugs.
  - rewrite lookup_insert_ne by done. apply Hc.
Qed.

Lemma register_in_canonical slugs :
  Forall (fun s => component s = true) slugs ->
  forall fuel self act_ref,
    (String.length (path_of slugs) < fuel)%nat -> canonical self ->
    exists self',
      register_in fuel self (path_of slugs) act_ref
      = Some (Done (option_at
                      (bool_decide (or_focus act_ref (focus_pk self) <> None))
                      (focus_pk self) slugs), self')
      /\ canonical self' /\ focus_pk self' = focus_pk self.
Proof.
  induction slugs as [|s slugs IH] using rev_ind;
    intros Hall fuel self act_ref Hfuel Hc.
  - destruct fuel as [|fuel]; [simpl in Hfuel; lia|]. simpl.
    eexists. split; [done|]. split; [|done].
    by apply (canonical_insert self []).
  - pose proof Hall as Hall'.
    apply Forall_app in Hall as [Hall Hs]. rewrite Forall_singleton in Hs.
    apply component_cases in Hs as [Hne Hs].
    rewrite path_of_snoc in *.
    destruct fuel as [|fuel]; [lia|]. simpl.
    rewrite bool_decide_true by by apply append_slash_cases.
    rewrite rsplit_append by done.
    rewrite length_append in Hfuel. simpl in Hfuel.
    assert (exists self1,
      match seen self !! (path_of slugs, act_ref) with
      | Some parent => Some (Done (Some parent), self, s)
      | None =>
          match register_in fuel self (path_of slugs) act_ref with
          | Some (Done parent, self) => Some (Done (Some parent), self, s)
          | Some (Failed e, self) => Some (Failed e, self, s)
          | None => None
          end
      end = Some (Done (Some (option_at
                      (bool_decide (or_focus act_ref (focus_pk self) <> None))
                      (focus_pk self) slugs)), self1, s)
      /\ canonical self1
      /\ focus_pk self1 = focus_pk self) as (self1 & -> & Hc1 & Hf).
    { destruct (seen self !! (path_of slugs, act_ref)) as [parent|] eqn:Hseen.
      - exists self. split_and!; try done.
        apply Hc in Hseen as (-> & slugs' & Hall1 & Heq & ->).
        by rewrite (path_of_inj _ _ Hall Hall1 Heq).
      - destruct (IH Hall fuel self act_ref ltac:(lia) Hc)
          as (self1 & -> & Hc1 & Hf).
        by exists self1. }
    destruct s as [|c s]; [done|]. simpl.
    eexists. split_and!.
    + rewrite Hf, option_at_snoc. done.
    + rewrite <- path_of_snoc, <- option_at_snoc.
      pose proof (canonical_insert self1 (slugs ++ [String c s]) act_ref Hc1 Hall') as H.
      by rewrite Hf in H.
    + done.
Qed.

Lemma ensure_registered_canonical self slugs act_ref :
  canonical self -> Forall (fun s => component s = true) slugs ->
  exists self',
    ensure_registered self (path_of slugs) act_ref
    = Some (Done (option_at
                    (bool_decide (or_focus act_ref (focus_pk self) <> None))
                    (focus_pk self) slugs), self')
    /\ canonical self' /\ focus_pk self' = focus_pk self.
Proof.
  intros Hc Hall. unfold ensure_registered.
  destruct (seen self !! (path_of slugs, act_ref)) as [opt|] eqn:Hseen.
  - exists self. split_and!; try done.
    apply Hc in Hseen as (-> & slugs' & Hall1 & Heq & ->).
    by rewrite (path_of_inj _ _ Hall Hall1 Heq).
  - apply register_in_canonical; [done|lia|done].
Qed.

Lemma option_at_contains b f slugs more :
  more <> [] ->
  contains (option_at b f slugs) (option_at b f (slugs ++ more)) = true.
Proof.
  induction more as [|s more IH] using rev_ind; [done|]. intros _.
  rewrite app_assoc, option_at_snoc. simpl.
  destruct more as [|s' more'].
  - rewrite app_nil_r. apply orb_true_iff. left. by apply option_eq_spec.
  - apply orb_true_iff. right. by apply IH.
Qed.

(** Property X29.  Malformed paths.  A path that is not empty and does
    not start with a slash makes [register] and [ensure_registered] raise
    [ValueError], and the registry is left as it was.  The path of a
    non-empty list of components followed by a slash makes [register]
    raise [AssertionError], from [ActivityOption.__init__] on the empty
    slug, after the parent path has been registered: the registry is the
    one that [ensure_registered] on the parent path leaves. *)
Theorem malformed_path_raises self act_ref :
  keyed self ->
  (forall p, unrooted p = true ->
     ensure_registered self p act_ref = Some (Failed ValueError, self)
     /\ register self p act_ref = Some (Failed ValueError, self))
  /\ (forall slugs,
        Forall (fun s => component s = true) slugs -> slugs <> [] ->
        exists parent self',
          ensure_registered self (path_of slugs) act_ref
          = Some (Done parent, self')
          /\ register self (path_of slugs +:+ "/") act_ref
             = Some (Failed AssertionError, self')).
Proof.
  intros Hk. split.
  - intros p Hp. by apply unrooted_raises.
  - intros slugs Hall Hne. by apply trailing_slash_raises.
Qed.

(** Property X30.  In a registry built by [ensure_registered] on paths of
    components, registering a path and then, with the same [act_ref], a
    longer path below it gives two options of which the first contains
    the second ([__contains__]): a criterion registered as ['/foo']
    matches an option registered as ['/foo/bar']. *)
Theorem registered_prefix_contains self slugs more act_ref :
  canonical self ->
  Forall (fun s => component s = true) (slugs ++ more) -> more <> [] ->
  exists a self1 b self2,
    ensure_registered self (path_of slugs) act_ref = Some (Done a, self1)
    /\ ensure_registered self1 (path_of (slugs ++ more)) act_ref
       = Some (Done b, self2)
    /\ contains a b = true.
Proof.
  intros Hc Hall Hmore. pose proof Hall as Hboth.
  apply Forall_app in Hall as [Hall _].
  destruct (ensure_registered_canonical self slugs act_ref Hc Hall)
    as (self1 & Ha & Hc1 & Hf).
  destruct (ensure_registered_canonical self1 (slugs ++ more) act_ref Hc1 Hboth)
    as (self2 & Hb & _).
  eexists _, self1, _, self2. split; [exact Ha|]. split; [exact Hb|].
  rewrite Hf. by apply option_at_contains.
Qed.

End registry_facts.

Section registry_examples.
Import complex_pricing option_paths registry.

Lemma registered_option_has_its_path_witness :
  exists opt self',
    ensure_registered (__init__ None) (path_of ["bar"; "baz"]) None
    = Some (Done opt, self')
    /\ path opt = path_of ["bar"; "baz"]
    /\ keyed self'
    /\ (or_focus None (focus_pk (__init__ None)) = None ->
        ensure_registered self' (path_of ["bar"; "baz"]) None
        = Some (Done opt, self')).
Proof.
  apply (registered_option_has_its_path (__init__ None) ["bar"; "baz"] None);
    [apply keyed_init|by repeat constructor].
Defined.

(** [" /bar/baz"] is the second option of a case written
    ['[/foo, /bar/baz]'], split at the comma. *)
Lemma malformed_path_raises_witness :
  unrooted " /bar/baz" = true
  /\ register (__init__ (Some 7)) " /bar/baz" None
     = Some (Failed ValueError, __init__ (Some 7))
  /\ exists parent self',
       ensure_registered (__init__ (Some 7)) (path_of ["foo"]) None
       = Some (Done parent, self')
       /\ register (__init__ (Some 7)) (path_of ["foo"] +:+ "/") None
          = Some (Failed AssertionError, self').
Proof.
  destruct (malformed_path_raises (__init__ (Some 7)) None
              (keyed_init (Some 7))) as [Hvalue Hassert].
  split; [reflexivity|]. split.
  - apply (Hvalue " /bar/baz"). reflexivity.
  - apply (Hassert ["foo"]); [by repeat constructor|done].
Defined.

Lemma registered_prefix_contains_witness :
  exists a self1 b self2,
    ensure_registered (__init__ (Some 7)) (path_of ["foo"]) None
    = Some (Done a, self1)
    /\ ensure_registered self1 (path_of (["foo"] ++ ["bar"])) None
       = Some (Done b, self2)
    /\ contains a b = true.
Proof.
  apply (registered_prefix_contains (__init__ (Some 7)) ["foo"] ["bar"] None);
    [apply canonical_init|by repeat constructor|done].
Defined.

End registry_examples.
